(** * SimplifyCFG: a shallow embedding of the CFG simplifier

    The development follows [llvm/lib/Transforms/Utils/SimplifyCFG.cpp].
    Each module embeds one part of the pass:

    - [LookupTable]   the constructor of [SwitchLookupTable];
    - [SwitchSelect]  [switchToSelect] and its helpers;
    - [Sink]          the profitability scan of
                      [SinkCommonCodeFromPredecessors];
    - [DomUpdates]    the dominator-tree update batches the rules record;
    - [IR], [Speculate], [Driver]
                      the block graph, [SpeculativelyExecuteBB] and the
                      per-block driver [simplifyOnceImpl] / [run].

    Pointers to uniqued IR objects are modelled by values with decidable
    equality; [APInt]s are integers with their wrap-around written out. *)

From Stdlib Require Import ZArith Lia.
From stdpp Require Import base decidable option list numbers strings gmap
  sorting.

#[local] Set Warnings "-clear-no-such-hyp".

Local Open Scope Z_scope.

(** ** Arbitrary-precision integers of a fixed width *)

Module AP.

Record APInt := mk { BitWidth : nat; getZExtValue : Z }.

#[global] Instance APInt_eq_dec : EqDecision APInt.
Proof. solve_decision. Defined.

Definition wrap (w : nat) (z : Z) : Z := z mod 2 ^ Z.of_nat w.

Definition get (w : nat) (z : Z) : APInt := mk w (wrap w z).

(** [operator-], at the width of the left operand. *)
Definition sub (a b : APInt) : APInt :=
  get (BitWidth a) (getZExtValue a - getZExtValue b).

Definition UINT64_MAX : Z := 2 ^ 64 - 1.
Definition UINT_MAX : Z := 2 ^ 32 - 1.

(** [getLimitedValue()]: the value, saturated at [UINT64_MAX]. *)
Definition getLimitedValue (a : APInt) : Z :=
  Z.min (getZExtValue a) UINT64_MAX.

Definition wf (a : APInt) : Prop :=
  0 <= getZExtValue a < 2 ^ Z.of_nat (BitWidth a).

Lemma wrap_range w z : 0 <= wrap w z < 2 ^ Z.of_nat w.
Proof. unfold wrap. apply Z.mod_pos_bound. lia. Qed.

Lemma wrap_small w z : 0 <= z < 2 ^ Z.of_nat w -> wrap w z = z.
Proof. intros. unfold wrap. by apply Z.mod_small. Qed.

Lemma get_wf w z : wf (get w z).
Proof. apply wrap_range. Qed.

End AP.

(** ** Types and constants *)

Module Const.
Import AP.

Inductive Ty :=
| IntegerType (w : nat)
| PointerType
| OtherType (tag : nat).

#[global] Instance Ty_eq_dec : EqDecision Ty.
Proof. solve_decision. Defined.

(** Constants are uniqued, so pointer equality is structural equality. *)
Inductive Constant :=
| ConstantInt (v : APInt)
| UndefValue (ty : Ty)
| GlobalValue (name : string)
| ConstantExpr (ty : Ty) (tag : nat)
| OtherConstant (ty : Ty) (tag : nat).

#[global] Instance Constant_eq_dec : EqDecision Constant.
Proof. solve_decision. Defined.

Definition getType (c : Constant) : Ty :=
  match c with
  | ConstantInt v => IntegerType (BitWidth v)
  | UndefValue ty => ty
  | GlobalValue _ => PointerType
  | ConstantExpr ty _ => ty
  | OtherConstant ty _ => ty
  end.

End Const.

(** ** The lookup-table encoder *)

Module LookupTable.
Import AP Const.

Inductive KindTy := SingleValueKind | LinearMapKind | BitMapKind | ArrayKind.

#[global] Instance KindTy_eq_dec : EqDecision KindTy.
Proof. solve_decision. Defined.

Record SwitchLookupTable := {
  Kind : KindTy;
  SingleValue : option Constant;
  BitMap : option APInt;
  BitMapElementTy : option nat;
  LinearOffset : option APInt;
  LinearMultiplier : option APInt;
  Array : option (list Constant)
}.

(** A table slot is a pointer, null until it is written. *)
Definition Table := list (option Constant).

Section WithDataLayout.

(** [DataLayout::fitsInLegalInteger], a property of the target. *)
Variable fitsInLegalInteger : Z -> bool.

Definition WouldFitInRegister (TableSize : nat) (ElementType : Ty) : bool :=
  match ElementType with
  | IntegerType w =>
      if decide (UINT_MAX / Z.of_nat w <= Z.of_nat TableSize) then false
      else fitsInLegalInteger (Z.of_nat TableSize * Z.of_nat w)
  | _ => false
  end.

(** The first loop of the constructor: write every case result into its
    slot and clear [SingleValue] when a result differs from it.  A result
    of another type than [ValueType] trips the loop's assertion, and an
    index outside the table is an out-of-bounds write; the model stops at
    both. *)
Fixpoint fillCases (ValueType : Ty) (Offset : APInt)
    (Values : list (APInt * Constant))
    (TableContents : Table) (SingleValue : option Constant)
    : option (Table * option Constant) :=
  match Values with
  | [] => Some (TableContents, SingleValue)
  | (CaseVal, CaseRes) :: Values' =>
      let Idx := Z.to_nat (getLimitedValue (sub CaseVal Offset)) in
      if decide (getType CaseRes = ValueType) then
        if decide (Idx < length TableContents)%nat then
          fillCases ValueType Offset Values'
            (<[Idx := Some CaseRes]> TableContents)
            (if decide (Some CaseRes = SingleValue)
             then SingleValue else None)
        else None
      else None
  end.

(** Holes take the default result. *)
Definition fillHoles (DefaultValue : Constant) (TableContents : Table) : Table :=
  (fun slot => match slot with
               | None => Some DefaultValue
               | Some c => Some c
               end) <$> TableContents.

(** The scan for a constant distance between consecutive entries.  It
    returns [LinearMappingPossible] and [DistToPrev]; reading a null slot
    has no result. *)
Fixpoint linearScan (I : nat) (PrevVal DistToPrev : APInt)
    (TableContents : Table) : option (bool * APInt) :=
  match TableContents with
  | [] => Some (true, DistToPrev)
  | None :: _ => None
  | Some (ConstantInt Val) :: rest =>
      if decide (I = 0)%nat then linearScan (S I) Val DistToPrev rest
      else
        let Dist := sub Val PrevVal in
        if decide (I = 1)%nat then linearScan (S I) Val Dist rest
        else if decide (Dist = DistToPrev)
             then linearScan (S I) Val DistToPrev rest
             else Some (false, DistToPrev)
  | Some _ :: _ => Some (false, DistToPrev)
  end.

(** The bitmap: entries are packed from the last to the first, undef
    entries as zero. [rev_contents] is the table read from its end. *)
Fixpoint packBitMap (total w : nat) (rev_contents : Table) (TableInt : Z)
    : option Z :=
  match rev_contents with
  | [] => Some TableInt
  | slot :: rest =>
      let shifted := wrap total (Z.shiftl TableInt (Z.of_nat w)) in
      match slot with
      | None => None
      | Some (UndefValue _) => packBitMap total w rest shifted
      | Some (ConstantInt Val) =>
          packBitMap total w rest (Z.lor shifted (getZExtValue Val))
      | Some _ => None
      end
  end.

Definition firstInt (TableContents : Table) : option APInt :=
  match TableContents with
  | Some (ConstantInt v) :: _ => Some v
  | _ => None
  end.

(** The last two representations: the bitmap when the table would fit in
    a register, the array otherwise. *)
Definition encodeBitMapOrArray (TableSize : nat) (ValueType : Ty)
    (TableContents : Table) : option SwitchLookupTable :=
  if WouldFitInRegister TableSize ValueType then
    match ValueType with
    | IntegerType w =>
        TableInt ← packBitMap (TableSize * w) w (reverse TableContents) 0;
        Some {| Kind := BitMapKind; SingleValue := None;
                BitMap := Some (mk (TableSize * w) TableInt);
                BitMapElementTy := Some w; LinearOffset := None;
                LinearMultiplier := None; Array := None |}
    | _ => None
    end
  else
    Initializer ← mapM id TableContents;
    Some {| Kind := ArrayKind; SingleValue := None; BitMap := None;
            BitMapElementTy := None; LinearOffset := None;
            LinearMultiplier := None; Array := Some Initializer |}.

(** The part of the constructor after the single-value test. *)
Definition encodeRest (TableSize : nat) (ValueType : Ty)
    (TableContents : Table) : option SwitchLookupTable :=
  match ValueType with
  | IntegerType _ =>
      '(LinearMappingPossible, DistToPrev) ←
        linearScan 0 (mk 1 0) (mk 1 0) TableContents;
      if LinearMappingPossible : bool then
        Offset0 ← firstInt TableContents;
        Some {| Kind := LinearMapKind; SingleValue := None; BitMap := None;
                BitMapElementTy := None; LinearOffset := Some Offset0;
                LinearMultiplier := Some DistToPrev; Array := None |}
      else encodeBitMapOrArray TableSize ValueType TableContents
  | _ => encodeBitMapOrArray TableSize ValueType TableContents
  end.

Definition ValueTypeOf (Values : list (APInt * Constant)) : option Ty :=
  match Values with
  | [] => None
  | (_, First) :: _ => Some (getType First)
  end.

(** The table and [SingleValue] once the cases are written and the holes
    are filled.  The two leading assertions of the constructor and the
    assertions on the default value are failures of the model. *)
Definition tableContents (TableSize : nat) (Offset : APInt)
    (Values : list (APInt * Constant)) (DefaultValue : option Constant)
    : option (Table * option Constant) :=
  match Values with
  | [] => None
  | (_, First) :: _ =>
      if decide (TableSize < length Values)%nat then None
      else
        '(TableContents, SingleValue) ←
          fillCases (getType First) Offset Values
            (replicate TableSize None) (Some First);
        if decide (length Values < TableSize)%nat then
          match DefaultValue with
          | None => None
          | Some Default =>
              if decide (getType Default = getType First) then
                Some (fillHoles Default TableContents,
                      if decide (Some Default = SingleValue)
                      then SingleValue else None)
              else None
          end
        else Some (TableContents, SingleValue)
  end.

(** [SwitchLookupTable::SwitchLookupTable]. *)
Definition build (TableSize : nat) (Offset : APInt)
    (Values : list (APInt * Constant)) (DefaultValue : option Constant)
    : option SwitchLookupTable :=
  ValueType ← ValueTypeOf Values;
  '(TableContents, SingleValue) ←
    tableContents TableSize Offset Values DefaultValue;
  match SingleValue with
  | Some v =>
      Some {| Kind := SingleValueKind; SingleValue := Some v;
              BitMap := None; BitMapElementTy := None;
              LinearOffset := None; LinearMultiplier := None;
              Array := None |}
  | None => encodeRest TableSize ValueType TableContents
  end.

End WithDataLayout.

End LookupTable.

(** *** Properties of the encoder *)

Module LookupTableFacts.
Import AP Const LookupTable.

(** Every entry is an integer constant and consecutive entries are
    [Dist] apart: the table is an arithmetic progression. *)
Definition ConstantStride (Dist : APInt) (TableContents : Table) : Prop :=
  Forall (fun slot => exists v, slot = Some (ConstantInt v)) TableContents /\
  forall i a b,
    TableContents !! i = Some (Some (ConstantInt a)) ->
    TableContents !! S i = Some (Some (ConstantInt b)) ->
    sub b a = Dist.

(** All case results, and the default result when it fills holes, are one
    constant. *)
Definition AllResultsEqual (TableSize : nat)
    (Values : list (APInt * Constant)) (DefaultValue : option Constant) : Prop :=
  exists v, Forall (fun p => p.2 = v) Values /\
            ((length Values < TableSize)%nat -> DefaultValue = Some v).

Lemma fillCases_single ty Offset Values : forall tc0 sv0 tc sv v,
  fillCases ty Offset Values tc0 sv0 = Some (tc, sv) ->
  sv = Some v <-> sv0 = Some v /\ Forall (fun p => p.2 = v) Values.
Proof.
  induction Values as [|[cv cr] Values IH]; intros tc0 sv0 tc sv v H; simpl in H.
  - inversion H; subst. split; [intros ->; by split | by intros [-> _]].
  - repeat case_decide; try discriminate.
    + rewrite (IH _ _ _ _ v H). subst sv0. split.
      * intros [[= ->] HF]. split; [done|]. by constructor.
      * intros [[= ->] HF]. by inversion HF; subst.
    + rewrite (IH _ _ _ _ v H). split; [by intros [? _]|].
      intros [-> HF]. inversion HF; subst. simpl in *. congruence.
Qed.

Lemma fillCases_length ty Offset Values : forall tc0 sv0 tc sv,
  fillCases ty Offset Values tc0 sv0 = Some (tc, sv) ->
  length tc = length tc0.
Proof.
  induction Values as [|[cv cr] Values IH]; intros tc0 sv0 tc sv H; simpl in H.
  - by inversion H.
  - repeat case_decide; try discriminate;
      apply IH in H; rewrite H; apply length_insert.
Qed.

Lemma tableContents_single TableSize Offset Values DefaultValue tc sv :
  tableContents TableSize Offset Values DefaultValue = Some (tc, sv) ->
  is_Some sv <-> AllResultsEqual TableSize Values DefaultValue.
Proof.
  unfold tableContents, AllResultsEqual.
  destruct Values as [|[cv0 First] Values']; [done|].
  set (Values := (cv0, First) :: Values').
  case_decide; [done|].
  destruct (fillCases _ _ _ _ _) as [[tc1 sv1]|] eqn:Hfill; [|done]. simpl.
  pose proof (fun v => fillCases_single _ _ _ _ _ _ _ v Hfill) as Hs.
  case_decide.
  - destruct DefaultValue as [Default|]; [|done].
    case_decide; [|done]. intros [= <- <-]. split.
    + intros [v Hv]. case_decide as Hd; [|done]. rewrite Hv in Hd.
      exists v. apply Hs in Hv as [_ HF]. split; [done|].
      intros _. congruence.
    + intros (v & HF & HD). specialize (HD ltac:(done)). inversion HD; subst.
      assert (sv1 = Some v) as ->.
      { apply Hs. split; [|done]. inversion HF; subst. simpl in *. by subst. }
      rewrite decide_True; by eauto.
  - intros [= <- <-]. split.
    + intros [v Hv]. exists v. apply Hs in Hv as [_ HF]. split; [done|lia].
    + intros (v & HF & _). exists v. apply Hs. split; [|done].
      inversion HF; subst. simpl in *. by subst.
Qed.

(** The scan, read as a recursive predicate: every entry is an integer
    [d] away from the one before it. *)
Fixpoint Chain (d prev : APInt) (tc : Table) : Prop :=
  match tc with
  | [] => True
  | Some (ConstantInt v) :: rest => sub v prev = d /\ Chain d v rest
  | _ => False
  end.

Lemma stride_cons D v0 rest :
  ConstantStride D (Some (ConstantInt v0) :: rest) <-> Chain D v0 rest.
Proof.
  revert v0. induction rest as [|s rest IH]; intros v0.
  - split; [done|]. intros _. split; [constructor; eauto|].
    intros [|i] a b H1 H2; simpl in *; done.
  - split.
    + intros [HF Hs]. inversion HF as [|? ? _ HF']; subst.
      inversion HF' as [|? ? [v1 ->] HF'']; subst. simpl. split.
      * by apply (Hs 0%nat).
      * apply IH. split; [done|]. intros i a b H1 H2. by apply (Hs (S i)).
    + destruct s as [[v1|?|?|? ?|? ?]|]; simpl; try done. intros [Hd Hc].
      apply IH in Hc as [HF Hs]. split; [constructor; eauto|].
      intros [|i] a b H1 H2; simpl in *.
      * by inversion H1; inversion H2; subst.
      * by apply (Hs i).
Qed.

Lemma linearScan_chain tc : forall I prev d b d',
  (2 <= I)%nat ->
  linearScan I prev d tc = Some (b, d') ->
  d' = d /\ (b = true <-> Chain d prev tc).
Proof.
  induction tc as [|s tc IH]; intros I prev d b d' HI H; simpl in H.
  - by inversion H.
  - destruct s as [[v|?|?|? ?|? ?]|]; try discriminate;
      try (inversion H; subst; split; [done|]; by split).
    repeat case_decide; try lia.
    + apply IH in H as [-> Hb]; [|lia]. split; [done|]. simpl.
      rewrite Hb. split; [by intros ?|by intros [_ ?]].
    + inversion H; subst. split; [done|]. simpl.
      split; [done|by intros [? _]].
Qed.

(** The scan accepts exactly the tables with a constant stride, and then
    returns the stride (of a table with at least two entries). *)
Lemma linearScan_spec tc p0 d0 b D :
  linearScan 0 p0 d0 tc = Some (b, D) ->
  (b = true -> ConstantStride D tc \/ (length tc <= 1)%nat) /\
  (b = true <-> exists D', ConstantStride D' tc).
Proof.
  destruct tc as [|[c0|] tc]; simpl; try discriminate.
  { intros [= <- <-]. split; [intros _; right; simpl; lia|].
    split; [|done]. intros _. exists d0. split; [constructor|].
    intros i ? ? H; by destruct i. }
  destruct c0 as [v0|?|?|? ?|? ?].
  2-5: intros [= <- <-]; split; [done|]; split; [done|];
       intros [D' [HF _]]; inversion HF as [|? ? [v HH] _]; by subst.
  destruct tc as [|[c1|] tc]; simpl; try discriminate.
  { intros [= <- <-]. split; [intros _; right; simpl; lia|].
    split; [|done]. intros _. exists d0. by apply stride_cons. }
  destruct c1 as [v1|?|?|? ?|? ?].
  2-5: intros [= <- <-]; split; [done|]; split; [done|];
       intros [D' [HF _]]; inversion HF as [|? ? _ HF']; subst;
       inversion HF' as [|? ? [v HH] _]; by subst.
  intros H. apply linearScan_chain in H as [-> Hb]; [|lia]. split.
  - intros ->. left. apply stride_cons. simpl. split; [done|]. by apply Hb.
  - rewrite Hb. split.
    + intros Hc. exists (sub v1 v0). by apply stride_cons.
    + intros [D' HD']. by apply stride_cons in HD' as [<- Hc].
Qed.

(** The table holds integers with a constant stride. *)
Definition Linear (ValueType : Ty) (TableContents : Table) : Prop :=
  (exists w, ValueType = IntegerType w) /\
  exists D, ConstantStride D TableContents.

Lemma encodeBitMapOrArray_kind fits TableSize ValueType tc t :
  encodeBitMapOrArray fits TableSize ValueType tc = Some t ->
  (WouldFitInRegister fits TableSize ValueType = true /\
   Kind t = BitMapKind) \/
  (WouldFitInRegister fits TableSize ValueType = false /\
   Kind t = ArrayKind).
Proof.
  unfold encodeBitMapOrArray.
  destruct (WouldFitInRegister fits TableSize ValueType); intros Ht.
  - left. split; [done|]. destruct ValueType; try done.
    destruct (packBitMap _ _ _ _); [|done]. by inversion Ht.
  - right. split; [done|].
    destruct (mapM id tc); [|done]. by inversion Ht.
Qed.

(** What the constructor returns after the single-value test. *)
Lemma encodeRest_kind fits TableSize ValueType tc t :
  encodeRest fits TableSize ValueType tc = Some t ->
  (Linear ValueType tc /\ Kind t = LinearMapKind) \/
  (~ Linear ValueType tc /\
   WouldFitInRegister fits TableSize ValueType = true /\
   Kind t = BitMapKind) \/
  (~ Linear ValueType tc /\
   WouldFitInRegister fits TableSize ValueType = false /\
   Kind t = ArrayKind).
Proof.
  intros H.
  assert (~ Linear ValueType tc ->
          encodeBitMapOrArray fits TableSize ValueType tc = Some t ->
          (Linear ValueType tc /\ Kind t = LinearMapKind) \/
          (~ Linear ValueType tc /\
           WouldFitInRegister fits TableSize ValueType = true /\
           Kind t = BitMapKind) \/
          (~ Linear ValueType tc /\
           WouldFitInRegister fits TableSize ValueType = false /\
           Kind t = ArrayKind)) as Hrest.
  { intros HnL Ht. right.
    apply encodeBitMapOrArray_kind in Ht as [[? ?]|[? ?]]; [left|right]; done. }
  unfold encodeRest in H. destruct ValueType as [w| |tag].
  - destruct (linearScan _ _ _ _) as [[b D]|] eqn:Hscan; [|done].
    apply linearScan_spec in Hscan as [_ Hb]. simpl in H. destruct b.
    + destruct (firstInt tc); [|done]. simpl in H. inversion H; subst.
      simpl. left. split; [|done]. split; [by eexists|by apply Hb].
    + apply Hrest; [|done]. intros [_ HD]. by apply Hb in HD.
  - apply Hrest; [|done]. by intros [[w ?] _].
  - apply Hrest; [|done]. by intros [[w ?] _].
Qed.

(** The cases 0..9 with results 0, 2, ..., 18 at width [w]. *)
Definition twice_x (w : nat) : list (APInt * Constant) :=
  (fun i : nat => (get w (Z.of_nat i), ConstantInt (get w (2 * Z.of_nat i))))
    <$> seq 0 10.

(** C7. The encoder tries the representations in the order SingleValue,
    LinearMap, BitMap, Array: a table is a SingleValue exactly when all
    results are equal; otherwise a LinearMap exactly when its entries are
    integers with a constant stride; otherwise a BitMap exactly when it
    would fit in a legal register; otherwise an Array.  For the ten cases
    0..9 with results 0, 2, ..., 18 the encoder builds the LinearMap with
    offset 0 and multiplier 2, whatever the target and the default. *)
Theorem lookup_table_selection_order :
  (forall fits TableSize Offset Values DefaultValue t,
      build fits TableSize Offset Values DefaultValue = Some t ->
      exists ValueType TableContents sv,
        ValueTypeOf Values = Some ValueType /\
        tableContents TableSize Offset Values DefaultValue
          = Some (TableContents, sv) /\
        (Kind t = SingleValueKind <->
         AllResultsEqual TableSize Values DefaultValue) /\
        (Kind t = LinearMapKind <->
         ~ AllResultsEqual TableSize Values DefaultValue /\
         Linear ValueType TableContents) /\
        (Kind t = BitMapKind <->
         ~ AllResultsEqual TableSize Values DefaultValue /\
         ~ Linear ValueType TableContents /\
         WouldFitInRegister fits TableSize ValueType = true) /\
        (Kind t = ArrayKind <->
         ~ AllResultsEqual TableSize Values DefaultValue /\
         ~ Linear ValueType TableContents /\
         WouldFitInRegister fits TableSize ValueType = false)) /\
  (forall fits DefaultValue,
      build fits 10 (get 32 0) (twice_x 32) DefaultValue
      = Some {| Kind := LinearMapKind; SingleValue := None; BitMap := None;
                BitMapElementTy := None; LinearOffset := Some (get 32 0);
                LinearMultiplier := Some (get 32 2); Array := None |}).
Proof.
  split; [|intros; by vm_compute].
  intros fits TableSize Offset Values DefaultValue t Hb. unfold build in Hb.
  destruct (ValueTypeOf Values) as [ValueType|] eqn:Hty; [|done].
  destruct (tableContents _ _ _ _) as [[tc sv]|] eqn:Htc; [|done].
  simpl in Hb. exists ValueType, tc, sv. split; [done|]. split; [done|].
  pose proof (tableContents_single _ _ _ _ _ _ Htc) as Hs.
  destruct sv as [v|].
  - inversion Hb; subst; simpl.
    assert (AllResultsEqual TableSize Values DefaultValue)
      by (apply Hs; eauto).
    intuition congruence.
  - assert (~ AllResultsEqual TableSize Values DefaultValue) as HnS
      by (intros HS; apply Hs in HS as [? ?]; done).
    apply encodeRest_kind in Hb
      as [[HLin HK]|[(HLin & HF & HK)|(HLin & HF & HK)]];
      rewrite HK, ?HF; intuition congruence.
Qed.

(** Four slots of eight bits with one hole, filled by the default. *)
Definition packed : list (APInt * Constant) :=
  [ (get 8 0, ConstantInt (get 8 1)); (get 8 1, ConstantInt (get 8 5));
    (get 8 3, ConstantInt (get 8 1)) ].

Lemma lookup_table_selection_order_witness :
  exists t,
    build (fun _ => true) 4 (get 8 0) packed (Some (ConstantInt (get 8 0)))
    = Some t /\
    Kind t = BitMapKind /\
    exists ValueType TableContents,
      (Kind t = BitMapKind <->
       ~ AllResultsEqual 4 packed (Some (ConstantInt (get 8 0))) /\
       ~ Linear ValueType TableContents /\
       WouldFitInRegister (fun _ => true) 4 ValueType = true).
Proof.
  eexists. split; [by vm_compute|]. split; [done|].
  destruct (proj1 lookup_table_selection_order (fun _ => true) 4%nat (get 8 0)
              packed (Some (ConstantInt (get 8 0))) _ eq_refl)
    as (ty & tc & sv & _ & _ & _ & _ & HB & _).
  by exists ty, tc.
Defined.

End LookupTableFacts.

(** ** The block graph *)

Module IR.
Import AP Const.

Definition BlockId := nat.
Definition ValueId := nat.

(** A [Value*]: a constant, a function argument, or the result of the
    instruction (or PHI node) with the given identity. *)
Inductive Value :=
| VConst (c : Constant)
| VArg (n : nat)
| VInst (id : ValueId).

#[global] Instance Value_eq_dec : EqDecision Value.
Proof. solve_decision. Defined.

Inductive Opcode :=
| OpPHI
| Add | Mul | Or
| ICmpEQ | ICmpULT | ICmpOther | FCmp
| Select
| Load
| Store (isSimple : bool)
| DbgInfoIntrinsic
| PseudoProbeInst
| OtherOp (tag : nat).

#[global] Instance Opcode_eq_dec : EqDecision Opcode.
Proof. solve_decision. Defined.

(** A store has the stored value as operand 0 and the pointer as
    operand 1; a select has the condition, the true value and the false
    value. *)
Record Instruction := mkInst {
  inst_id : ValueId;
  opcode : Opcode;
  operands : list Value
}.

#[global] Instance Instruction_eq_dec : EqDecision Instruction.
Proof. solve_decision. Defined.

(** One incoming value per predecessor edge, in insertion order. *)
Record PHINode := mkPHI {
  phi_id : ValueId;
  incoming : list (Value * BlockId)
}.

#[global] Instance PHINode_eq_dec : EqDecision PHINode.
Proof. solve_decision. Defined.

Inductive Terminator :=
| Br (dest : BlockId)
| CondBr (cond : Value) (ifTrue ifFalse : BlockId)
| Switch (cond : Value) (defaultDest : BlockId) (cases : list (APInt * BlockId))
| Ret (v : option Value)
| Unreachable
| Resume (v : Value)
| CleanupRet (pad : Value) (unwindDest : option BlockId)
| IndirectBr (addr : Value) (dests : list BlockId).

#[global] Instance Terminator_eq_dec : EqDecision Terminator.
Proof. solve_decision. Defined.

Record BasicBlock := mkBB {
  phis : list PHINode;
  insts : list Instruction;
  term : Terminator
}.

#[global] Instance BasicBlock_eq_dec : EqDecision BasicBlock.
Proof. solve_decision. Defined.

(** The blocks in layout order; the first one is the entry block.
    [next_id] is the next unused instruction identity. *)
Record Function := mkFn {
  blocks : list (BlockId * BasicBlock);
  next_id : ValueId
}.

#[global] Instance Function_eq_dec : EqDecision Function.
Proof. solve_decision. Defined.

(** *** Queries *)

Fixpoint lookupBlock (bs : list (BlockId * BasicBlock)) (b : BlockId)
    : option BasicBlock :=
  match bs with
  | [] => None
  | (b', bb) :: bs' => if decide (b' = b) then Some bb else lookupBlock bs' b
  end.

Definition getBlock (f : Function) (b : BlockId) : option BasicBlock :=
  lookupBlock (blocks f) b.

Definition getEntryBlock (f : Function) : option BlockId :=
  fst <$> head (blocks f).

(** [successors(BB)]: one entry per edge, in operand order. *)
Definition successors (t : Terminator) : list BlockId :=
  match t with
  | Br d => [d]
  | CondBr _ d1 d2 => [d1; d2]
  | Switch _ d cases => d :: (snd <$> cases)
  | Ret _ | Unreachable | Resume _ => []
  | CleanupRet _ (Some d) => [d]
  | CleanupRet _ None => []
  | IndirectBr _ ds => ds
  end.

(** [predecessors(BB)]: one entry per edge into [b]. *)
Definition predecessors (f : Function) (b : BlockId) : list BlockId :=
  '(a, bb) ← blocks f;
  _ ← filter (fun s => s = b) (successors (term bb));
  [a].

Definition pred_empty (f : Function) (b : BlockId) : bool :=
  bool_decide (predecessors f b = []).

(** [getSinglePredecessor()]: the predecessor of a block that has exactly
    one incoming edge. *)
Definition getSinglePredecessor (f : Function) (b : BlockId) : option BlockId :=
  match predecessors f b with
  | [p] => Some p
  | _ => None
  end.

Definition isExceptionalTerminator (t : Terminator) : bool :=
  match t with
  | Resume _ | CleanupRet _ _ => true
  | _ => false
  end.

Definition termOperands (t : Terminator) : list Value :=
  match t with
  | CondBr c _ _ | Switch c _ _ => [c]
  | Ret (Some v) | Resume v | CleanupRet v _ | IndirectBr v _ => [v]
  | _ => []
  end.

(** *** PHI nodes *)

Definition getBasicBlockIndex (pn : PHINode) (b : BlockId) : option nat :=
  fst <$> list_find (fun e => e.2 = b) (incoming pn).

Definition getIncomingValueForBlock (pn : PHINode) (b : BlockId) : option Value :=
  (fun e => e.2.1) <$> list_find (fun e => e.2 = b) (incoming pn).

Definition addIncoming (v : Value) (b : BlockId) (pn : PHINode) : PHINode :=
  mkPHI (phi_id pn) (incoming pn ++ [(v, b)]).

Definition setIncomingValue (i : nat) (v : Value) (pn : PHINode) : PHINode :=
  mkPHI (phi_id pn) (alter (fun e => (v, e.2)) i (incoming pn)).

Fixpoint removeFirst (b : BlockId) (l : list (Value * BlockId))
    : list (Value * BlockId) :=
  match l with
  | [] => []
  | e :: l' => if decide (e.2 = b) then l' else e :: removeFirst b l'
  end.

(** [removeIncomingValue(BB)] drops the first entry for [b]. *)
Definition removeIncomingValue (b : BlockId) (pn : PHINode) : PHINode :=
  mkPHI (phi_id pn) (removeFirst b (incoming pn)).

(** *** Edits *)

Definition updBlock (b : BlockId) (g : BasicBlock -> BasicBlock)
    (f : Function) : Function :=
  mkFn ((fun p : BlockId * BasicBlock =>
           if decide (p.1 = b) then (p.1, g p.2) else p) <$> blocks f)
       (next_id f).

Definition eraseBlock (b : BlockId) (f : Function) : Function :=
  mkFn (filter (fun p : BlockId * BasicBlock => p.1 <> b) (blocks f))
       (next_id f).

Definition setPhis (ps : list PHINode) (bb : BasicBlock) : BasicBlock :=
  mkBB ps (insts bb) (term bb).
Definition setInsts (il : list Instruction) (bb : BasicBlock) : BasicBlock :=
  mkBB (phis bb) il (term bb).
Definition setTerm (t : Terminator) (bb : BasicBlock) : BasicBlock :=
  mkBB (phis bb) (insts bb) t.

(** Modelled from the spec: [BasicBlock::removePredecessor] is not part of
    the sources at hand.  Removing the edge [Pred -> b] removes the entry
    for [Pred] from every PHI node of [b]. *)
Definition removePredecessor (b Pred : BlockId) (f : Function) : Function :=
  updBlock b (fun bb => setPhis (removeIncomingValue Pred <$> phis bb) bb) f.

(** *** Uses and definitions *)

(** A use of a value: the block of the user and, for a use by a PHI node,
    the incoming block of that use. *)
Definition usesOf (f : Function) (V : Value) : list (BlockId * option BlockId) :=
  '(b, bb) ← blocks f;
  (pn ← phis bb; e ← incoming pn;
     if decide (e.1 = V) then [(b, Some e.2)] else []) ++
  (i ← insts bb; o ← operands i;
     if decide (o = V) then [(b, None)] else []) ++
  (o ← termOperands (term bb);
     if decide (o = V) then [(b, None)] else []).

(** PHI nodes are instructions too. *)
Definition phiAsInst (pn : PHINode) : Instruction :=
  mkInst (phi_id pn) OpPHI (fst <$> incoming pn).

(** All instructions of a block but its terminator. *)
Definition body (bb : BasicBlock) : list Instruction :=
  (phiAsInst <$> phis bb) ++ insts bb.

(** The instruction that defines a value, and its parent block. *)
Definition definingInst (f : Function) (V : Value)
    : option (BlockId * Instruction) :=
  match V with
  | VInst id =>
      head ('(b, bb) ← blocks f;
            i ← body bb;
            if decide (inst_id i = id) then [(b, i)] else [])
  | _ => None
  end.

(** *** Dominator-tree updates *)

Inductive DomUpdate :=
| DomInsert (From To : BlockId)
| DomDelete (From To : BlockId).

#[global] Instance DomUpdate_eq_dec : EqDecision DomUpdate.
Proof. solve_decision. Defined.

(** Modelled from the spec: [IRBuilder] is not part of the sources at hand.
    A builder positioned at the terminator of [BB] appends the new
    instruction to the body of [BB] and returns its value. *)
Definition emit (BB : BlockId) (op : Opcode) (ops : list Value)
    (f : Function) : Value * Function :=
  let id := next_id f in
  (VInst id,
   mkFn (blocks (updBlock BB
                   (fun bb => setInsts (insts bb ++ [mkInst id op ops]) bb) f))
        (S id)).

(** *** Measures *)

Definition blockCount (f : Function) : nat := length (blocks f).

Definition edgeCount (f : Function) : nat :=
  sum_list ((fun p : BlockId * BasicBlock => length (successors (term p.2)))
              <$> blocks f).

(** PHI nodes, instructions and the terminator of every block. *)
Definition instCount (f : Function) : nat :=
  sum_list ((fun p : BlockId * BasicBlock =>
               length (phis p.2) + length (insts p.2) + 1)%nat <$> blocks f).

End IR.

(** ** Switch to select *)

Module SwitchSelect.
Import AP Const IR.

(** [SmallDenseMap<Value *, Constant *>]: [insert] keeps an existing entry. *)
Definition ConstantPool := list (Value * Constant).

Definition poolLookup (pool : ConstantPool) (V : Value) : option Constant :=
  (fun e => e.2.2) <$> list_find (fun e => e.1 = V) pool.

Definition poolInsert (V : Value) (C : Constant) (pool : ConstantPool)
    : ConstantPool :=
  match poolLookup pool V with
  | Some _ => pool
  | None => pool ++ [(V, C)]
  end.

Definition LookupConstant (V : Value) (pool : ConstantPool) : option Constant :=
  match V with
  | VConst C => Some C
  | _ => poolLookup pool V
  end.

Definition isAllOnesValue (C : Constant) : bool :=
  match C with
  | ConstantInt v => bool_decide (getZExtValue v = 2 ^ Z.of_nat (BitWidth v) - 1)
  | _ => false
  end.

Definition isNullValue (C : Constant) : bool :=
  match C with
  | ConstantInt v => bool_decide (getZExtValue v = 0)
  | _ => false
  end.

Definition isCmp (op : Opcode) : bool :=
  match op with
  | ICmpEQ | ICmpULT | ICmpOther | FCmp => true
  | _ => false
  end.

(** The results for one case: the PHI node and the constant it receives. *)
Definition SwitchCaseResultsTy := list (ValueId * Constant).
(** The cases grouped by result. *)
Definition SwitchCaseResultVectorTy := list (Constant * list APInt).

Inductive Scan :=
| ScanFail
| ScanBreak (pool : ConstantPool)
| ScanEnd (pool : ConstantPool).

Section WithOracles.

(** The constant folder and the target's opinion on table constants. *)
Variable ConstantFoldCompareInstOperands :
  Opcode -> Constant -> Constant -> option Constant.
Variable ConstantFoldInstOperands :
  Instruction -> list Constant -> option Constant.
Variable ValidLookupTableConstant : Constant -> bool.

Definition ConstantFold (Inst : Instruction) (pool : ConstantPool)
    : option Constant :=
  match opcode Inst with
  | Select =>
      match operands Inst with
      | [c; t; e] =>
          A ← LookupConstant c pool;
          if isAllOnesValue A then LookupConstant t pool
          else if isNullValue A then LookupConstant e pool
          else None
      | _ => None
      end
  | op =>
      COps ← mapM (fun o => LookupConstant o pool) (operands Inst);
      if isCmp op then
        match COps with
        | [a; b] => ConstantFoldCompareInstOperands op a b
        | _ => None
        end
      else ConstantFoldInstOperands Inst COps
  end.

(** The walk over the non-terminator instructions of the case block. *)
Fixpoint scanCaseDest (f : Function) (CaseDest : BlockId)
    (body : list Instruction) (pool : ConstantPool) : Scan :=
  match body with
  | [] => ScanEnd pool
  | Inst :: body' =>
      match ConstantFold Inst pool with
      | Some C =>
          if forallb (fun u : BlockId * option BlockId =>
                        bool_decide (u.1 = CaseDest) ||
                        bool_decide (u.2 = Some CaseDest))
                     (usesOf f (VInst (inst_id Inst)))
          then scanCaseDest f CaseDest body'
                 (poolInsert (VInst (inst_id Inst)) C pool)
          else ScanFail
      | None => ScanBreak pool
      end
  end.

(** The PHI nodes of the block as instructions, then its instructions
    without the debug intrinsics. *)
Definition instructionsWithoutDebug (bb : BasicBlock) : list Instruction :=
  ((fun pn => mkInst (phi_id pn) OpPHI (fst <$> incoming pn)) <$> phis bb) ++
  filter (fun i => opcode i <> DbgInfoIntrinsic) (insts bb).

(** The loop over the PHI nodes of the common destination. *)
Fixpoint collectResults (Pred : BlockId) (pool : ConstantPool)
    (pns : list PHINode) (Res : SwitchCaseResultsTy)
    : bool * SwitchCaseResultsTy :=
  match pns with
  | [] => (bool_decide (0 < length Res)%nat, Res)
  | pn :: pns' =>
      match getIncomingValueForBlock pn Pred with
      | None => collectResults Pred pool pns' Res
      | Some V =>
          match LookupConstant V pool with
          | None => (false, Res)
          | Some ConstVal =>
              if ValidLookupTableConstant ConstVal
              then collectResults Pred pool pns' (Res ++ [(phi_id pn, ConstVal)])
              else (false, Res)
          end
      end
  end.

(** [GetCaseResults]: the verdict, the updated [*CommonDest] and [Res]. *)
Definition GetCaseResults (f : Function) (SIParent : BlockId) (Cond : Value)
    (CaseVal : option APInt) (CaseDest : BlockId)
    (CommonDest : option BlockId)
    : bool * option BlockId * SwitchCaseResultsTy :=
  let finish (Pred CaseDest : BlockId) (pool : ConstantPool) :=
    let CommonDest' :=
      match CommonDest with
      | None => CaseDest
      | Some d => d
      end in
    if decide (CaseDest <> CommonDest') then (false, Some CommonDest', [])
    else
      match getBlock f CommonDest' with
      | Some cbb =>
          let '(ok, Res) := collectResults Pred pool (phis cbb) [] in
          (ok, Some CommonDest', Res)
      | None => (false, Some CommonDest', [])
      end in
  match getBlock f CaseDest with
  | None => (false, CommonDest, [])
  | Some bb =>
      let pool0 :=
        match CaseVal with
        | Some cv => [(Cond, ConstantInt cv)]
        | None => []
        end in
      match scanCaseDest f CaseDest (instructionsWithoutDebug bb) pool0 with
      | ScanFail => (false, CommonDest, [])
      | ScanBreak pool => finish SIParent CaseDest pool
      | ScanEnd pool =>
          match successors (term bb) with
          | [s] =>
              if isExceptionalTerminator (term bb)
              then (false, CommonDest, [])
              else finish CaseDest s pool
          | _ => (false, CommonDest, [])
          end
      end
  end.

(** [MapCaseToResult]: the updated vector and the number of cases that
    now produce [Result]. *)
Fixpoint MapCaseToResult (CaseVal : APInt)
    (UniqueResults : SwitchCaseResultVectorTy) (Result : Constant)
    : SwitchCaseResultVectorTy * nat :=
  match UniqueResults with
  | [] => ([(Result, [CaseVal])], 1%nat)
  | (R, Cases) :: rest =>
      if decide (R = Result)
      then ((R, Cases ++ [CaseVal]) :: rest, length (Cases ++ [CaseVal]))
      else let '(rest', n) := MapCaseToResult CaseVal rest Result in
           ((R, Cases) :: rest', n)
  end.

Record UniqueCases := {
  uc_PHI : option ValueId;
  uc_CommonDest : option BlockId;
  uc_UniqueResults : SwitchCaseResultVectorTy;
  uc_DefaultResult : option Constant
}.

(** The loop of [InitializeUniqueCases] over the cases of the switch. *)
Fixpoint initCases (f : Function) (SIParent : BlockId) (Cond : Value)
    (MaxUniqueResults MaxCasesPerResult : nat)
    (cases : list (APInt * BlockId))
    (PHI : option ValueId) (CommonDest : option BlockId)
    (UniqueResults : SwitchCaseResultVectorTy)
    : option (option ValueId * option BlockId * SwitchCaseResultVectorTy) :=
  match cases with
  | [] => Some (PHI, CommonDest, UniqueResults)
  | (CaseVal, CaseSucc) :: cases' =>
      let '(ok, CommonDest', Results) :=
        GetCaseResults f SIParent Cond (Some CaseVal) CaseSucc CommonDest in
      if negb ok then None
      else
        match Results with
        | [(ResPHI, ResC)] =>
            let '(UniqueResults', NumCasesForResult) :=
              MapCaseToResult CaseVal UniqueResults ResC in
            if decide (MaxCasesPerResult < NumCasesForResult)%nat then None
            else if decide (MaxUniqueResults < length UniqueResults')%nat
            then None
            else
              match PHI with
              | None =>
                  initCases f SIParent Cond MaxUniqueResults
                    MaxCasesPerResult cases' (Some ResPHI) CommonDest'
                    UniqueResults'
              | Some p =>
                  if decide (p = ResPHI)
                  then initCases f SIParent Cond MaxUniqueResults
                         MaxCasesPerResult cases' PHI CommonDest'
                         UniqueResults'
                  else None
              end
        | _ => None
        end
  end.

(** [isa<UnreachableInst>(BB->getFirstNonPHIOrDbg())]. *)
Definition startsWithUnreachable (bb : BasicBlock) : bool :=
  match filter (fun i => opcode i <> DbgInfoIntrinsic) (insts bb) with
  | [] => bool_decide (term bb = Unreachable)
  | _ => false
  end.

Definition InitializeUniqueCases (f : Function) (SIParent : BlockId)
    (Cond : Value) (DefaultDest : BlockId) (cases : list (APInt * BlockId))
    (MaxUniqueResults MaxCasesPerResult : nat) : option UniqueCases :=
  '(PHI, CommonDest, UniqueResults) ←
    initCases f SIParent Cond MaxUniqueResults MaxCasesPerResult cases
      None None [];
  let '(_, CommonDest', DefaultResults) :=
    GetCaseResults f SIParent Cond None DefaultDest CommonDest in
  let DefaultResult :=
    match DefaultResults with
    | [(_, C)] => Some C
    | _ => None
    end in
  dbb ← getBlock f DefaultDest;
  if negb (bool_decide (is_Some DefaultResult)) && negb (startsWithUnreachable dbb)
  then None
  else Some {| uc_PHI := PHI; uc_CommonDest := CommonDest';
               uc_UniqueResults := UniqueResults;
               uc_DefaultResult := DefaultResult |}.

(** [ConvertTwoCaseSwitch], with the builder positioned in block [BB]. *)
Definition ConvertTwoCaseSwitch (BB : BlockId)
    (ResultVector : SwitchCaseResultVectorTy)
    (DefaultResult : option Constant) (Condition : Value) (f : Function)
    : option Value * Function :=
  match ResultVector with
  | [(Result0, [FirstCase]); (Result1, [SecondCase])] =>
      let '(SelectValue, f1) :=
        match DefaultResult with
        | Some Default =>
            let '(ValueCompare, f') :=
              emit BB ICmpEQ [Condition; VConst (ConstantInt SecondCase)] f in
            emit BB Select [ValueCompare; VConst Result1; VConst Default] f'
        | None => (VConst Result1, f)
        end in
      let '(ValueCompare, f2) :=
        emit BB ICmpEQ [Condition; VConst (ConstantInt FirstCase)] f1 in
      let '(Sel, f3) :=
        emit BB Select [ValueCompare; VConst Result0; SelectValue] f2 in
      (Some Sel, f3)
  | [(Result0, [Case1; Case2])] =>
      match DefaultResult with
      | Some Default =>
          let '(Cmp1, f1) :=
            emit BB ICmpEQ [Condition; VConst (ConstantInt Case1)] f in
          let '(Cmp2, f2) :=
            emit BB ICmpEQ [Condition; VConst (ConstantInt Case2)] f1 in
          let '(Cmp, f3) := emit BB Or [Cmp1; Cmp2] f2 in
          let '(Sel, f4) :=
            emit BB Select [Cmp; VConst Result0; VConst Default] f3 in
          (Some Sel, f4)
      | None => (None, f)
      end
  | _ => (None, f)
  end.

(** The loop of [RemoveSwitchAfterSelectConversion] over the successors
    of the switch. *)
Fixpoint removeSuccessors (DTU : bool) (SelectBB DestBB : BlockId)
    (succs : list BlockId) (RemovedSuccessors : list BlockId)
    (Updates : list DomUpdate) (f : Function)
    : Function * list DomUpdate :=
  match succs with
  | [] => (f, Updates)
  | Succ :: succs' =>
      if decide (Succ = DestBB)
      then removeSuccessors DTU SelectBB DestBB succs' RemovedSuccessors
             Updates f
      else
        let f' := removePredecessor Succ SelectBB f in
        if DTU && negb (bool_decide (Succ ∈ RemovedSuccessors))
        then removeSuccessors DTU SelectBB DestBB succs'
               (Succ :: RemovedSuccessors)
               (Updates ++ [DomDelete SelectBB Succ]) f'
        else removeSuccessors DTU SelectBB DestBB succs'
               RemovedSuccessors Updates f'
  end.

(** [RemoveSwitchAfterSelectConversion]. [DestBB] is the parent of the
    PHI node; [DTU] tells whether a dominator-tree updater is present.
    The function returns the recorded batch of updates. *)
Definition RemoveSwitchAfterSelectConversion (DTU : bool)
    (SelectBB : BlockId) (SIsuccs : list BlockId) (PHI : ValueId)
    (DestBB : BlockId) (SelectValue : Value) (f : Function)
    : Function * list DomUpdate :=
  let Updates :=
    if DTU && negb (bool_decide (SelectBB ∈ predecessors f DestBB))
    then [DomInsert SelectBB DestBB] else [] in
  let f1 :=
    updBlock DestBB
      (fun bb =>
         setPhis
           ((fun pn =>
               if decide (phi_id pn = PHI)
               then addIncoming SelectValue SelectBB
                      (mkPHI (phi_id pn)
                         (filter (fun e => e.2 <> SelectBB) (incoming pn)))
               else pn) <$> phis bb) bb) f in
  let '(f2, Updates') :=
    removeSuccessors DTU SelectBB DestBB SIsuccs [] Updates f1 in
  (updBlock SelectBB (setTerm (Br DestBB)) f2, Updates').

(** [switchToSelect] on the switch that terminates [BB]: the verdict,
    the function and the batch handed to the updater. *)
Definition switchToSelect (DTU : bool) (f : Function) (BB : BlockId)
    : option (bool * Function * list DomUpdate) :=
  bb ← getBlock f BB;
  match term bb with
  | Switch Cond DefaultDest cases =>
      match InitializeUniqueCases f BB Cond DefaultDest cases 2 2 with
      | None => Some (false, f, [])
      | Some uc =>
          PHI ← uc_PHI uc;
          DestBB ← uc_CommonDest uc;
          let '(SelectValue, f1) :=
            ConvertTwoCaseSwitch BB (uc_UniqueResults uc)
              (uc_DefaultResult uc) Cond f in
          match SelectValue with
          | Some SV =>
              let '(f2, Updates) :=
                RemoveSwitchAfterSelectConversion DTU BB
                  (successors (term bb)) PHI DestBB SV f1 in
              Some (true, f2, Updates)
          | None => Some (false, f1, [])
          end
      end
  | _ => None
  end.

End WithOracles.

End SwitchSelect.

(** ** Executing straight-line code *)

Module Eval.
Import AP Const IR.

Definition Regs := list (ValueId * Constant).

Definition evalValue (args : list Constant) (regs : Regs) (v : Value)
    : option Constant :=
  match v with
  | VConst c => Some c
  | VArg n => args !! n
  | VInst id => (fun e => e.2.2) <$> list_find (fun e => e.1 = id) regs
  end.

Definition i1 (b : bool) : Constant :=
  ConstantInt (mk 1 (if b then 1 else 0)).

(** The integer comparison, the bitwise or and the select. *)
Definition evalInst (args : list Constant) (regs : Regs) (i : Instruction)
    : option Constant :=
  match opcode i, operands i with
  | ICmpEQ, [a; b] =>
      match evalValue args regs a, evalValue args regs b with
      | Some (ConstantInt x), Some (ConstantInt y) =>
          Some (i1 (bool_decide (x = y)))
      | _, _ => None
      end
  | Or, [a; b] =>
      match evalValue args regs a, evalValue args regs b with
      | Some (ConstantInt x), Some (ConstantInt y) =>
          Some (ConstantInt
                  (mk (BitWidth x) (Z.lor (getZExtValue x) (getZExtValue y))))
      | _, _ => None
      end
  | Select, [c; t; e] =>
      match evalValue args regs c with
      | Some (ConstantInt x) =>
          if bool_decide (getZExtValue x = 0)
          then evalValue args regs e else evalValue args regs t
      | _ => None
      end
  | _, _ => None
  end.

Fixpoint evalInsts (args : list Constant) (regs : Regs)
    (il : list Instruction) : option Regs :=
  match il with
  | [] => Some regs
  | i :: il' =>
      c ← evalInst args regs i;
      evalInsts args ((inst_id i, c) :: regs) il'
  end.

(** The value a PHI node of [Dest] receives when control arrives from
    [From], after the body of [From] ran on the arguments [args]. *)
Definition phiValueFrom (f : Function) (From Dest : BlockId) (PHI : ValueId)
    (args : list Constant) : option Constant :=
  bb ← getBlock f From;
  regs ← evalInsts args [] (insts bb);
  dbb ← getBlock f Dest;
  pn ← (fun e => e.2) <$> list_find (fun pn => phi_id pn = PHI) (phis dbb);
  v ← getIncomingValueForBlock pn From;
  evalValue args regs v.

End Eval.

(** *** The switch-to-select scenario *)

Module SwitchSelectFacts.
Import AP Const IR SwitchSelect Eval.
Local Open Scope nat_scope.

Definition a : Constant := GlobalValue "a".
Definition b : Constant := GlobalValue "b".
Definition c : Constant := GlobalValue "c".

(** [switch i32 %x, label %3 [5, label %1  7, label %2]], where the blocks
    1, 2 and 3 branch to block 4, whose PHI node 100 receives "a", "b" and
    "c" from them. *)
Definition scenario : Function :=
  mkFn
    [ (0%nat, mkBB [] []
                (Switch (VArg 0) 3%nat
                   [(get 32 5, 1%nat); (get 32 7, 2%nat)]));
      (1%nat, mkBB [] [] (Br 4%nat));
      (2%nat, mkBB [] [] (Br 4%nat));
      (3%nat, mkBB [] [] (Br 4%nat));
      (4%nat, mkBB [mkPHI 100 [(VConst a, 1%nat); (VConst b, 2%nat);
                               (VConst c, 3%nat)]]
                [] (Ret (Some (VInst 100)))) ]
    101.

(** The two chained selects that replace the switch. *)
Definition selects : list Instruction :=
  [ mkInst 101 ICmpEQ [VArg 0; VConst (ConstantInt (get 32 7))];
    mkInst 102 Select [VInst 101; VConst b; VConst c];
    mkInst 103 ICmpEQ [VArg 0; VConst (ConstantInt (get 32 5))];
    mkInst 104 Select [VInst 103; VConst a; VInst 102] ].

Definition converted : Function :=
  mkFn
    [ (0%nat, mkBB [] selects (Br 4%nat));
      (1%nat, mkBB [] [] (Br 4%nat));
      (2%nat, mkBB [] [] (Br 4%nat));
      (3%nat, mkBB [] [] (Br 4%nat));
      (4%nat, mkBB [mkPHI 100 [(VConst a, 1%nat); (VConst b, 2%nat);
                               (VConst c, 3%nat); (VInst 104, 0%nat)]]
                [] (Ret (Some (VInst 100)))) ]
    105.

Lemma converted_value (x : APInt) :
  phiValueFrom converted 0 4 100 [ConstantInt x]
  = Some (if decide (x = get 32 5) then a
          else if decide (x = get 32 7) then b else c).
Proof.
  unfold phiValueFrom. simpl. unfold evalInst. simpl.
  destruct (decide (x = get 32 7)) as [->|H7].
  - by vm_compute.
  - rewrite (bool_decide_eq_false_2 _ H7). simpl.
    destruct (decide (x = get 32 5)) as [->|H5].
    + by vm_compute.
    + rewrite (bool_decide_eq_false_2 _ H5). by simpl.
Qed.

Lemma scenario_converted cmp fold valid (DTU : bool) :
  valid a = true -> valid b = true -> valid c = true ->
  switchToSelect cmp fold valid DTU scenario 0
  = Some (true, converted,
          if DTU then [DomInsert 0 4; DomDelete 0 3; DomDelete 0 1;
                       DomDelete 0 2]
          else []).
Proof.
  intros Ha Hb Hc. vm_compute in Ha, Hb, Hc.
  destruct DTU; vm_compute; rewrite Ha; vm_compute; rewrite Hb; vm_compute;
    rewrite Hc; by vm_compute.
Qed.

(** C6. The switch with the cases 5 -> "a", 7 -> "b" and the default "c",
    whose only effect is the choice of the value of one PHI node in the
    common successor, is replaced by two chained selects; run on the
    condition values 5, 7 and 9 the replacement yields "a", "b" and "c"
    (and on every value what the switch selected). *)
Theorem switch_to_select_scenario cmp fold valid (DTU : bool) :
  valid a = true -> valid b = true -> valid c = true ->
  exists f' Updates,
    switchToSelect cmp fold valid DTU scenario 0 = Some (true, f', Updates) /\
    getBlock f' 0 = Some (mkBB [] selects (Br 4)) /\
    opcode <$> selects = [ICmpEQ; Select; ICmpEQ; Select] /\
    phiValueFrom f' 0 4 100 [ConstantInt (get 32 5)] = Some a /\
    phiValueFrom f' 0 4 100 [ConstantInt (get 32 7)] = Some b /\
    phiValueFrom f' 0 4 100 [ConstantInt (get 32 9)] = Some c /\
    forall x,
      phiValueFrom f' 0 4 100 [ConstantInt x]
      = Some (if decide (x = get 32 5) then a
              else if decide (x = get 32 7) then b else c).
Proof.
  intros Ha Hb Hc. eexists _, _. split; [by apply scenario_converted|].
  split; [done|]. split; [done|].
  rewrite !converted_value. repeat split; try done.
  apply converted_value.
Qed.

Lemma switch_to_select_scenario_witness :
  exists f' Updates,
    switchToSelect (fun _ _ _ => None) (fun _ _ => None) (fun _ => true)
      true scenario 0 = Some (true, f', Updates) /\
    getBlock f' 0 = Some (mkBB [] selects (Br 4)) /\
    opcode <$> selects = [ICmpEQ; Select; ICmpEQ; Select] /\
    phiValueFrom f' 0 4 100 [ConstantInt (get 32 5)] = Some a /\
    phiValueFrom f' 0 4 100 [ConstantInt (get 32 7)] = Some b /\
    phiValueFrom f' 0 4 100 [ConstantInt (get 32 9)] = Some c /\
    forall x,
      phiValueFrom f' 0 4 100 [ConstantInt x]
      = Some (if decide (x = get 32 5) then a
              else if decide (x = get 32 7) then b else c).
Proof.
  apply (switch_to_select_scenario (fun _ _ _ => None) (fun _ _ => None)
           (fun _ => true) true); reflexivity.
Defined.

End SwitchSelectFacts.


(** ** Sinking common code from predecessors: the scan *)

Module Sink.
Import AP Const IR.
Local Open Scope nat_scope.

(** [DenseMap<Instruction *, SmallVector<Value *, 4>>]; [operator[]] on a
    missing key yields the empty vector. *)
Definition PHIOperandsTy := gmap ValueId (list Value).

Definition phiOperandsOf (PHIOperands : PHIOperandsTy) (Inst : Instruction)
    : list Value :=
  default [] (PHIOperands !! inst_id Inst).

Definition push_back (Inst : Instruction) (V : Value)
    (PHIOperands : PHIOperandsTy) : PHIOperandsTy :=
  <[inst_id Inst := phiOperandsOf PHIOperands Inst ++ [V]]> PHIOperands.

(** [SmallPtrSet<Value *, 4>] holding instructions. *)
Definition count (InstructionsToSink : gset ValueId) (V : Value) : nat :=
  match V with
  | VInst id => if decide (id ∈ InstructionsToSink) then 1 else 0
  | _ => 0
  end.

Definition insertAll (Insts : list Instruction) (s : gset ValueId)
    : gset ValueId :=
  s ∪ list_to_set (inst_id <$> Insts).

Definition eraseAll (Insts : list Instruction) (s : gset ValueId)
    : gset ValueId :=
  s ∖ list_to_set (inst_id <$> Insts).

(** *** [LockstepReverseIterator] *)

(** The instructions of a block before its terminator, last one first,
    without the debug intrinsics the iterator steps over. *)
Definition backwards (body : list Instruction) : list Instruction :=
  reverse (filter (fun i => opcode i <> DbgInfoIntrinsic) body).

(** The iterator after [k] decrements from [reset()]: the [k]-th instruction
    from the end of every block, or [None] once a block is too short
    ([Fail]). *)
Definition LRI (Blocks : list (list Instruction)) (k : nat)
    : option (list Instruction) :=
  mapM (fun body => backwards body !! k) Blocks.

Section Scan.

(** The checks of [canSinkInstructions] that come before its loop over the
    operands, the token-type test on an operand, and the test whether an
    operand may be replaced by a variable. *)
Variable sinkable : list Instruction -> bool.
Variable isTokenTy : Value -> bool.
Variable canReplaceOperand : Instruction -> nat -> bool.

(** The loop of [canSinkInstructions] over the operands of [I0]. *)
Fixpoint operandLoop (I0 : Instruction) (Insts : list Instruction)
    (OI : nat) (fuel : nat) (PHIOperands : PHIOperandsTy)
    : bool * PHIOperandsTy :=
  match fuel with
  | 0 => (true, PHIOperands)
  | S fuel' =>
      match operands I0 !! OI with
      | None => (true, PHIOperands)
      | Some Op =>
          if isTokenTy Op then (false, PHIOperands)
          else if forallb (fun i => bool_decide (operands i !! OI = Some Op)) Insts
          then operandLoop I0 Insts (S OI) fuel' PHIOperands
          else if negb (canReplaceOperand I0 OI) then (false, PHIOperands)
          else
            operandLoop I0 Insts (S OI) fuel'
              (foldl (fun m i =>
                        match operands i !! OI with
                        | Some V => push_back i V m
                        | None => m
                        end) PHIOperands Insts)
      end
  end.

Definition canSinkInstructions (Insts : list Instruction)
    (PHIOperands : PHIOperandsTy) : bool * PHIOperandsTy :=
  match Insts with
  | [] => (false, PHIOperands)
  | I0 :: _ =>
      if sinkable Insts
      then operandLoop I0 Insts 0 (length (operands I0)) PHIOperands
      else (false, PHIOperands)
  end.

Record Candidates := {
  cand_ScanIdx : nat;
  cand_InstructionsToSink : gset ValueId;
  cand_PHIOperands : PHIOperandsTy
}.

(** The first loop of [SinkCommonCodeFromPredecessors]: scan upwards in
    lockstep while the instructions can be sunk. *)
Fixpoint scanCandidates (Blocks : list (list Instruction)) (fuel : nat)
    (st : Candidates) : Candidates :=
  match fuel with
  | 0 => st
  | S fuel' =>
      match LRI Blocks (cand_ScanIdx st) with
      | None => st
      | Some Insts =>
          let '(ok, PHIOperands) :=
            canSinkInstructions Insts (cand_PHIOperands st) in
          if ok then
            scanCandidates Blocks fuel'
              {| cand_ScanIdx := S (cand_ScanIdx st);
                 cand_InstructionsToSink :=
                   insertAll Insts (cand_InstructionsToSink st);
                 cand_PHIOperands := PHIOperands |}
          else {| cand_ScanIdx := cand_ScanIdx st;
                  cand_InstructionsToSink := cand_InstructionsToSink st;
                  cand_PHIOperands := PHIOperands |}
      end
  end.

End Scan.

(** *** Profitability *)

Section Profitability.

Variable Blocks : list (list Instruction).
Variable PHIOperands : PHIOperandsTy.

(** The number of values of the row that need a PHI node and are not
    themselves going to be sunk. *)
Definition NumPHIdValues (Insts : list Instruction)
    (InstructionsToSink : gset ValueId) : nat :=
  sum_list
    ((fun i =>
        length (filter (fun V => count InstructionsToSink V = 0)
                  (phiOperandsOf PHIOperands i))) <$> Insts).

Definition NumPHIInsts (Insts : list Instruction)
    (InstructionsToSink : gset ValueId) : nat :=
  let n := NumPHIdValues Insts InstructionsToSink in
  n / length Blocks + (if decide (n mod length Blocks <> 0) then 1 else 0).

(** The lambda [ProfitableToSinkInstruction], at the position [k] of the
    iterator. *)
Definition ProfitableToSinkInstruction (k : nat)
    (InstructionsToSink : gset ValueId) : bool :=
  match LRI Blocks k with
  | Some Insts => bool_decide (NumPHIInsts Insts InstructionsToSink <= 1)
  | None => true
  end.

Definition rowAt (k : nat) : list Instruction := default [] (LRI Blocks k).

(** The forward scan: stop at the first row that is unprofitable, and
    collect the rows before it.  Returns [Idx] and
    [InstructionsProfitableToSink]. *)
Fixpoint forwardScan (InstructionsToSink : gset ValueId) (ScanIdx : nat)
    (fuel : nat) (Idx : nat) (InstructionsProfitableToSink : gset ValueId)
    : nat * gset ValueId :=
  match fuel with
  | 0 => (Idx, InstructionsProfitableToSink)
  | S fuel' =>
      if decide (Idx < ScanIdx) then
        if negb (ProfitableToSinkInstruction Idx InstructionsToSink)
        then (Idx, InstructionsProfitableToSink)
        else forwardScan InstructionsToSink ScanIdx fuel' (S Idx)
               (insertAll (rowAt Idx) InstructionsProfitableToSink)
      else (Idx, InstructionsProfitableToSink)
  end.

(** The backward scan, with [n] rows left to visit: the row [n - 1] is
    visited next, the row 0 last. *)
Fixpoint backwardScan (n : nat) (ScanIdx : nat)
    (InstructionsToSink InstructionsProfitableToSink : gset ValueId)
    : nat * gset ValueId :=
  match n with
  | 0 => (ScanIdx, InstructionsToSink)
  | S Idx =>
      let Profitable' := eraseAll (rowAt Idx) InstructionsProfitableToSink in
      if negb (ProfitableToSinkInstruction Idx InstructionsToSink)
      then backwardScan Idx Idx Profitable' Profitable'
      else backwardScan Idx ScanIdx InstructionsToSink Profitable'
  end.

(** The profitability phase of [SinkCommonCodeFromPredecessors], from the
    candidates to the rows that will be sunk: [None] is the early return
    (nothing is sunk), otherwise the final [ScanIdx] and
    [InstructionsToSink]. *)
Definition profitableToSink (ScanIdx : nat) (InstructionsToSink : gset ValueId)
    : option (nat * gset ValueId) :=
  if decide (ScanIdx = 0) then None
  else
    let '(Idx, InstructionsProfitableToSink) :=
      forwardScan InstructionsToSink ScanIdx ScanIdx 0 ∅ in
    if decide (Idx = 0) then None
    else
      let '(ScanIdx', InstructionsToSink') :=
        if decide (Idx < ScanIdx)
        then backwardScan Idx Idx InstructionsProfitableToSink
               InstructionsProfitableToSink
        else (ScanIdx, InstructionsToSink) in
      if decide (ScanIdx' = 0) then None
      else Some (ScanIdx', InstructionsToSink').

End Profitability.

(** The analysis of [SinkCommonCodeFromPredecessors], from the bodies of the
    unconditional predecessors to the number of rows that will be sunk and
    the set [InstructionsToSink]; [None] stands for the early returns. *)
Definition rowsToSink (sinkable : list Instruction -> bool)
    (isTokenTy : Value -> bool) (canReplaceOperand : Instruction -> nat -> bool)
    (UnconditionalPreds : list (list Instruction))
    : option (nat * gset ValueId) :=
  if decide (length UnconditionalPreds < 2) then None
  else
    let cand :=
      scanCandidates sinkable isTokenTy canReplaceOperand UnconditionalPreds
        (S (length (mjoin UnconditionalPreds)))
        {| cand_ScanIdx := 0; cand_InstructionsToSink := ∅;
           cand_PHIOperands := ∅ |} in
    profitableToSink UnconditionalPreds (cand_PHIOperands cand)
      (cand_ScanIdx cand) (cand_InstructionsToSink cand).

(** The PHI operands recorded by the candidate scan. *)
Definition recordedPHIOperands (sinkable : list Instruction -> bool)
    (isTokenTy : Value -> bool) (canReplaceOperand : Instruction -> nat -> bool)
    (UnconditionalPreds : list (list Instruction)) : PHIOperandsTy :=
  cand_PHIOperands
    (scanCandidates sinkable isTokenTy canReplaceOperand UnconditionalPreds
       (S (length (mjoin UnconditionalPreds)))
       {| cand_ScanIdx := 0; cand_InstructionsToSink := ∅;
          cand_PHIOperands := ∅ |}).

End Sink.

(** *** The profitability cap *)

Module SinkFacts.
Import AP Const IR Sink.
Local Open Scope nat_scope.

Section Cap.

Variable Blocks : list (list Instruction).
Variable PHIOperands : PHIOperandsTy.

Local Abbreviation Profitable :=
  (ProfitableToSinkInstruction Blocks PHIOperands).
Local Abbreviation PHIInsts := (NumPHIInsts Blocks PHIOperands).
Local Abbreviation row := (rowAt Blocks).

Lemma Profitable_spec k s :
  Profitable k s = true <-> PHIInsts (row k) s <= 1.
Proof.
  unfold ProfitableToSinkInstruction, rowAt.
  destruct (LRI Blocks k) as [Insts|]; simpl.
  - by rewrite bool_decide_eq_true.
  - split; [|done]. intros _. unfold NumPHIInsts, NumPHIdValues. simpl.
    rewrite Nat.Div0.div_0_l, Nat.Div0.mod_0_l. case_decide; [done|lia].
Qed.

Lemma forwardScan_spec s ScanIdx fuel : forall Idx P Idx' P',
  forwardScan Blocks PHIOperands s ScanIdx fuel Idx P = (Idx', P') ->
  Idx <= Idx' /\
  (Idx <= ScanIdx -> Idx' <= ScanIdx) /\
  (forall j, Idx <= j < Idx' -> Profitable j s = true) /\
  (ScanIdx <= Idx + fuel -> Idx' < ScanIdx -> Profitable Idx' s = false).
Proof.
  induction fuel as [|fuel IH]; intros Idx P Idx' P' H; simpl in H.
  - inversion H; subst. repeat split; intros; lia.
  - case_decide as Hlt.
    + destruct (Profitable Idx s) eqn:Hp; simpl in H.
      * apply IH in H as (H1 & H2 & H3 & H4).
        split; [lia|]. split; [lia|]. split.
        -- intros j Hj. destruct (decide (j = Idx)) as [->|]; [done|].
           apply H3. lia.
        -- intros. apply H4; lia.
      * inversion H; subst. split; [lia|]. split; [lia|].
        split; [intros; lia|done].
    + inversion H; subst. repeat split; intros; lia.
Qed.

Lemma backwardScan_spec n : forall ScanIdx s P ScanIdx' s',
  backwardScan Blocks PHIOperands n ScanIdx s P = (ScanIdx', s') ->
  n <= ScanIdx ->
  (forall j, n <= j < ScanIdx -> Profitable j s = true) ->
  ScanIdx' <= ScanIdx /\
  (forall j, j < ScanIdx' -> Profitable j s' = true).
Proof.
  induction n as [|Idx IH]; intros ScanIdx s P ScanIdx' s' H Hn Hinv;
    simpl in H.
  - inversion H; subst. split; [done|]. intros j Hj. apply Hinv. lia.
  - destruct (Profitable Idx s) eqn:Hp; simpl in H.
    + apply IH in H as [H1 H2]; [done|lia|].
      intros j Hj. destruct (decide (j = Idx)) as [->|]; [done|].
      apply Hinv. lia.
    + apply IH in H as [H1 H2]; [|lia|intros; lia]. split; [lia|done].
Qed.

(** Every row that is sunk is profitable with respect to the rows that are
    sunk, and the rows stop at the first candidate row that is unprofitable
    with respect to the candidates. *)
Lemma profitableToSink_spec ScanIdx s ScanIdx' s' :
  profitableToSink Blocks PHIOperands ScanIdx s = Some (ScanIdx', s') ->
  0 < ScanIdx' <= ScanIdx /\
  (forall j, j < ScanIdx' -> PHIInsts (row j) s' <= 1) /\
  (forall j, j < ScanIdx -> 1 < PHIInsts (row j) s -> ScanIdx' <= j).
Proof.
  unfold profitableToSink. case_decide as H0; [done|].
  destruct (forwardScan _ _ _ _ _ _ _) as [Idx P] eqn:Hf.
  apply forwardScan_spec in Hf as (_ & Hle & Hprof & Hstop).
  specialize (Hle ltac:(lia)).
  case_decide as HI0; [done|].
  assert (forall j, j < ScanIdx -> 1 < PHIInsts (row j) s -> Idx <= j) as Hfirst.
  { intros j Hj Hun. destruct (decide (Idx <= j)) as [|Hlt]; [done|].
    assert (Profitable j s = true) as Hp by (apply Hprof; lia).
    apply Profitable_spec in Hp. lia. }
  case_decide as Hlt.
  - destruct (backwardScan _ _ _ _ _ _) as [ScanIdx2 s2] eqn:Hb.
    apply backwardScan_spec in Hb as [Hle2 Hall]; [|done|intros; lia].
    case_decide; [done|]. intros [= <- <-]. split; [lia|]. split.
    + intros j Hj. by apply Profitable_spec, Hall.
    + intros j Hj Hun. specialize (Hfirst j Hj Hun). lia.
  - case_decide; [done|]. intros [= <- <-]. split; [lia|]. split.
    + intros j Hj. apply Profitable_spec, Hprof. lia.
    + intros j Hj Hun. specialize (Hfirst j Hj Hun). lia.
Qed.

(** The identities of the instructions in the rows before [n]. *)
Definition rowIds (k : nat) : gset ValueId :=
  list_to_set (inst_id <$> row k).

Fixpoint rowsBelow (n : nat) : gset ValueId :=
  match n with
  | 0 => ∅
  | S k => rowsBelow k ∪ rowIds k
  end.

Lemma elem_of_rowsBelow n id :
  id ∈ rowsBelow n <-> exists j, j < n /\ id ∈ rowIds j.
Proof.
  induction n as [|n IH]; simpl.
  - split; [set_solver|]. intros (j & Hj & _). lia.
  - rewrite elem_of_union, IH. split.
    + intros [(j & Hj & Hin)|Hin]; [exists j|exists n]; split; (done || lia).
    + intros (j & Hj & Hin). destruct (decide (j = n)) as [->|]; [by right|].
      left. exists j. split; [lia|done].
Qed.

Lemma forwardScan_set s ScanIdx fuel : forall Idx P Idx' P',
  forwardScan Blocks PHIOperands s ScanIdx fuel Idx P = (Idx', P') ->
  P = rowsBelow Idx -> P' = rowsBelow Idx'.
Proof.
  induction fuel as [|fuel IH]; intros Idx P Idx' P' H HP; simpl in H.
  - by inversion H; subst.
  - case_decide.
    + destruct (Profitable Idx s); simpl in H.
      * apply IH in H; [done|]. unfold insertAll. by rewrite HP.
      * by inversion H; subst.
    + by inversion H; subst.
Qed.

Hypothesis distinct : NoDup (inst_id <$> mjoin Blocks).

Lemma row_source k x :
  x ∈ row k ->
  exists i body, Blocks !! i = Some body /\ backwards body !! k = Some x.
Proof.
  unfold rowAt, LRI. destruct (mapM _ Blocks) as [Insts|] eqn:HM; simpl;
    [|by intros ?%elem_of_nil].
  apply mapM_Some in HM. intros [i Hi]%list_elem_of_lookup.
  destruct (Forall2_lookup_r _ _ _ _ _ HM Hi) as (body & Hb & Hx). eauto.
Qed.

Lemma backwards_elem body k x : backwards body !! k = Some x -> x ∈ body.
Proof.
  intros H. assert (x ∈ backwards body) as Hin
    by (apply list_elem_of_lookup; eauto).
  unfold backwards in Hin. rewrite elem_of_reverse in Hin.
  by apply list_elem_of_filter in Hin as [_ ?].
Qed.

Lemma backwards_NoDup body :
  NoDup (inst_id <$> body) -> NoDup (inst_id <$> backwards body).
Proof.
  intros H. unfold backwards. rewrite fmap_reverse, reverse_Permutation.
  eapply sublist_NoDup; [exact H|]. apply fmap_sublist, sublist_filter.
Qed.

Lemma join_distinct (L : list (list Instruction)) :
  NoDup (inst_id <$> mjoin L) ->
  (forall i body, L !! i = Some body -> NoDup (inst_id <$> body)) /\
  (forall i1 i2 b1 b2 x y,
      L !! i1 = Some b1 -> L !! i2 = Some b2 -> x ∈ b1 -> y ∈ b2 ->
      inst_id x = inst_id y -> i1 = i2).
Proof.
  induction L as [|b L IH]; simpl.
  - intros _. split; intros; by simplify_eq.
  - rewrite fmap_app, NoDup_app. intros (Hb & Hdisj & HL).
    destruct (IH HL) as [IH1 IH2]. split.
    + intros [|i] body Hi; simpl in Hi; [by simplify_eq|eauto].
    + assert (forall i b' x y, L !! i = Some b' -> x ∈ b -> y ∈ b' ->
                               inst_id x = inst_id y -> False) as Hcross.
      { intros i b' x y Hi Hx Hy Heq.
        apply (Hdisj (inst_id x)); [by apply list_elem_of_fmap_2|].
        rewrite Heq. apply list_elem_of_fmap_2, list_elem_of_join.
        exists b'. split; [done|]. apply list_elem_of_lookup; eauto. }
      intros [|i1] [|i2] b1 b2 x y H1 H2 Hx Hy Heq; simpl in *;
        simplify_eq; try done.
      * exfalso; eauto.
      * exfalso; eauto.
      * f_equal; eauto.
Qed.

Lemma rows_disjoint j k : j <> k -> rowIds j ## rowIds k.
Proof.
  intros Hjk. apply elem_of_disjoint. intros id Hj Hk.
  unfold rowIds in *. rewrite elem_of_list_to_set in Hj, Hk.
  apply list_elem_of_fmap in Hj as (x & -> & Hx).
  apply list_elem_of_fmap in Hk as (y & Heq & Hy).
  apply row_source in Hx as (i1 & b1 & Hb1 & Hx).
  apply row_source in Hy as (i2 & b2 & Hb2 & Hy).
  destruct (join_distinct _ distinct) as [Hnd Hinj].
  assert (i1 = i2) as <-
    by (eapply Hinj; eauto using backwards_elem).
  simplify_eq. apply Hjk.
  eapply (NoDup_lookup (inst_id <$> backwards b1));
    [by apply backwards_NoDup, (Hnd i1)| |];
    rewrite list_lookup_fmap; [by rewrite Hx|rewrite Hy; simpl; by f_equal].
Qed.

Lemma rowsBelow_erase k : rowsBelow (S k) ∖ rowIds k = rowsBelow k.
Proof.
  simpl. assert (rowsBelow k ## rowIds k) as Hd.
  { apply elem_of_disjoint. intros id (j & Hj & Hin)%elem_of_rowsBelow Hk.
    assert (j <> k) as Hne by lia.
    pose proof (rows_disjoint j k Hne) as Hd. set_solver. }
  set_solver.
Qed.

Lemma backwardScan_set n : forall ScanIdx s P ScanIdx' s',
  backwardScan Blocks PHIOperands n ScanIdx s P = (ScanIdx', s') ->
  P = rowsBelow n -> s = rowsBelow ScanIdx -> s' = rowsBelow ScanIdx'.
Proof.
  induction n as [|Idx IH]; intros ScanIdx s P ScanIdx' s' H HP Hs;
    simpl in H.
  - by inversion H; subst.
  - assert (eraseAll (row Idx) P = rowsBelow Idx) as HE
      by (unfold eraseAll; rewrite HP; apply rowsBelow_erase).
    rewrite HE in H.
    destruct (Profitable Idx s); simpl in H; by apply IH in H.
Qed.

Lemma profitableToSink_set ScanIdx s ScanIdx' s' :
  profitableToSink Blocks PHIOperands ScanIdx s = Some (ScanIdx', s') ->
  s = rowsBelow ScanIdx -> s' = rowsBelow ScanIdx'.
Proof.
  unfold profitableToSink. case_decide; [done|].
  destruct (forwardScan _ _ _ _ _ _ _) as [Idx P] eqn:Hf.
  apply forwardScan_set in Hf; [|done].
  case_decide; [done|]. case_decide.
  - destruct (backwardScan _ _ _ _ _ _) as [ScanIdx2 s2] eqn:Hb.
    apply backwardScan_set in Hb; [|done..].
    case_decide; [done|]. by intros [= <- <-].
  - case_decide; [done|]. by intros [= <- <-].
Qed.

End Cap.

Lemma scanCandidates_set sinkable isTokenTy canReplace Blocks fuel :
  forall st,
    cand_InstructionsToSink st = rowsBelow Blocks (cand_ScanIdx st) ->
    cand_InstructionsToSink
      (scanCandidates sinkable isTokenTy canReplace Blocks fuel st)
    = rowsBelow Blocks
        (cand_ScanIdx
           (scanCandidates sinkable isTokenTy canReplace Blocks fuel st)).
Proof.
  induction fuel as [|fuel IH]; intros st Hst; simpl; [done|].
  destruct (LRI Blocks (cand_ScanIdx st)) as [Insts|] eqn:HL; [|done].
  destruct (canSinkInstructions _ _ _ _ _) as [[] PHIOperands]; [|done].
  apply IH. simpl. rewrite Hst. unfold insertAll, rowIds, rowAt.
  by rewrite HL.
Qed.


(** Two predecessors ending in [mul (add x y) 3]: the multiplications can
    share one PHI node for the sums, the additions would need two. *)
Definition two_tails : list (list Instruction) :=
  [ [ mkInst 1 Add [VArg 0; VArg 1]; mkInst 2 Mul [VInst 1; VArg 9] ];
    [ mkInst 3 Add [VArg 2; VArg 3]; mkInst 4 Mul [VInst 3; VArg 9] ] ].


End SinkFacts.


(** *** Facts about edits of the block graph *)

Module IRFacts.
Import AP Const IR.
Local Open Scope nat_scope.

Lemma lookupBlock_fmap (g : BasicBlock -> BasicBlock) b bs b' :
  lookupBlock
    ((fun p : BlockId * BasicBlock =>
        if decide (p.1 = b) then (p.1, g p.2) else p) <$> bs) b'
  = if decide (b = b') then g <$> lookupBlock bs b' else lookupBlock bs b'.
Proof.
  induction bs as [|[a bb] bs IH]; [simpl; by case_decide|].
  rewrite fmap_cons. cbn [fst snd].
  destruct (decide (a = b)) as [->|Hab]; cbn [lookupBlock].
  - by destruct (decide (b = b')) as [->|Hbb'].
  - destruct (decide (a = b')) as [->|Hab'].
    + by rewrite decide_False by done.
    + exact IH.
Qed.

Lemma getBlock_updBlock g b f b' :
  getBlock (updBlock b g f) b'
  = if decide (b = b') then g <$> getBlock f b' else getBlock f b'.
Proof. apply lookupBlock_fmap. Qed.

Lemma getBlock_updBlock_eq g b f bb :
  getBlock f b = Some bb -> getBlock (updBlock b g f) b = Some (g bb).
Proof. intros H. by rewrite getBlock_updBlock, decide_True, H. Qed.

Lemma getBlock_updBlock_ne g b f b' :
  b <> b' -> getBlock (updBlock b g f) b' = getBlock f b'.
Proof. intros H. by rewrite getBlock_updBlock, decide_False. Qed.

Lemma getBlock_emit BB op ops f b' :
  getBlock (emit BB op ops f).2 b'
  = if decide (BB = b')
    then (fun bb => setInsts (insts bb ++ [mkInst (next_id f) op ops]) bb)
           <$> getBlock f b'
    else getBlock f b'.
Proof.
  unfold emit, getBlock. cbn [snd blocks updBlock].
  apply (lookupBlock_fmap
           (fun bb => setInsts (insts bb ++ [mkInst (next_id f) op ops]) bb)).
Qed.

Lemma emit_value BB op ops f : (emit BB op ops f).1 = VInst (next_id f).
Proof. done. Qed.

(** The PHI nodes and the body of a block, by name. *)
Definition phisOf (f : Function) (b : BlockId) : option (list PHINode) :=
  phis <$> getBlock f b.
Definition instsOf (f : Function) (b : BlockId) : option (list Instruction) :=
  insts <$> getBlock f b.
Definition termOf (f : Function) (b : BlockId) : option Terminator :=
  term <$> getBlock f b.

Lemma phisOf_updBlock_keep g b f b' :
  (forall bb, phis (g bb) = phis bb) ->
  phisOf (updBlock b g f) b' = phisOf f b'.
Proof.
  intros Hg. unfold phisOf. rewrite getBlock_updBlock. case_decide; [|done].
  destruct (getBlock f b'); simpl; [|done]. by rewrite Hg.
Qed.

Lemma phisOf_emit BB op ops f b' :
  phisOf (emit BB op ops f).2 b' = phisOf f b'.
Proof.
  unfold phisOf. rewrite getBlock_emit. case_decide; [|done].
  by destruct (getBlock f b').
Qed.

Lemma termOf_updBlock_keep g b f b' :
  (forall bb, term (g bb) = term bb) ->
  termOf (updBlock b g f) b' = termOf f b'.
Proof.
  intros Hg. unfold termOf. rewrite getBlock_updBlock. case_decide; [|done].
  destruct (getBlock f b'); simpl; [|done]. by rewrite Hg.
Qed.

Lemma termOf_emit BB op ops f b' :
  termOf (emit BB op ops f).2 b' = termOf f b'.
Proof.
  unfold termOf. rewrite getBlock_emit. case_decide; [|done].
  by destruct (getBlock f b').
Qed.

Lemma instsOf_updBlock_ne g b f b' :
  b <> b' -> instsOf (updBlock b g f) b' = instsOf f b'.
Proof. intros. unfold instsOf. by rewrite getBlock_updBlock_ne. Qed.

Lemma instsOf_updBlock_keep g b f b' :
  (forall bb, insts (g bb) = insts bb) ->
  instsOf (updBlock b g f) b' = instsOf f b'.
Proof.
  intros Hg. unfold instsOf. rewrite getBlock_updBlock. case_decide; [|done].
  destruct (getBlock f b'); simpl; [|done]. by rewrite Hg.
Qed.

(** The instruction is in the body of block [b]. *)
Definition InBody (f : Function) (b : BlockId) (i : Instruction) : Prop :=
  exists il, instsOf f b = Some il /\ i ∈ il.

Lemma InBody_emit_old BB op ops f b i :
  InBody f b i -> InBody (emit BB op ops f).2 b i.
Proof.
  intros (il & Hil & Hin). unfold InBody, instsOf in *.
  rewrite getBlock_emit. destruct (getBlock f b) as [bb|]; [|done].
  simpl in Hil. inversion Hil; subst. case_decide; simpl.
  - eexists. split; [done|]. apply elem_of_app. by left.
  - eexists. by split.
Qed.

Lemma InBody_emit_new BB op ops f bb :
  getBlock f BB = Some bb ->
  InBody (emit BB op ops f).2 BB (mkInst (next_id f) op ops).
Proof.
  intros Hbb. unfold InBody, instsOf. rewrite getBlock_emit, decide_True by done.
  rewrite Hbb. simpl. eexists. split; [done|].
  apply elem_of_app. right. by apply list_elem_of_singleton.
Qed.

(** Reading a PHI node after one of its values was replaced. *)
Lemma list_find_alter_value (b : BlockId) (V : Value) k
    (l : list (Value * BlockId)) i x :
  list_find (fun e : Value * BlockId => e.2 = b) l = Some (i, x) ->
  list_find (fun e : Value * BlockId => e.2 = b)
    (alter (fun e => (V, e.2)) k l)
  = Some (i, if decide (k = i) then (V, x.2) else x).
Proof.
  intros (Hl & HP & Hlt)%list_find_Some. apply list_find_Some. split_and!.
  - rewrite list_lookup_alter. case_decide; subst; by rewrite Hl.
  - by case_decide.
  - intros j y Hj Hji. rewrite list_lookup_alter in Hj. case_decide; subst.
    + destruct (l !! j) as [z|] eqn:Hz; simplify_eq/=. by apply (Hlt j z).
    + by apply (Hlt j y).
Qed.

Lemma list_find_alter_None (b : BlockId) (V : Value) k
    (l : list (Value * BlockId)) :
  list_find (fun e : Value * BlockId => e.2 = b) l = None ->
  list_find (fun e : Value * BlockId => e.2 = b)
    (alter (fun e => (V, e.2)) k l) = None.
Proof.
  rewrite !list_find_None, !Forall_forall. intros H e Hin.
  apply list_elem_of_lookup in Hin as [j Hj].
  rewrite list_lookup_alter in Hj. case_decide; subst.
  - destruct (l !! j) as [z|] eqn:Hz; simplify_eq/=.
    apply H, list_elem_of_lookup; eauto.
  - apply H, list_elem_of_lookup; eauto.
Qed.

Lemma getBasicBlockIndex_set k V PN b :
  getBasicBlockIndex (setIncomingValue k V PN) b = getBasicBlockIndex PN b.
Proof.
  unfold getBasicBlockIndex, setIncomingValue. simpl.
  destruct (list_find _ (incoming PN)) as [[i x]|] eqn:E.
  - by rewrite (list_find_alter_value _ _ _ _ _ _ E).
  - by rewrite (list_find_alter_None _ _ _ _ E).
Qed.

Lemma getIncomingValueForBlock_set k V PN b :
  getIncomingValueForBlock (setIncomingValue k V PN) b
  = if decide (getBasicBlockIndex PN b = Some k) then Some V
    else getIncomingValueForBlock PN b.
Proof.
  unfold getIncomingValueForBlock, getBasicBlockIndex, setIncomingValue.
  simpl. destruct (list_find _ (incoming PN)) as [[i x]|] eqn:E.
  - rewrite (list_find_alter_value _ _ _ _ _ _ E). simpl.
    destruct (decide (k = i)) as [->|Hne].
    + by rewrite decide_True.
    + rewrite decide_False; [done|]. intros [=]. by subst.
  - by rewrite (list_find_alter_None _ _ _ _ E).
Qed.

Lemma getIncomingValueForBlock_index PN b i v :
  getBasicBlockIndex PN b = Some i ->
  fst <$> incoming PN !! i = Some v ->
  getIncomingValueForBlock PN b = Some v.
Proof.
  unfold getBasicBlockIndex, getIncomingValueForBlock.
  destruct (list_find _ _) as [[j x]|] eqn:E; simpl; [|done].
  intros [= ->] Hv. apply list_find_Some in E as (Hl & _ & _).
  rewrite Hl in Hv. simpl in Hv. by inversion Hv.
Qed.

Lemma getBasicBlockIndex_inj PN b b' i :
  getBasicBlockIndex PN b = Some i -> getBasicBlockIndex PN b' = Some i ->
  b = b'.
Proof.
  unfold getBasicBlockIndex.
  destruct (list_find _ _) as [[j x]|] eqn:E; simpl; [|done].
  destruct (list_find (fun e => e.2 = b') _) as [[j' x']|] eqn:E'; simpl;
    [|done].
  intros [= ->] [= ->].
  apply list_find_Some in E as (Hl & HP & _).
  apply list_find_Some in E' as (Hl' & HP' & _). congruence.
Qed.

End IRFacts.

(** ** Speculating a conditional block *)

Module Speculate.
Import AP Const IR.
Local Open Scope nat_scope.

(** What the pass asks of the target and of the analyses, and the two
    command-line options the rule reads. *)
Record TargetInfo := {
  isSafeToSpeculativelyExecute : Instruction -> bool;
  mayHaveSideEffects : Instruction -> bool;
  getUserCost : Instruction -> nat;
  isSafeToSpeculativelyExecuteExpr : Constant -> bool;
  getUserCostExpr : Constant -> nat;
  getCmpSelInstrCost : PHINode -> nat;
  passingValueIsAlwaysUndefined : Value -> PHINode -> bool;
  HoistCondStores : bool;
  PHINodeFoldingThreshold : nat
}.

Definition TCC_Basic : nat := 1.

Section WithTarget.

Variable TTI : TargetInfo.

Definition computeSpeculationCost (Inst : Instruction) : nat :=
  getUserCost TTI Inst.

Definition isFCmpInst (f : Function) (V : Value) : bool :=
  match definingInst f V with
  | Some (_, i) => bool_decide (opcode i = FCmp)
  | None => false
  end.

(** What the backwards walk of [isSafeToSpeculateStore] sees of [BrBB]: its
    instructions without debug intrinsics and pseudo probes, or its
    terminator, which has no side effects and is no store. *)
Inductive Looked :=
| LookInst (i : Instruction)
| LookTerm.

Fixpoint findPreviousStore (StorePtr : Value) (MaxNumInstToLookAt : nat)
    (rev_insts : list Looked) : option Value :=
  match rev_insts with
  | [] => None
  | CurI :: rest =>
      match MaxNumInstToLookAt with
      | 0 => None
      | S Max' =>
          match CurI with
          | LookTerm => findPreviousStore StorePtr Max' rest
          | LookInst i =>
              match opcode i with
              | Store _ =>
                  match operands i with
                  | [v; ptr] => if decide (ptr = StorePtr) then Some v else None
                  | _ => None
                  end
              | _ =>
                  if mayHaveSideEffects TTI i then None
                  else findPreviousStore StorePtr Max' rest
              end
          end
      end
  end.

(** [isSafeToSpeculateStore]: the value of the previous store to the same
    pointer in [BrBB], if the store [Inst] can be hoisted. *)
Definition isSafeToSpeculateStore (Inst : Instruction) (BrBB : BasicBlock)
    : option Value :=
  match opcode Inst, operands Inst with
  | Store true, [_; StorePtr] =>
      findPreviousStore StorePtr 9
        (LookTerm ::
         reverse (LookInst <$>
                    filter (fun i => opcode i <> DbgInfoIntrinsic /\
                                     opcode i <> PseudoProbeInst)
                           (body BrBB)))
  | _, _ => None
  end.

Record LoopState := {
  SpeculatedInstructions : nat;
  SpeculatedStoreValue : option Value;
  SpeculatedStore : option Instruction;
  SinkCandidateUseCounts : list (ValueId * nat);
  SpeculatedDbgIntrinsics : list ValueId
}.

Fixpoint bump (id : ValueId) (counts : list (ValueId * nat))
    : list (ValueId * nat) :=
  match counts with
  | [] => [(id, 1)]
  | (id', n) :: rest =>
      if decide (id' = id) then (id', S n) :: rest else (id', n) :: bump id rest
  end.

(** The loop over the operands of the speculated instruction. *)
Definition countSinkCandidates (f : Function) (BB : BlockId)
    (ops : list Value) (counts : list (ValueId * nat)) : list (ValueId * nat) :=
  foldl (fun counts Op =>
           match Op, definingInst f Op with
           | VInst id, Some (parent, OpI) =>
               if bool_decide (parent <> BB) || mayHaveSideEffects TTI OpI
               then counts else bump id counts
           | _, _ => counts
           end) counts ops.

(** The loop over the instructions of [ThenBB]; [None] is [return false]. *)
Fixpoint scanThen (f : Function) (BB : BlockId) (BrBB : BasicBlock)
    (insts : list Instruction) (st : LoopState) : option LoopState :=
  match insts with
  | [] => Some st
  | Inst :: rest =>
      if decide (opcode Inst = DbgInfoIntrinsic) then
        scanThen f BB BrBB rest
          {| SpeculatedInstructions := SpeculatedInstructions st;
             SpeculatedStoreValue := SpeculatedStoreValue st;
             SpeculatedStore := SpeculatedStore st;
             SinkCandidateUseCounts := SinkCandidateUseCounts st;
             SpeculatedDbgIntrinsics :=
               SpeculatedDbgIntrinsics st ++ [inst_id Inst] |}
      else if decide (opcode Inst = PseudoProbeInst) then
        scanThen f BB BrBB rest st
      else
        let n := S (SpeculatedInstructions st) in
        if decide (1 < n) then None
        else
          let checked :=
            if isSafeToSpeculativelyExecute TTI Inst
            then Some (SpeculatedStoreValue st)
            else if HoistCondStores TTI then
                   match isSafeToSpeculateStore Inst BrBB with
                   | Some v => Some (Some v)
                   | None => None
                   end
                 else None in
          match checked with
          | None => None
          | Some StoreValue =>
              if bool_decide (StoreValue = None) &&
                 bool_decide (PHINodeFoldingThreshold TTI * TCC_Basic
                              < computeSpeculationCost Inst)
              then None
              else
                scanThen f BB BrBB rest
                  {| SpeculatedInstructions := n;
                     SpeculatedStoreValue := StoreValue;
                     SpeculatedStore :=
                       match StoreValue with
                       | Some _ => Some Inst
                       | None => SpeculatedStore st
                       end;
                     SinkCandidateUseCounts :=
                       countSinkCandidates f BB (operands Inst)
                         (SinkCandidateUseCounts st);
                     SpeculatedDbgIntrinsics := SpeculatedDbgIntrinsics st |}
          end
  end.

(** The loop over [SinkCandidateUseCounts]; [None] is [return false]. *)
Fixpoint countUsedOnlyHere (f : Function) (counts : list (ValueId * nat))
    (Speculated : nat) : option nat :=
  match counts with
  | [] => Some Speculated
  | (id, n) :: rest =>
      if decide (length (usesOf f (VInst id)) = n) then
        if decide (1 < S Speculated) then None
        else countUsedOnlyHere f rest (S Speculated)
      else countUsedOnlyHere f rest Speculated
  end.

Definition isConstantExpr (V : Value) : option Constant :=
  match V with
  | VConst (ConstantExpr ty tag) => Some (ConstantExpr ty tag)
  | _ => None
  end.

(** [validateAndCostRequiredSelects]: the verdict, with the updated
    [SpeculatedInstructions] and [Cost]; the outer [None] is a PHI node of
    [EndBB] without an entry for [BB] or [ThenBB]. *)
Fixpoint validateAndCostRequiredSelects (BB ThenBB : BlockId)
    (pns : list PHINode) (HaveRewritablePHIs : bool)
    (Speculated Cost : nat) : option (bool * nat * nat) :=
  match pns with
  | [] => Some (HaveRewritablePHIs, Speculated, Cost)
  | PN :: rest =>
      OrigV ← getIncomingValueForBlock PN BB;
      ThenV ← getIncomingValueForBlock PN ThenBB;
      if decide (ThenV = OrigV)
      then validateAndCostRequiredSelects BB ThenBB rest HaveRewritablePHIs
             Speculated Cost
      else
        let Cost' := Cost + getCmpSelInstrCost TTI PN in
        if passingValueIsAlwaysUndefined TTI OrigV PN ||
           passingValueIsAlwaysUndefined TTI ThenV PN
        then Some (false, Speculated, Cost')
        else
          match isConstantExpr OrigV, isConstantExpr ThenV with
          | None, None =>
              validateAndCostRequiredSelects BB ThenBB rest true Speculated
                Cost'
          | OrigCE, ThenCE =>
              let unsafe (CE : option Constant) :=
                match CE with
                | Some E => negb (isSafeToSpeculativelyExecuteExpr TTI E)
                | None => false
                end in
              let cost (CE : option Constant) :=
                match CE with
                | Some E => getUserCostExpr TTI E
                | None => 0
                end in
              if unsafe ThenCE || unsafe OrigCE
              then Some (false, Speculated, Cost')
              else if decide (2 * PHINodeFoldingThreshold TTI * TCC_Basic
                              < cost OrigCE + cost ThenCE)
              then Some (false, Speculated, Cost')
              else if decide (1 < S Speculated)
              then Some (false, S Speculated, Cost')
              else validateAndCostRequiredSelects BB ThenBB rest true
                     (S Speculated) Cost'
          end
  end.

(** The loop that inserts the selects and rewrites the PHI nodes of
    [EndBB]; the selects are built in front of the branch of [BB]. *)
Fixpoint rewritePHIs (BB ThenBB : BlockId) (BrCond : Value) (Invert : bool)
    (pns : list PHINode) (f : Function) : option (list PHINode * Function) :=
  match pns with
  | [] => Some ([], f)
  | PN :: rest =>
      OrigI ← getBasicBlockIndex PN BB;
      ThenI ← getBasicBlockIndex PN ThenBB;
      OrigV ← fst <$> incoming PN !! OrigI;
      ThenV ← fst <$> incoming PN !! ThenI;
      if decide (OrigV = ThenV) then
        '(rest', f') ← rewritePHIs BB ThenBB BrCond Invert rest f;
        Some (PN :: rest', f')
      else
        let '(TrueV, FalseV) :=
          if Invert then (OrigV, ThenV) else (ThenV, OrigV) in
        let '(V, f1) := emit BB Select [BrCond; TrueV; FalseV] f in
        '(rest', f') ← rewritePHIs BB ThenBB BrCond Invert rest f1;
        Some (setIncomingValue ThenI V (setIncomingValue OrigI V PN) :: rest',
              f')
  end.

Definition isProbe (i : Instruction) : Prop := opcode i = PseudoProbeInst.

#[global] Instance isProbe_dec i : Decision (isProbe i).
Proof. unfold isProbe. apply _. Defined.

(** Modelled from the spec: [moveAndDanglePseudoProbes] is not part of the
    sources at hand.  The pseudo probes of [From] move in front of the
    terminator of [BB]. *)
Definition moveAndDanglePseudoProbes (From BB : BlockId) (f : Function)
    : Function :=
  match getBlock f From with
  | Some fbb =>
      updBlock From (fun bb => setInsts (filter (fun i => ~ isProbe i) (insts bb)) bb)
        (updBlock BB (fun bb => setInsts (insts bb ++ filter isProbe (insts fbb)) bb)
           f)
  | None => f
  end.

(** The select of the value of the speculated store, built in front of the
    branch, becomes the value the store writes. *)
Definition speculateStoreValue (f : Function) (BB ThenBB : BlockId)
    (BrCond : Value) (Invert : bool) (st : LoopState) : Function :=
  match SpeculatedStoreValue st, SpeculatedStore st with
  | Some FalseV0, Some St =>
      let TrueV0 := default (VConst (UndefValue PointerType))
                      (operands St !! 0) in
      let TrueV := if Invert then FalseV0 else TrueV0 in
      let FalseV := if Invert then TrueV0 else FalseV0 in
      let built := emit BB Select [BrCond; TrueV; FalseV] f in
      updBlock ThenBB
        (fun bb =>
           setInsts
             ((fun i => if decide (inst_id i = inst_id St)
                        then mkInst (inst_id i) (opcode i)
                               (<[0 := built.1]> (operands i))
                        else i) <$> insts bb) bb) built.2
  | _, _ => f
  end.

(** The transformation of [SpeculativelyExecuteBB], once the checks have
    passed. *)
Definition hoistAndConvert (f : Function) (BB ThenBB EndBB : BlockId)
    (BrCond : Value) (Invert : bool) (st : LoopState)
    : option Function :=
  let f1 := speculateStoreValue f BB ThenBB BrCond Invert st in
  let f2 := moveAndDanglePseudoProbes ThenBB BB f1 in
  (* hoist the instructions *)
  thenbb ← getBlock f2 ThenBB;
  let f3 :=
    updBlock ThenBB (fun bb => setInsts [] (setPhis [] bb))
      (updBlock BB (fun bb => setInsts (insts bb ++ body thenbb) bb) f2) in
  (* insert selects and rewrite the PHI operands *)
  endbb ← getBlock f3 EndBB;
  '(pns, f4) ← rewritePHIs BB ThenBB BrCond Invert (phis endbb) f3;
  let f5 := updBlock EndBB (setPhis pns) f4 in
  (* remove the speculated debug intrinsics *)
  Some (updBlock BB
          (fun bb =>
             setInsts
               (filter (fun i => ~ (opcode i = DbgInfoIntrinsic /\
                                    inst_id i ∈ SpeculatedDbgIntrinsics st))
                  (insts bb)) bb) f5).

(** [SpeculativelyExecuteBB] for the conditional branch that ends [BB] and
    its successor [ThenBB].  [None] stands for a violated assertion or a
    dangling block. *)
Definition SpeculativelyExecuteBB (f : Function) (BB ThenBB : BlockId)
    : option (bool * Function) :=
  bb ← getBlock f BB;
  match term bb with
  | CondBr BrCond Succ0 Succ1 =>
      if isFCmpInst f BrCond then Some (false, f)
      else
        thenbb ← getBlock f ThenBB;
        EndBB ← successors (term thenbb) !! 0;
        let Invert := bool_decide (ThenBB <> Succ0) in
        if Invert && bool_decide (ThenBB <> Succ1) then None
        else if bool_decide (EndBB <> (if Invert then Succ0 else Succ1))
        then None
        else
          let Budget := PHINodeFoldingThreshold TTI * TCC_Basic in
          match scanThen f BB bb (body thenbb)
                  {| SpeculatedInstructions := 0;
                     SpeculatedStoreValue := None;
                     SpeculatedStore := None;
                     SinkCandidateUseCounts := [];
                     SpeculatedDbgIntrinsics := [] |} with
          | None => Some (false, f)
          | Some st =>
              match countUsedOnlyHere f (SinkCandidateUseCounts st)
                      (SpeculatedInstructions st) with
              | None => Some (false, f)
              | Some Speculated =>
                  endbb ← getBlock f EndBB;
                  '(Valid, _, Cost) ←
                    validateAndCostRequiredSelects BB ThenBB (phis endbb)
                      false Speculated 0;
                  let Convert :=
                    bool_decide (is_Some (SpeculatedStore st)) || Valid in
                  if negb Convert || bool_decide (Budget < Cost)
                  then Some (false, f)
                  else
                    f' ← hoistAndConvert f BB ThenBB EndBB BrCond Invert st;
                    Some (true, f')
              end
          end
  | _ => None
  end.

End WithTarget.

End Speculate.


(** *** Properties of the speculation *)

Module SpeculateFacts.
Import AP Const IR Speculate.
Local Open Scope nat_scope.

(** C10. A conditional branch on the result of an [fcmp] instruction is
    never if-converted: [SpeculativelyExecuteBB] returns [false] and leaves
    the function as it is, whatever [ThenBB] contains. *)
Theorem fcmp_condition_never_speculated
    TTI f BB ThenBB bb BrCond Succ0 Succ1 parent Cmp :
  getBlock f BB = Some bb ->
  term bb = CondBr BrCond Succ0 Succ1 ->
  definingInst f BrCond = Some (parent, Cmp) ->
  opcode Cmp = FCmp ->
  SpeculativelyExecuteBB TTI f BB ThenBB = Some (false, f).
Proof.
  intros Hbb Hterm Hdef Hop. unfold SpeculativelyExecuteBB.
  rewrite Hbb. simpl. rewrite Hterm. unfold isFCmpInst. rewrite Hdef.
  by rewrite bool_decide_eq_true_2.
Qed.

(** A target on which everything but a store is safe and cheap. *)
Definition permissive : TargetInfo := {|
  isSafeToSpeculativelyExecute :=
    fun i => negb (bool_decide (opcode i = Store true));
  mayHaveSideEffects := fun i => bool_decide (opcode i = Store true);
  getUserCost := fun _ => 1;
  isSafeToSpeculativelyExecuteExpr := fun _ => true;
  getUserCostExpr := fun _ => 1;
  getCmpSelInstrCost := fun _ => 1;
  passingValueIsAlwaysUndefined := fun _ _ => false;
  HoistCondStores := true;
  PHINodeFoldingThreshold := 2
|}.

(** [br (fcmp x, y), Then, End], where [Then] holds one cheap instruction
    whose value the PHI node of [End] selects. *)
Definition fcmp_diamond : Function :=
  mkFn
    [ (0, mkBB [] [mkInst 1 FCmp [VArg 0; VArg 1]] (CondBr (VInst 1) 1 2));
      (1, mkBB [] [mkInst 2 Add [VArg 0; VArg 1]] (Br 2));
      (2, mkBB [mkPHI 3 [(VInst 2, 1); (VArg 0, 0)]] []
            (Ret (Some (VInst 3)))) ]
    4.

Lemma fcmp_condition_never_speculated_witness :
  SpeculativelyExecuteBB permissive fcmp_diamond 0 1
  = Some (false, fcmp_diamond).
Proof.
  apply (fcmp_condition_never_speculated permissive fcmp_diamond 0 1
           (mkBB [] [mkInst 1 FCmp [VArg 0; VArg 1]] (CondBr (VInst 1) 1 2))
           (VInst 1) 1 2 0 (mkInst 1 FCmp [VArg 0; VArg 1]));
    reflexivity.
Defined.

(** The same graph with an integer comparison: the rule fires. *)
Definition icmp_diamond : Function :=
  mkFn
    [ (0, mkBB [] [mkInst 1 ICmpULT [VArg 0; VArg 1]] (CondBr (VInst 1) 1 2));
      (1, mkBB [] [mkInst 2 Add [VArg 0; VArg 1]] (Br 2));
      (2, mkBB [mkPHI 3 [(VInst 2, 1); (VArg 0, 0)]] []
            (Ret (Some (VInst 3)))) ]
    4.

Definition icmp_diamond_speculated : Function :=
  mkFn
    [ (0, mkBB []
            [ mkInst 1 ICmpULT [VArg 0; VArg 1];
              mkInst 2 Add [VArg 0; VArg 1];
              mkInst 4 Select [VInst 1; VInst 2; VArg 0] ]
            (CondBr (VInst 1) 1 2));
      (1, mkBB [] [] (Br 2));
      (2, mkBB [mkPHI 3 [(VInst 4, 1); (VInst 4, 0)]] []
            (Ret (Some (VInst 3)))) ]
    5.

Lemma icmp_diamond_fires :
  SpeculativelyExecuteBB permissive icmp_diamond 0 1
  = Some (true, icmp_diamond_speculated).
Proof. reflexivity. Qed.

(** [Then] holds one cheap instruction and one store to the address the
    branch block stored to. *)
Definition add_and_store : Function :=
  mkFn
    [ (0, mkBB []
            [ mkInst 5 (Store true) [VArg 3; VArg 2];
              mkInst 1 ICmpULT [VArg 0; VArg 1] ]
            (CondBr (VInst 1) 1 2));
      (1, mkBB []
            [ mkInst 7 Add [VArg 0; VArg 1];
              mkInst 2 (Store true) [VInst 7; VArg 2] ]
            (Br 2));
      (2, mkBB [] [] (Ret None)) ]
    8.

(** *** What a firing requires *)

(** The instructions that count: everything but debug intrinsics and pseudo
    probes. *)
Definition counted (i : Instruction) : Prop :=
  opcode i <> DbgInfoIntrinsic /\ opcode i <> PseudoProbeInst.

#[global] Instance counted_dec i : Decision (counted i).
Proof. unfold counted. apply _. Defined.

(** The instruction may be executed unconditionally: it is safe to
    speculate, or it is a store covered by the store-to-same-address case. *)
Definition speculatable (TTI : TargetInfo) (BrBB : BasicBlock)
    (i : Instruction) : Prop :=
  isSafeToSpeculativelyExecute TTI i = true \/
  (HoistCondStores TTI = true /\ is_Some (isSafeToSpeculateStore TTI i BrBB)).

Lemma scanThen_spec TTI f BB bb il : forall st st',
  scanThen TTI f BB bb il st = Some st' ->
  SpeculatedInstructions st'
  = SpeculatedInstructions st + length (filter counted il) /\
  SpeculatedInstructions st' <= Nat.max 1 (SpeculatedInstructions st) /\
  Forall (speculatable TTI bb) (filter counted il) /\
  SpeculatedDbgIntrinsics st'
  = SpeculatedDbgIntrinsics st ++
    (inst_id <$> filter (fun i => opcode i = DbgInfoIntrinsic) il).
Proof.
  induction il as [|i il IH]; intros st st' H; simpl in H.
  - inversion H; subst. simpl. rewrite app_nil_r. repeat split; [lia..|done].
  - case_decide as Hdbg.
    + apply IH in H as (H1 & H2 & H3 & H4). simpl in *.
      rewrite filter_cons_False by (intros [? ?]; done).
      rewrite (filter_cons_True (fun i => opcode i = DbgInfoIntrinsic))
        by done.
      rewrite H4, <- app_assoc. done.
    + case_decide as Hprobe.
      * apply IH in H as (H1 & H2 & H3 & H4).
        rewrite filter_cons_False by (intros [? ?]; done).
        by rewrite (filter_cons_False (fun i => opcode i = DbgInfoIntrinsic)).
      * case_decide as Hn; [done|].
        rewrite (filter_cons_True counted) by done.
        rewrite (filter_cons_False (fun i => opcode i = DbgInfoIntrinsic))
          by done.
        assert (speculatable TTI bb i /\
                exists st1, scanThen TTI f BB bb il st1 = Some st' /\
                  SpeculatedInstructions st1 = S (SpeculatedInstructions st) /\
                  SpeculatedDbgIntrinsics st1 = SpeculatedDbgIntrinsics st)
          as (Hspec & st1 & Hrec & Hn1 & Hd1).
        { unfold speculatable.
          destruct (isSafeToSpeculativelyExecute TTI i) eqn:Hsafe.
          - split; [by left|].
            destruct (_ && _); [done|]. eexists. split; [exact H|done].
          - destruct (HoistCondStores TTI) eqn:Hh; [|done].
            destruct (isSafeToSpeculateStore TTI i bb) eqn:Hst; [|done].
            split; [right; by eauto|]. simpl in H.
            eexists. split; [exact H|done]. }
        apply IH in Hrec as (H1 & H2 & H3 & H4).
        rewrite Hn1 in H1, H2. rewrite Hd1 in H4. simpl.
        split; [lia|]. split; [lia|]. split; [by constructor|done].
Qed.

(** *** What a firing does *)

(** The PHI node [PN'] is [PN] after the rewrite: unchanged when its values
    from [BB] and [ThenBB] agree, and otherwise receiving from both blocks
    the select of the two values on the branch condition, an instruction for
    which [Q] holds. *)
Definition Rewritten (Q : Instruction -> Prop) (BB ThenBB : BlockId)
    (BrCond : Value) (Invert : bool) (PN PN' : PHINode) : Prop :=
  exists OrigV ThenV,
    getIncomingValueForBlock PN BB = Some OrigV /\
    getIncomingValueForBlock PN ThenBB = Some ThenV /\
    if decide (OrigV = ThenV) then PN' = PN
    else exists sel,
      Q (mkInst sel Select
           [BrCond; if Invert then OrigV else ThenV;
            if Invert then ThenV else OrigV]) /\
      phi_id PN' = phi_id PN /\
      getIncomingValueForBlock PN' BB = Some (VInst sel) /\
      getIncomingValueForBlock PN' ThenBB = Some (VInst sel) /\
      forall b, b <> BB -> b <> ThenBB ->
        getIncomingValueForBlock PN' b = getIncomingValueForBlock PN b.

Lemma Rewritten_mono (Q Q' : Instruction -> Prop) BB ThenBB c inv PN PN' :
  (forall i, opcode i = Select -> Q i -> Q' i) ->
  Rewritten Q BB ThenBB c inv PN PN' -> Rewritten Q' BB ThenBB c inv PN PN'.
Proof.
  intros HQ (OrigV & ThenV & H1 & H2 & H3). exists OrigV, ThenV.
  split; [done|]. split; [done|]. case_decide; [done|].
  destruct H3 as (sel & ? & ?). exists sel. split; [by apply HQ|done].
Qed.

Import IRFacts.

#[local] Arguments emit : simpl never.

Lemma rewritePHIs_spec BB ThenBB c inv pns : forall f pns' f',
  is_Some (getBlock f BB) ->
  rewritePHIs BB ThenBB c inv pns f = Some (pns', f') ->
  (forall b, phisOf f' b = phisOf f b) /\
  (forall b, termOf f' b = termOf f b) /\
  (forall b, b <> BB -> getBlock f' b = getBlock f b) /\
  (forall b i, InBody f b i -> InBody f' b i) /\
  is_Some (getBlock f' BB) /\
  Forall2 (Rewritten (InBody f' BB) BB ThenBB c inv) pns pns'.
Proof.
  induction pns as [|PN pns IH]; intros f pns' f' Hbb H; simpl in H.
  - inversion H; subst. by repeat split.
  - destruct (getBasicBlockIndex PN BB) as [OrigI|] eqn:HOI; [|done].
    destruct (getBasicBlockIndex PN ThenBB) as [ThenI|] eqn:HTI; [|done].
    simpl in H.
    destruct (fst <$> incoming PN !! OrigI) as [OrigV|] eqn:HOV; [|done].
    destruct (fst <$> incoming PN !! ThenI) as [ThenV|] eqn:HTV; [|done].
    simpl in H.
    pose proof (getIncomingValueForBlock_index _ _ _ _ HOI HOV) as HO.
    pose proof (getIncomingValueForBlock_index _ _ _ _ HTI HTV) as HT.
    case_decide as Heq.
    + destruct (rewritePHIs _ _ _ _ pns f) as [[rest' f1]|] eqn:Hrec; [|done].
      simpl in H. inversion H; subst.
      destruct (IH _ _ _ Hbb Hrec) as (P1 & P2 & P3 & P4 & P5 & P6).
      repeat split; try done. constructor; [|done].
      exists ThenV, ThenV. split; [done|]. split; [done|].
      by rewrite decide_True.
    + set (TrueV := if inv then OrigV else ThenV) in *.
      set (FalseV := if inv then ThenV else OrigV) in *.
      assert ((if inv then (OrigV, ThenV) else (ThenV, OrigV))
              = (TrueV, FalseV)) as HTF by (by destruct inv).
      rewrite HTF in H. clear HTF. simpl in H.
      set (f1 := mkFn _ _) in H.
      assert (f1 = (emit BB Select [c; TrueV; FalseV] f).2) as Hf1 by done.
      clearbody f1.
      destruct (rewritePHIs _ _ _ _ pns f1) as [[rest' f2]|] eqn:Hrec;
        [|done].
      simpl in H. inversion H; subst pns' f'. clear H.
      destruct Hbb as [bb Hbb].
      assert (is_Some (getBlock f1 BB)) as Hbb1.
      { rewrite Hf1, getBlock_emit, decide_True, Hbb by done. by eexists. }
      destruct (IH _ _ _ Hbb1 Hrec) as (P1 & P2 & P3 & P4 & P5 & P6).
      split; [intros b; by rewrite P1, Hf1, phisOf_emit|].
      split; [intros b; by rewrite P2, Hf1, termOf_emit|].
      split.
      { intros b Hb. rewrite P3, Hf1, getBlock_emit by done.
        by rewrite decide_False. }
      split.
      { intros b i Hi. apply P4. rewrite Hf1. by apply InBody_emit_old. }
      split; [done|].
      constructor; [|done].
      exists OrigV, ThenV. split; [done|]. split; [done|].
      rewrite decide_False by done. exists (next_id f). split.
      { apply P4. rewrite Hf1. by eapply InBody_emit_new. }
      split; [done|].
      rewrite !getIncomingValueForBlock_set, !getBasicBlockIndex_set.
      split.
      { case_decide; [done|]. by rewrite decide_True. }
      split; [by rewrite decide_True|].
      intros b HbBB HbT.
      rewrite !getIncomingValueForBlock_set, !getBasicBlockIndex_set.
      rewrite !decide_False; [done|..].
      * intros Hb. apply HbBB. by eapply getBasicBlockIndex_inj.
      * intros Hb. apply HbT. by eapply getBasicBlockIndex_inj.
Qed.

Lemma InBody_updBlock_keep g b f b' i :
  (forall bb, insts (g bb) = insts bb) ->
  InBody f b' i -> InBody (updBlock b g f) b' i.
Proof.
  intros Hg (il & Hil & Hin). exists il. split; [|done].
  by rewrite instsOf_updBlock_keep.
Qed.

Lemma InBody_intro f b bb i :
  getBlock f b = Some bb -> i ∈ insts bb -> InBody f b i.
Proof. intros Hb Hi. exists (insts bb). unfold instsOf. by rewrite Hb. Qed.

Lemma speculateStoreValue_spec f BB ThenBB c inv st bb thenbb :
  BB <> ThenBB ->
  getBlock f BB = Some bb -> getBlock f ThenBB = Some thenbb ->
  exists pre il,
    getBlock (speculateStoreValue f BB ThenBB c inv st) BB
    = Some (mkBB (phis bb) (insts bb ++ pre) (term bb)) /\
    getBlock (speculateStoreValue f BB ThenBB c inv st) ThenBB
    = Some (mkBB (phis thenbb) il (term thenbb)) /\
    Forall2 (fun i i' => inst_id i' = inst_id i /\ opcode i' = opcode i)
      (insts thenbb) il /\
    forall b, b <> BB -> b <> ThenBB ->
      getBlock (speculateStoreValue f BB ThenBB c inv st) b = getBlock f b.
Proof.
  intros Hne Hbb Hthen. unfold speculateStoreValue.
  destruct (SpeculatedStoreValue st) as [FalseV0|];
    [destruct (SpeculatedStore st) as [St|]|].
  - cbv zeta. set (built := emit _ _ _ _). eexists [_], _. split_and!.
    + rewrite getBlock_updBlock, decide_False by done. subst built.
      rewrite getBlock_emit, decide_True, Hbb by done. done.
    + rewrite getBlock_updBlock, decide_True by done. subst built.
      rewrite getBlock_emit, decide_False, Hthen by done. done.
    + apply Forall2_fmap_r. apply Forall_Forall2_diag. apply Forall_forall.
      intros i _. simpl. by case_decide.
    + intros b Hb1 Hb2. rewrite getBlock_updBlock, decide_False by done.
      subst built. by rewrite getBlock_emit, decide_False.
  - exists [], (insts thenbb). rewrite Hbb, Hthen, app_nil_r.
    split; [by destruct bb|]. split; [by destruct thenbb|].
    split; [apply Forall_Forall2_diag; by apply Forall_forall|done].
  - exists [], (insts thenbb). rewrite Hbb, Hthen, app_nil_r.
    split; [by destruct bb|]. split; [by destruct thenbb|].
    split; [apply Forall_Forall2_diag; by apply Forall_forall|done].
Qed.

Lemma InBody_updBlock_filter (P : Instruction -> Prop)
    `{!forall i, Decision (P i)} b f b' i :
  P i -> InBody f b' i ->
  InBody (updBlock b (fun bb => setInsts (filter P (insts bb)) bb) f) b' i.
Proof.
  intros HP (il & Hil & Hin). unfold InBody, instsOf in *.
  rewrite getBlock_updBlock. destruct (getBlock f b') as [bb|]; [|done].
  simpl in Hil. inversion Hil; subst. case_decide; simpl.
  - eexists. split; [done|]. by apply list_elem_of_filter.
  - eexists. by split.
Qed.

(** The effect of the transformation: [ThenBB] is left empty, terminators
    and the other blocks are untouched, the instructions of [ThenBB] (its
    debug intrinsics apart) and those of [BB] are in [BB], and the PHI nodes
    of [EndBB] are rewritten. *)
Lemma hoistAndConvert_spec f BB ThenBB EndBB c inv st f' bb thenbb endbb :
  BB <> ThenBB -> EndBB <> ThenBB ->
  getBlock f BB = Some bb -> getBlock f ThenBB = Some thenbb ->
  getBlock f EndBB = Some endbb ->
  hoistAndConvert f BB ThenBB EndBB c inv st = Some f' ->
  getBlock f' ThenBB = Some (mkBB [] [] (term thenbb)) /\
  (forall b, termOf f' b = termOf f b) /\
  (forall b, b <> BB -> b <> ThenBB -> b <> EndBB ->
             getBlock f' b = getBlock f b) /\
  (forall i, i ∈ body thenbb -> opcode i <> DbgInfoIntrinsic ->
     exists i', InBody f' BB i' /\ inst_id i' = inst_id i /\
                opcode i' = opcode i) /\
  (forall i, i ∈ insts bb -> opcode i <> DbgInfoIntrinsic -> InBody f' BB i) /\
  exists pns',
    phisOf f' EndBB = Some pns' /\
    Forall2 (Rewritten (InBody f' BB) BB ThenBB c inv) (phis endbb) pns'.
Proof.
  intros Hne HneE Hbb Hthen Hend. unfold hoistAndConvert.
  destruct (speculateStoreValue_spec f BB ThenBB c inv st bb thenbb
              Hne Hbb Hthen) as (pre & il1 & HB1 & HT1 & HF1 & HO1).
  set (f1 := speculateStoreValue f BB ThenBB c inv st) in *. clearbody f1.
  cbv zeta. unfold moveAndDanglePseudoProbes. rewrite HT1.
  set (f2 := updBlock ThenBB _ (updBlock BB _ f1)).
  assert (getBlock f2 BB
          = Some (mkBB (phis bb) ((insts bb ++ pre) ++ filter isProbe il1)
                    (term bb))) as HB2.
  { subst f2. rewrite getBlock_updBlock, decide_False by done.
    by rewrite getBlock_updBlock, decide_True, HB1. }
  assert (getBlock f2 ThenBB
          = Some (mkBB (phis thenbb) (filter (fun i => ~ isProbe i) il1)
                    (term thenbb))) as HT2.
  { subst f2. rewrite getBlock_updBlock, decide_True by done.
    by rewrite getBlock_updBlock, decide_False, HT1. }
  assert (forall b, b <> BB -> b <> ThenBB -> getBlock f2 b = getBlock f b)
    as HO2.
  { intros b H1 H2. subst f2. rewrite !getBlock_updBlock.
    rewrite !decide_False by done. by apply HO1. }
  clearbody f2. rewrite HT2. cbn [mbind option_bind].
  set (thenbb2 := mkBB (phis thenbb) (filter (fun i => ~ isProbe i) il1)
                    (term thenbb)) in *.
  set (f3 := updBlock ThenBB _ (updBlock BB _ f2)).
  assert (getBlock f3 BB
          = Some (mkBB (phis bb)
                    (((insts bb ++ pre) ++ filter isProbe il1) ++ body thenbb2)
                    (term bb))) as HB3.
  { subst f3. rewrite getBlock_updBlock, decide_False by done.
    by rewrite getBlock_updBlock, decide_True, HB2. }
  assert (getBlock f3 ThenBB = Some (mkBB [] [] (term thenbb))) as HT3.
  { subst f3. rewrite getBlock_updBlock, decide_True by done.
    by rewrite getBlock_updBlock, decide_False, HT2. }
  assert (forall b, b <> BB -> b <> ThenBB -> getBlock f3 b = getBlock f b)
    as HO3.
  { intros b H1 H2. subst f3. rewrite !getBlock_updBlock.
    rewrite !decide_False by done. by apply HO2. }
  assert (forall b, termOf f3 b = termOf f b) as Hterm3.
  { intros b. unfold termOf. destruct (decide (b = BB)) as [->|HbB].
    - by rewrite HB3, Hbb.
    - destruct (decide (b = ThenBB)) as [->|HbT].
      + by rewrite HT3, Hthen.
      + by rewrite HO3. }
  assert (exists endbb3, getBlock f3 EndBB = Some endbb3 /\
                         phis endbb3 = phis endbb) as (endbb3 & HE3 & HP3).
  { destruct (decide (EndBB = BB)) as [->|HEB].
    - eexists. split; [exact HB3|]. simpl. congruence.
    - exists endbb. split; [|done]. by rewrite HO3. }
  clearbody f3. rewrite HE3. cbn [mbind option_bind]. rewrite HP3.
  destruct (rewritePHIs BB ThenBB c inv (phis endbb) f3) as [[pns' f4]|]
    eqn:Hrw; [|done].
  cbn [mbind option_bind]. intros [= <-].
  assert (is_Some (getBlock f3 BB)) as HsB by (by eexists).
  destruct (rewritePHIs_spec _ _ _ _ _ _ _ _ HsB Hrw)
    as (P1 & P2 & P3 & P4 & P5 & P6).
  set (erase := fun bb0 : BasicBlock => setInsts (filter _ (insts bb0)) bb0).
  assert (forall i, opcode i <> DbgInfoIntrinsic -> InBody f3 BB i ->
                    InBody (updBlock BB erase (updBlock EndBB (setPhis pns') f4))
                      BB i) as Hkeep.
  { intros i Hop Hi. apply InBody_updBlock_filter; [by intros [? _]|].
    apply InBody_updBlock_keep; [done|]. by apply P4. }
  split_and!.
  - rewrite !getBlock_updBlock, !decide_False by done.
    by rewrite P3, HT3.
  - intros b. rewrite !termOf_updBlock_keep by done.
    by rewrite P2, Hterm3.
  - intros b H1 H2 H3. rewrite !getBlock_updBlock, !decide_False by done.
    rewrite P3 by done. by apply HO3.
  - intros i Hi Hop.
    assert (exists i', i' ∈ filter isProbe il1 ++ body thenbb2 /\
                       inst_id i' = inst_id i /\ opcode i' = opcode i)
      as (i' & Hin' & Hid & Hop').
    { unfold body in Hi. apply elem_of_app in Hi as [Hi|Hi].
      - exists i. split; [|done]. apply elem_of_app. right.
        unfold body, thenbb2. simpl. apply elem_of_app. by left.
      - apply list_elem_of_lookup in Hi as [k Hk].
        destruct (Forall2_lookup_l _ _ _ _ _ HF1 Hk) as (i1 & Hk1 & Hid & Hop1).
        exists i1. split; [|done].
        assert (i1 ∈ il1) as Hin1 by (apply list_elem_of_lookup; eauto).
        apply elem_of_app. destruct (decide (isProbe i1)).
        + left. by apply list_elem_of_filter.
        + right. unfold body, thenbb2. simpl. apply elem_of_app. right.
          by apply list_elem_of_filter. }
    exists i'. split; [|done]. apply Hkeep; [congruence|].
    eapply InBody_intro; [exact HB3|]. simpl.
    rewrite <- app_assoc. apply elem_of_app. by right.
  - intros i Hi Hop. apply Hkeep; [done|].
    eapply InBody_intro; [exact HB3|]. simpl.
    rewrite <- !app_assoc. apply elem_of_app. by left.
  - exists pns'. split.
    + rewrite phisOf_updBlock_keep by done. unfold phisOf.
      rewrite getBlock_updBlock, decide_True by done.
      destruct (decide (EndBB = BB)) as [->|HEB].
      * destruct P5 as [x ->]. done.
      * rewrite P3, HE3 by done. done.
    + eapply Forall2_impl; [exact P6|]. intros PN PN'.
      apply Rewritten_mono. intros i Hop Hi.
      apply InBody_updBlock_filter; [intros [? _]; congruence|].
      by apply InBody_updBlock_keep.
Qed.

(** C4, as the code has it.  When the rule fires for the conditional
    branch of [BB] and its successor [ThenBB], whose one successor is
    [EndBB]: the condition is no [fcmp]; [ThenBB] holds at most one
    instruction besides debug intrinsics and pseudo probes, a store counting
    as that instruction, and it is safe to speculate or a store covered by
    the store-to-same-address case; after the rule [ThenBB] is empty, its
    instructions are in [BB], and every PHI node of [EndBB] whose values
    from [BB] and [ThenBB] differ receives from both the select of the two
    on the branch condition, built in [BB]. *)
Theorem single_instruction_speculation
    TTI f BB ThenBB EndBB bb thenbb f' :
  getBlock f BB = Some bb ->
  getBlock f ThenBB = Some thenbb ->
  successors (term thenbb) = [EndBB] ->
  BB <> ThenBB -> EndBB <> ThenBB ->
  SpeculativelyExecuteBB TTI f BB ThenBB = Some (true, f') ->
  exists BrCond (Invert : bool) endbb,
    term bb = (if Invert then CondBr BrCond EndBB ThenBB
               else CondBr BrCond ThenBB EndBB) /\
    getBlock f EndBB = Some endbb /\
    isFCmpInst f BrCond = false /\
    length (filter counted (body thenbb)) <= 1 /\
    Forall (speculatable TTI bb) (filter counted (body thenbb)) /\
    getBlock f' ThenBB = Some (mkBB [] [] (term thenbb)) /\
    (forall b, termOf f' b = termOf f b) /\
    (forall i, i ∈ filter counted (body thenbb) ->
       exists i', InBody f' BB i' /\ inst_id i' = inst_id i /\
                  opcode i' = opcode i) /\
    exists pns',
      phisOf f' EndBB = Some pns' /\
      Forall2 (Rewritten (InBody f' BB) BB ThenBB BrCond Invert)
        (phis endbb) pns'.
Proof.
  intros Hbb Hthen Hsucc Hne HneE. unfold SpeculativelyExecuteBB.
  rewrite Hbb. cbn [mbind option_bind].
  destruct (term bb) as [|BrCond Succ0 Succ1| | | | | |] eqn:Hterm; try done.
  destruct (isFCmpInst f BrCond) eqn:Hfcmp; [done|].
  rewrite Hthen. cbn [mbind option_bind]. rewrite Hsucc.
  cbn [lookup list_lookup mbind option_bind].
  set (Invert := bool_decide (ThenBB <> Succ0)).
  destruct (Invert && bool_decide (ThenBB <> Succ1)) eqn:Hassert1; [done|].
  destruct (bool_decide (EndBB <> (if Invert then Succ0 else Succ1)))
    eqn:Hassert2; [done|].
  apply bool_decide_eq_false in Hassert2.
  assert (EndBB = if Invert then Succ0 else Succ1) as HEnd
    by (by destruct (decide (EndBB = if Invert then Succ0 else Succ1))).
  assert (CondBr BrCond Succ0 Succ1
          = if Invert then CondBr BrCond EndBB ThenBB
            else CondBr BrCond ThenBB EndBB) as Hshape.
  { subst Invert. destruct (bool_decide (ThenBB <> Succ0)) eqn:HI.
    - simpl in Hassert1. apply bool_decide_eq_false in Hassert1.
      assert (ThenBB = Succ1) by (by destruct (decide (ThenBB = Succ1))).
      by subst.
    - apply bool_decide_eq_false in HI.
      assert (ThenBB = Succ0) by (by destruct (decide (ThenBB = Succ0))).
      by subst. }
  destruct (scanThen TTI f BB bb (body thenbb) _) as [st|] eqn:Hscan;
    [|done].
  apply scanThen_spec in Hscan as (Hcount & Hle & Hspec & _).
  simpl in Hcount, Hle.
  destruct (countUsedOnlyHere f _ _) as [Speculated|] eqn:Hused; [|done].
  destruct (getBlock f EndBB) as [endbb|] eqn:Hend; [|done].
  cbn [mbind option_bind].
  destruct (validateAndCostRequiredSelects TTI BB ThenBB (phis endbb) _ _ _)
    as [[[Valid n] Cost]|]; [|done].
  cbn [mbind option_bind].
  destruct (negb _ || _); [done|].
  destruct (hoistAndConvert f BB ThenBB EndBB BrCond Invert st) as [f2|]
    eqn:Hhoist; [|done].
  cbn [mbind option_bind]. intros [= <-].
  destruct (hoistAndConvert_spec _ _ _ _ _ _ _ _ _ _ _ Hne HneE Hbb Hthen
              Hend Hhoist) as (E1 & E2 & _ & E4 & _ & E6).
  exists BrCond, Invert, endbb. split_and!; try done.
  - lia.
  - intros i [[Hdbg _] Hin]%list_elem_of_filter. by apply E4.
Qed.

Lemma single_instruction_speculation_witness :
  exists BrCond (Invert : bool) endbb pns',
    term (mkBB [] [mkInst 1 ICmpULT [VArg 0; VArg 1]] (CondBr (VInst 1) 1 2))
    = (if Invert then CondBr BrCond 2 1 else CondBr BrCond 1 2) /\
    getBlock icmp_diamond 2 = Some endbb /\
    phisOf icmp_diamond_speculated 2 = Some pns' /\
    Forall2 (Rewritten (InBody icmp_diamond_speculated 0) 0 1 BrCond Invert)
      (phis endbb) pns'.
Proof.
  destruct (single_instruction_speculation permissive icmp_diamond 0 1 2
              (mkBB [] [mkInst 1 ICmpULT [VArg 0; VArg 1]]
                 (CondBr (VInst 1) 1 2))
              (mkBB [] [mkInst 2 Add [VArg 0; VArg 1]] (Br 2))
              icmp_diamond_speculated
              eq_refl eq_refl eq_refl ltac:(lia) ltac:(lia) eq_refl)
    as (BrCond & Invert & endbb & H1 & H2 & _ & _ & _ & _ & _ & _ & pns'
        & H3 & H4).
  by exists BrCond, Invert, endbb, pns'.
Defined.

(** The shape on which the rule is said to fire: [ThenBB] has the one
    successor [EndBB], no PHI nodes, and at most one instruction that is not
    a store plus at most one store. *)
Definition isStore (i : Instruction) : Prop :=
  exists simple, opcode i = Store simple.

Definition SaidToFire (f : Function) (BB ThenBB : BlockId) : Prop :=
  exists bb thenbb BrCond EndBB others stores,
    getBlock f BB = Some bb /\ getBlock f ThenBB = Some thenbb /\
    term bb = CondBr BrCond ThenBB EndBB /\
    successors (term thenbb) = [EndBB] /\ phis thenbb = [] /\
    insts thenbb = others ++ stores /\
    length others <= 1 /\ length stores <= 1 /\
    Forall (fun i => ~ isStore i) others /\ Forall isStore stores /\
    Forall (speculatable permissive bb) (insts thenbb).

(** On a block with one addition and one store the rule does not fire,
    although each of the two may be executed unconditionally. *)
Lemma addition_and_store_not_speculated :
  SaidToFire add_and_store 0 1 /\
  SpeculativelyExecuteBB permissive add_and_store 0 1
  = Some (false, add_and_store).
Proof.
  split; [|reflexivity].
  exists (mkBB [] [ mkInst 5 (Store true) [VArg 3; VArg 2];
                    mkInst 1 ICmpULT [VArg 0; VArg 1] ]
            (CondBr (VInst 1) 1 2)),
         (mkBB [] [ mkInst 7 Add [VArg 0; VArg 1];
                    mkInst 2 (Store true) [VInst 7; VArg 2] ] (Br 2)),
         (VInst 1), 2,
         [mkInst 7 Add [VArg 0; VArg 1]],
         [mkInst 2 (Store true) [VInst 7; VArg 2]].
  split_and!; try done; try (simpl; lia).
  - constructor; [|done]. by intros [? ?].
  - constructor; [|done]. by eexists.
  - constructor; [by left|]. constructor; [|done].
    right. split; [done|]. by eexists.
Qed.

End SpeculateFacts.


(** ** Predecessors that pass a value with undefined behaviour *)

Module UndefPredecessor.
Import AP Const IR.
Local Open Scope nat_scope.

(** A user of a value: an instruction (a PHI node is one) of a block, or
    the terminator of a block. *)
Inductive User :=
| UserInst (b : BlockId) (U : Instruction)
| UserTerm (b : BlockId).

(** The users of a value, one per use, in the order of the blocks and of
    their instructions.  The order of a use list is not part of the block
    graph; for a value with one use the first user is that user. *)
Definition users (f : Function) (V : Value) : list User :=
  '(b, bb) ← blocks f;
  (U ← body bb; o ← operands U;
     if decide (o = V) then [UserInst b U] else []) ++
  (o ← termOperands (term bb);
     if decide (o = V) then [UserTerm b] else []).

(** What the rule asks of the analyses, and its verdict on users the block
    graph has no opcode for (a getelementptr, a bitcast or a call). *)
Record Analyses := {
  isGuaranteedToTransferExecutionToSuccessor : Instruction -> bool;
  NullPointerIsDefined : Instruction -> bool;
  isVolatileAccess : Instruction -> bool;
  throughOtherUser : Value -> Instruction -> Instruction -> bool
}.

Definition isUndefValue (C : Constant) : bool :=
  match C with
  | UndefValue _ => true
  | _ => false
  end.

(** A simple store is not volatile. *)
Definition isVolatile (A : Analyses) (U : Instruction) : bool :=
  match opcode U with
  | Store true => false
  | _ => isVolatileAccess A U
  end.

(** The instructions that follow the instruction [Inst] in its block. *)
Fixpoint following (Inst : Instruction) (l : list Instruction)
    : list Instruction :=
  match l with
  | [] => []
  | i :: l' =>
      if decide (inst_id i = inst_id Inst) then l' else following Inst l'
  end.

(** The loop from the instruction after [Inst] up to the user: [false] when
    the end of the block comes before the user, or an instruction on the
    way may not transfer execution to its successor. *)
Fixpoint reachesUse (A : Analyses) (Use : Instruction)
    (l : list Instruction) : bool :=
  match l with
  | [] => false
  | i :: l' =>
      if decide (inst_id i = inst_id Use) then true
      else if negb (isGuaranteedToTransferExecutionToSuccessor A i)
      then false
      else reachesUse A Use l'
  end.

(** [passingValueIsAlwaysUndefined(V, I)] for an instruction [Inst] of the
    block [BB]. *)
Definition passingValueIsAlwaysUndefined (A : Analyses) (f : Function)
    (V : Value) (BB : BlockId) (Inst : Instruction) : bool :=
  match V with
  | VConst C =>
      match users f (VInst (inst_id Inst)) with
      | [] => false
      | Use :: _ =>
          if SwitchSelect.isNullValue C || isUndefValue C then
            match Use, getBlock f BB with
            | UserInst b U, Some bb =>
                if negb (bool_decide (b = BB)) then false
                else if negb (reachesUse A U (following Inst (body bb)))
                then false
                else
                  match opcode U with
                  | Load =>
                      if isVolatile A U then false
                      else negb (NullPointerIsDefined A U)
                  | Store _ =>
                      if isVolatile A U then false
                      else negb (NullPointerIsDefined A U) &&
                           bool_decide (operands U !! 1
                                        = Some (VInst (inst_id Inst)))
                  | OtherOp _ => throughOtherUser A V Inst U
                  | _ => false
                  end
            | _, _ => false
            end
          else false
      end
  | _ => false
  end.

(** The loop over the incoming values of [PN]: the first predecessor that
    passes a value with undefined behaviour and ends in a branch. *)
Fixpoint scanIncoming (A : Analyses) (f : Function) (BB : BlockId)
    (PN : PHINode) (inc : list (Value * BlockId)) : option BlockId :=
  match inc with
  | [] => None
  | (V, Predecessor) :: rest =>
      if passingValueIsAlwaysUndefined A f V BB (phiAsInst PN) then
        match term <$> getBlock f Predecessor with
        | Some (Br _) | Some (CondBr _ _ _) => Some Predecessor
        | _ => scanIncoming A f BB PN rest
        end
      else scanIncoming A f BB PN rest
  end.

(** The loop over the PHI nodes of [BB]. *)
Fixpoint scanPHIs (A : Analyses) (f : Function) (BB : BlockId)
    (pns : list PHINode) : option BlockId :=
  match pns with
  | [] => None
  | PN :: rest =>
      match scanIncoming A f BB PN (incoming PN) with
      | Some Predecessor => Some Predecessor
      | None => scanPHIs A f BB rest
      end
  end.

(** [removeUndefIntroducingPredecessor]: the edge from the first such
    predecessor is removed, an unconditional branch becoming [unreachable]
    and a conditional one a branch to its other successor, and the function
    returns at once. *)
Definition removeUndefIntroducingPredecessor (A : Analyses) (f : Function)
    (BB : BlockId) : bool * Function :=
  match getBlock f BB with
  | Some bb =>
      match scanPHIs A f BB (phis bb) with
      | Some Predecessor =>
          let f1 := removePredecessor BB Predecessor f in
          (true,
           updBlock Predecessor
             (fun pbb =>
                match term pbb with
                | Br _ => setTerm Unreachable pbb
                | CondBr _ Succ0 Succ1 =>
                    setTerm (Br (if decide (Succ0 = BB) then Succ1
                                 else Succ0)) pbb
                | _ => pbb
                end) f1)
      | None => (false, f)
      end
  | None => (false, f)
  end.

End UndefPredecessor.


(** ** The per-block driver *)

Module Driver.
Import AP Const IR.
Local Open Scope nat_scope.

(** The state of [SimplifyCFGOpt] during [run]: the function being edited
    and the member [Resimplify]. *)
Record State := mkState {
  fn : Function;
  Resimplify : bool
}.

#[global] Instance State_eq_dec : EqDecision State.
Proof. solve_decision. Defined.

(** A member function of [SimplifyCFGOpt] that returns an [A]; [None] when
    it does not return. *)
Definition M (A : Type) : Type := State -> option (A * State).

#[global] Instance M_ret : MRet M := fun A a s => Some (a, s).
#[global] Instance M_bind : MBind M :=
  fun A B k m s =>
    match m s with
    | Some (a, s') => k a s'
    | None => None
    end.

Definition getFn : M Function := fun s => Some (fn s, s).
Definition setFn (f : Function) : M unit :=
  fun s => Some (tt, mkState f (Resimplify s)).
Definition setResimplify (b : bool) : M unit :=
  fun s => Some (tt, mkState (fn s) b).
Definition fail {A} : M A := fun _ => None.

(** [requestResimplify()]. *)
Definition requestResimplify : M bool :=
  _ ← setResimplify true; mret true.

(** The rewrite rules [simplifyOnceImpl] dispatches to, and the options that
    gate two of them. *)
Record Rules := {
  ConstantFoldTerminator : BlockId -> M bool;
  EliminateDuplicatePHINodes : BlockId -> M bool;
  removeUndefIntroducingPredecessor : BlockId -> M bool;
  MergeBlockIntoPredecessor : BlockId -> M bool;
  SinkCommonCodeFromPredecessors : BlockId -> M bool;
  FoldTwoEntryPHINode : BlockId -> PHINode -> M bool;
  simplifyBranch : BlockId -> M bool;
  simplifyReturn : BlockId -> M bool;
  simplifyResume : BlockId -> M bool;
  simplifyCleanupReturn : BlockId -> M bool;
  simplifySwitch : BlockId -> M bool;
  simplifyUnreachable : BlockId -> M bool;
  simplifyIndirectBr : BlockId -> M bool;
  SinkCommonInsts : bool;
  FoldTwoEntryPHINodeOption : bool
}.

(** Modelled from the spec: [DeleteDeadBlock] is not part of the sources at
    hand.  The block is deleted along with all its instructions, and no
    entry for it remains in the PHI nodes of its successors. *)
Definition DeleteDeadBlock (BB : BlockId) (f : Function) : Function :=
  match getBlock f BB with
  | Some bb =>
      eraseBlock BB
        (foldl (fun g Succ => removePredecessor Succ BB g) f
           (successors (term bb)))
  | None => f
  end.

Section WithRules.

Variable R : Rules.

Definition simplifyOnceImpl (BB : BlockId) : M bool :=
  f ← getFn;
  match getBlock f BB with
  | None => fail
  | Some _ =>
      if (pred_empty f BB && negb (bool_decide (getEntryBlock f = Some BB)))
         || bool_decide (getSinglePredecessor f BB = Some BB)
      then
        _ ← setFn (DeleteDeadBlock BB f);
        mret true
      else
        c1 ← ConstantFoldTerminator R BB;
        c2 ← EliminateDuplicatePHINodes R BB;
        c3 ← removeUndefIntroducingPredecessor R BB;
        merged ← MergeBlockIntoPredecessor R BB;
        if merged : bool then mret true
        else
          c4 ← (if SinkCommonInsts R
                then SinkCommonCodeFromPredecessors R BB else mret false);
          f1 ← getFn;
          c5 ← (if FoldTwoEntryPHINodeOption R then
                  match phis <$> getBlock f1 BB with
                  | Some (PN :: _) =>
                      if decide (length (incoming PN) = 2)
                      then FoldTwoEntryPHINode R BB PN else mret false
                  | _ => mret false
                  end
                else mret false);
          f2 ← getFn;
          match term <$> getBlock f2 BB with
          | None => fail
          | Some Terminator =>
              c6 ← match Terminator with
                   | Br _ | CondBr _ _ _ => simplifyBranch R BB
                   | Ret _ => simplifyReturn R BB
                   | Resume _ => simplifyResume R BB
                   | CleanupRet _ _ => simplifyCleanupReturn R BB
                   | Switch _ _ _ => simplifySwitch R BB
                   | Unreachable => simplifyUnreachable R BB
                   | IndirectBr _ _ => simplifyIndirectBr R BB
                   end;
              mret (c1 || c2 || c3 || c4 || c5 || c6)
          end
  end.

Definition simplifyOnce (BB : BlockId) : M bool := simplifyOnceImpl BB.

(** The loop of [run], entered at most [rounds] times; [None] when it has
    not returned by then. *)
Fixpoint runLoop (rounds : nat) (BB : BlockId) (Changed : bool) : M bool :=
  match rounds with
  | 0 => fail
  | S rounds' =>
      _ ← setResimplify false;
      c ← simplifyOnce BB;
      again ← (fun s => Some (Resimplify s, s));
      if again : bool then runLoop rounds' BB (Changed || c)
      else mret (Changed || c)
  end.

Definition run (rounds : nat) (BB : BlockId) : M bool :=
  runLoop rounds BB false.

End WithRules.

End Driver.

(** *** Properties of the driver *)

Module DriverFacts.
Import AP Const IR IRFacts Driver.
Local Open Scope nat_scope.

Lemma lookupBlock_erase BB bs b :
  lookupBlock (filter (fun p : BlockId * BasicBlock => p.1 <> BB) bs) b
  = if decide (b = BB) then None else lookupBlock bs b.
Proof.
  induction bs as [|[a bb] bs IH]; simpl; [by case_decide|].
  destruct (decide (a = BB)) as [->|Ha].
  - rewrite filter_cons_False by (simpl; by intros ?).
    rewrite IH. destruct (decide (b = BB)) as [->|Hb]; [done|].
    by rewrite decide_False.
  - rewrite filter_cons_True by done. simpl. rewrite IH.
    destruct (decide (a = b)) as [->|Hab]; [by rewrite decide_False|done].
Qed.

Lemma getBlock_eraseBlock BB f b :
  getBlock (eraseBlock BB f) b
  = if decide (b = BB) then None else getBlock f b.
Proof. apply lookupBlock_erase. Qed.

Lemma erase_shrinks BB bs bb :
  lookupBlock bs BB = Some bb ->
  length (filter (fun p : BlockId * BasicBlock => p.1 <> BB) bs) < length bs.
Proof.
  induction bs as [|[a bb'] bs IH]; simpl; [done|].
  destruct (decide (a = BB)) as [->|Ha].
  - intros _. rewrite filter_cons_False by (simpl; by intros ?).
    pose proof (length_filter (fun p : BlockId * BasicBlock => p.1 <> BB) bs).
    lia.
  - intros H. rewrite filter_cons_True by done. simpl.
    specialize (IH H). lia.
Qed.

Lemma blockCount_updBlock b g f : blockCount (updBlock b g f) = blockCount f.
Proof. unfold blockCount, updBlock. simpl. by rewrite length_fmap. Qed.

(** Removing the PHI entries for the dead block touches no instruction and
    no terminator. *)
Lemma removePredecessors_spec BB succs : forall g,
  let g' := foldl (fun g Succ => removePredecessor Succ BB g) g succs in
  blockCount g' = blockCount g /\
  (forall b, is_Some (getBlock g' b) <-> is_Some (getBlock g b)) /\
  (forall b, instsOf g' b = instsOf g b) /\
  (forall b, termOf g' b = termOf g b).
Proof.
  induction succs as [|Succ succs IH]; intros g; simpl; [done|].
  destruct (IH (removePredecessor Succ BB g)) as (H1 & H2 & H3 & H4).
  unfold removePredecessor in *. split_and!.
  - by rewrite H1, blockCount_updBlock.
  - intros b. rewrite H2, getBlock_updBlock. case_decide; [|done].
    by rewrite fmap_is_Some.
  - intros b. by rewrite H3, instsOf_updBlock_keep.
  - intros b. by rewrite H4, termOf_updBlock_keep.
Qed.


(** Rules that never return. *)
Definition stuck : Rules := {|
  ConstantFoldTerminator := fun _ => fail;
  EliminateDuplicatePHINodes := fun _ => fail;
  removeUndefIntroducingPredecessor := fun _ => fail;
  MergeBlockIntoPredecessor := fun _ => fail;
  SinkCommonCodeFromPredecessors := fun _ => fail;
  FoldTwoEntryPHINode := fun _ _ => fail;
  simplifyBranch := fun _ => fail;
  simplifyReturn := fun _ => fail;
  simplifyResume := fun _ => fail;
  simplifyCleanupReturn := fun _ => fail;
  simplifySwitch := fun _ => fail;
  simplifyUnreachable := fun _ => fail;
  simplifyIndirectBr := fun _ => fail;
  SinkCommonInsts := true;
  FoldTwoEntryPHINodeOption := true
|}.

(** Block 1 has no predecessor and is not the entry block. *)
Definition with_dead_block : Function :=
  mkFn
    [ (0, mkBB [] [] (Br 2));
      (1, mkBB [] [mkInst 5 Add [VArg 0; VArg 1]] (Br 2));
      (2, mkBB [mkPHI 6 [(VArg 0, 0); (VInst 5, 1)]] []
            (Ret (Some (VInst 6)))) ]
    7.


(** *** The loop *)

(** A rule that reports no change has left the state alone. *)
Definition Honest (rule : BlockId -> M bool) : Prop :=
  forall BB s s', rule BB s = Some (false, s') -> s' = s.

Record HonestRules (R : Rules) : Prop := {
  honest_ConstantFoldTerminator : Honest (ConstantFoldTerminator R);
  honest_EliminateDuplicatePHINodes : Honest (EliminateDuplicatePHINodes R);
  honest_removeUndefIntroducingPredecessor :
    Honest (removeUndefIntroducingPredecessor R);
  honest_MergeBlockIntoPredecessor : Honest (MergeBlockIntoPredecessor R);
  honest_SinkCommonCodeFromPredecessors :
    Honest (SinkCommonCodeFromPredecessors R);
  honest_FoldTwoEntryPHINode :
    forall PN, Honest (fun BB => FoldTwoEntryPHINode R BB PN);
  honest_simplifyBranch : Honest (simplifyBranch R);
  honest_simplifyReturn : Honest (simplifyReturn R);
  honest_simplifyResume : Honest (simplifyResume R);
  honest_simplifyCleanupReturn : Honest (simplifyCleanupReturn R);
  honest_simplifySwitch : Honest (simplifySwitch R);
  honest_simplifyUnreachable : Honest (simplifyUnreachable R);
  honest_simplifyIndirectBr : Honest (simplifyIndirectBr R)
}.

Lemma bind_Some {A B} (m : M A) (k : A -> M B) s r :
  (x ← m; k x) s = Some r ->
  exists a s1, m s = Some (a, s1) /\ k a s1 = Some r.
Proof.
  unfold mbind, M_bind. destruct (m s) as [[a s1]|]; [|done]. eauto.
Qed.

Lemma mret_Some {A} (a : A) s r : mret (M := M) a s = Some r -> r = (a, s).
Proof. unfold mret, M_ret. by intros [= <-]. Qed.

Ltac step H :=
  let a := fresh "c" in
  let s1 := fresh "s" in
  let Hm := fresh "Hm" in
  apply bind_Some in H as (a & s1 & Hm & H).

Ltac step_get H :=
  let Hm := fresh "Hm" in
  apply bind_Some in H as (? & ? & Hm & H);
  unfold getFn in Hm; symmetry in Hm; inversion Hm; subst; clear Hm.

Lemma simplifyOnceImpl_unchanged R BB s s' :
  HonestRules R ->
  simplifyOnceImpl R BB s = Some (false, s') -> s' = s.
Proof.
  intros HR H. unfold simplifyOnceImpl in H.
  step_get H.
  destruct (getBlock (fn s) BB); [|done].
  destruct (_ || _).
  { step H. by apply mret_Some in H. }
  step H. step H. step H. step H.
  destruct c2; [by apply mret_Some in H|].
  step H. step_get H. step H. step_get H.
  destruct (term <$> getBlock (fn s5) BB) as [T|]; [|done].
  step H. apply mret_Some in H. inversion H as [[Hc Hs]]; subst s'.
  symmetry in Hc.
  repeat (apply orb_false_elim in Hc as [Hc ?]); subst.
  assert (s6 = s5) as ->.
  { destruct T; first [by eapply honest_simplifyBranch
                      |by eapply honest_simplifySwitch
                      |by eapply honest_simplifyReturn
                      |by eapply honest_simplifyUnreachable
                      |by eapply honest_simplifyResume
                      |by eapply honest_simplifyCleanupReturn
                      |by eapply honest_simplifyIndirectBr]. }
  assert (s5 = s4) as ->.
  { destruct (FoldTwoEntryPHINodeOption R); [|by apply mret_Some in Hm4 as [= ->]].
    destruct (phis <$> getBlock (fn s4) BB) as [[|PN ?]|];
      try (by apply mret_Some in Hm4 as [= ->]).
    case_decide; [|by apply mret_Some in Hm4 as [= ->]].
    by eapply (honest_FoldTwoEntryPHINode R HR PN). }
  assert (s4 = s3) as ->.
  { destruct (SinkCommonInsts R); [|by apply mret_Some in Hm3 as [= ->]].
    by eapply honest_SinkCommonCodeFromPredecessors. }
  assert (s3 = s2) as -> by (by eapply honest_MergeBlockIntoPredecessor).
  assert (s2 = s1) as ->
    by (by eapply honest_removeUndefIntroducingPredecessor).
  assert (s1 = s0) as -> by (by eapply honest_EliminateDuplicatePHINodes).
  by eapply honest_ConstantFoldTerminator.
Qed.

Lemma runLoop_unfold R rounds BB Changed s :
  runLoop R (S rounds) BB Changed s
  = match simplifyOnce R BB (mkState (fn s) false) with
    | Some (c, s1) =>
        if Resimplify s1 then runLoop R rounds BB (Changed || c) s1
        else Some (Changed || c, s1)
    | None => None
    end.
Proof.
  simpl. unfold mbind, M_bind, setResimplify. simpl.
  destruct (simplifyOnce R BB _) as [[c s1]|]; [|done].
  by destruct (Resimplify s1).
Qed.

Lemma runLoop_changed R rounds : forall BB s b s',
  runLoop R rounds BB true s = Some (b, s') -> b = true.
Proof.
  induction rounds as [|rounds IH]; intros BB s b s' H; [done|].
  rewrite runLoop_unfold in H.
  destruct (simplifyOnce R BB _) as [[c s1]|]; [|done].
  destruct (Resimplify s1); [by eapply IH|]. by inversion H.
Qed.


(** Rules that never fire. *)
Definition idle : Rules := {|
  ConstantFoldTerminator := fun _ => mret false;
  EliminateDuplicatePHINodes := fun _ => mret false;
  removeUndefIntroducingPredecessor := fun _ => mret false;
  MergeBlockIntoPredecessor := fun _ => mret false;
  SinkCommonCodeFromPredecessors := fun _ => mret false;
  FoldTwoEntryPHINode := fun _ _ => mret false;
  simplifyBranch := fun _ => mret false;
  simplifyReturn := fun _ => mret false;
  simplifyResume := fun _ => mret false;
  simplifyCleanupReturn := fun _ => mret false;
  simplifySwitch := fun _ => mret false;
  simplifyUnreachable := fun _ => mret false;
  simplifyIndirectBr := fun _ => mret false;
  SinkCommonInsts := true;
  FoldTwoEntryPHINodeOption := true
|}.

Lemma idle_honest : HonestRules idle.
Proof.
  split; unfold Honest; intros;
    match goal with
    | H : _ = Some _ |- _ => by apply mret_Some in H as [= ->]
    end.
Qed.



(** *** Termination of the loop *)

Lemma runLoop_returns R BB (measure : Function -> nat) :
  (forall f, is_Some (getBlock f BB) ->
     exists c s', simplifyOnce R BB (mkState f false) = Some (c, s') /\
       (Resimplify s' = true ->
        is_Some (getBlock (fn s') BB) /\ measure (fn s') < measure f)) ->
  forall n s Changed,
    measure (fn s) <= n -> is_Some (getBlock (fn s) BB) ->
    exists r, runLoop R (S n) BB Changed s = Some r.
Proof.
  intros Hround. induction n as [|n IH]; intros s Changed Hn Hbb;
    rewrite runLoop_unfold;
    destruct (Hround (fn s) Hbb) as (c & s1 & -> & Hless);
    destruct (Resimplify s1) eqn:Hre; try by eexists.
  - destruct Hless as [_ Hless]; [done|]. lia.
  - destruct Hless as [Hbb1 Hless]; [done|]. apply IH; [lia|done].
Qed.


Lemma idle_round BB f :
  is_Some (getBlock f BB) ->
  exists c s', simplifyOnce idle BB (mkState f false) = Some (c, s') /\
    (Resimplify s' = true ->
     is_Some (getBlock (fn s') BB) /\ instCount (fn s') < instCount f).
Proof.
  intros [bb Hbb]. unfold simplifyOnce, simplifyOnceImpl.
  unfold mbind, M_bind, getFn, setFn, mret, M_ret. simpl. rewrite Hbb.
  destruct (_ || _); [by eexists _, _|]. simpl. rewrite Hbb. simpl.
  destruct (phis bb) as [|PN ?]; simpl.
  2: destruct (decide (length (incoming PN) = 2)); unfold mret, M_ret; simpl.
  all: rewrite Hbb; simpl; destruct (term bb); simpl; by eexists _, _.
Qed.


(** The step of [simplifyCondBranch] that if-converts the successor reached
    from [BB] only, when the other successor has more predecessors and is
    the one successor of the first; the request for another round follows
    the firing. *)
Definition speculateSuccessor (TTI : Speculate.TargetInfo) (BB : BlockId)
    : M bool :=
  f ← getFn;
  match term <$> getBlock f BB with
  | Some (CondBr _ Succ0 Succ1) =>
      let speculate (Then Other : BlockId) : M bool :=
        match term <$> getBlock f Then with
        | Some ThenTI =>
            if bool_decide (successors ThenTI = [Other]) then
              match Speculate.SpeculativelyExecuteBB TTI f BB Then with
              | Some (true, f') => _ ← setFn f'; requestResimplify
              | Some (false, _) => mret false
              | None => fail
              end
            else mret false
        | None => fail
        end in
      match getSinglePredecessor f Succ0, getSinglePredecessor f Succ1 with
      | Some _, None => speculate Succ0 Succ1
      | None, Some _ => speculate Succ1 Succ0
      | _, _ => mret false
      end
  | _ => mret false
  end.

(** The rules of which only that step fires. *)
Definition speculating (TTI : Speculate.TargetInfo) : Rules := {|
  ConstantFoldTerminator := fun _ => mret false;
  EliminateDuplicatePHINodes := fun _ => mret false;
  removeUndefIntroducingPredecessor := fun _ => mret false;
  MergeBlockIntoPredecessor := fun _ => mret false;
  SinkCommonCodeFromPredecessors := fun _ => mret false;
  FoldTwoEntryPHINode := fun _ _ => mret false;
  simplifyBranch := speculateSuccessor TTI;
  simplifyReturn := fun _ => mret false;
  simplifyResume := fun _ => mret false;
  simplifyCleanupReturn := fun _ => mret false;
  simplifySwitch := fun _ => mret false;
  simplifyUnreachable := fun _ => mret false;
  simplifyIndirectBr := fun _ => mret false;
  SinkCommonInsts := true;
  FoldTwoEntryPHINodeOption := true
|}.



(** *** A block that is its own predecessor twice *)

(** Block 1 branches to itself on both edges of its conditional branch and
    has no other predecessor: it cannot be reached from the entry block. *)
Definition self_loop_twice : Function :=
  mkFn
    [ (0, mkBB [] [] (Ret None));
      (1, mkBB [] [mkInst 5 Add [VArg 0; VArg 1]] (CondBr (VArg 2) 1 1)) ]
    6.

(** C3, where the code departs from it.  The comment in front of the test
    says that a block which has just itself as a predecessor is removed.
    Block 1 of [self_loop_twice] has just itself as a predecessor, by two
    edges; [getSinglePredecessor] asks for exactly one incoming edge, so the
    test fails, the block is not deleted and the step goes on to the other
    rules: with rules that never fire the step reports no change and leaves
    the function as it is, and with rules that never return the step does
    not return.  With one edge to itself in place of the two, the same block
    is deleted. *)
Theorem self_loop_by_two_edges_kept :
  predecessors self_loop_twice 1 = [1; 1] /\
  getEntryBlock self_loop_twice = Some 0 /\
  getSinglePredecessor self_loop_twice 1 = None /\
  simplifyOnceImpl idle 1 (mkState self_loop_twice false)
  = Some (false, mkState self_loop_twice false) /\
  simplifyOnceImpl stuck 1 (mkState self_loop_twice false) = None /\
  run idle 1 1 (mkState self_loop_twice false)
  = Some (false, mkState self_loop_twice false) /\
  let once :=
    updBlock 1 (setTerm (Br 1)) self_loop_twice in
  getSinglePredecessor once 1 = Some 1 /\
  simplifyOnceImpl stuck 1 (mkState once false)
  = Some (true, mkState (mkFn [ (0, mkBB [] [] (Ret None)) ] 6) false).
Proof. by vm_compute. Qed.


(** *** Runs that end after a change *)

(** [removeUndefIntroducingPredecessor] as a rule of the driver: it edits
    the function and does not request another round. *)
Definition removeUndefRule (A : UndefPredecessor.Analyses) (BB : BlockId)
    : M bool :=
  fun s =>
    let r := UndefPredecessor.removeUndefIntroducingPredecessor A (fn s) BB in
    Some (r.1, mkState r.2 (Resimplify s)).

(** The rules of which only that one fires. *)
Definition removingUndef (A : UndefPredecessor.Analyses) : Rules := {|
  ConstantFoldTerminator := fun _ => mret false;
  EliminateDuplicatePHINodes := fun _ => mret false;
  removeUndefIntroducingPredecessor := removeUndefRule A;
  MergeBlockIntoPredecessor := fun _ => mret false;
  SinkCommonCodeFromPredecessors := fun _ => mret false;
  FoldTwoEntryPHINode := fun _ _ => mret false;
  simplifyBranch := fun _ => mret false;
  simplifyReturn := fun _ => mret false;
  simplifyResume := fun _ => mret false;
  simplifyCleanupReturn := fun _ => mret false;
  simplifySwitch := fun _ => mret false;
  simplifyUnreachable := fun _ => mret false;
  simplifyIndirectBr := fun _ => mret false;
  SinkCommonInsts := true;
  FoldTwoEntryPHINodeOption := true
|}.

Lemma removeUndefRule_honest A : Honest (removeUndefRule A).
Proof.
  intros BB [f re] s'. unfold removeUndefRule,
    UndefPredecessor.removeUndefIntroducingPredecessor. simpl.
  destruct (getBlock f BB) as [bb|]; [|by intros [= <-]].
  destruct (UndefPredecessor.scanPHIs A f BB (phis bb));
    [done|by intros [= <-]].
Qed.

Lemma removingUndef_honest A : HonestRules (removingUndef A).
Proof.
  split; try apply removeUndefRule_honest; unfold Honest; intros;
    match goal with
    | H : _ = Some _ |- _ => by apply mret_Some in H as [= ->]
    end.
Qed.

(** Every instruction transfers execution to its successor, a null pointer
    is not defined, and no access is volatile. *)
Definition plain : UndefPredecessor.Analyses := {|
  UndefPredecessor.isGuaranteedToTransferExecutionToSuccessor := fun _ => true;
  UndefPredecessor.NullPointerIsDefined := fun _ => false;
  UndefPredecessor.isVolatileAccess := fun _ => false;
  UndefPredecessor.throughOtherUser := fun _ _ _ => false
|}.

(** The blocks 1 to 4 branch to block 5, which loads from the pointer its
    PHI node selects; the blocks 1 and 2 pass an undefined pointer. *)
Definition undef_from_two : Function :=
  mkFn
    [ (0, mkBB [] [] (CondBr (VArg 0) 1 6));
      (6, mkBB [] [] (CondBr (VArg 1) 2 7));
      (7, mkBB [] [] (CondBr (VArg 2) 3 4));
      (1, mkBB [] [] (Br 5));
      (2, mkBB [] [] (Br 5));
      (3, mkBB [] [] (Br 5));
      (4, mkBB [] [] (Br 5));
      (5, mkBB [mkPHI 10 [ (VConst (UndefValue PointerType), 1);
                           (VConst (UndefValue PointerType), 2);
                           (VArg 3, 3); (VArg 4, 4) ]]
               [mkInst 11 Load [VInst 10]]
               (Ret (Some (VInst 11)))) ]
    12.

(** After the first run: block 1 ends in [unreachable]. *)
Definition undef_from_one : Function :=
  mkFn
    [ (0, mkBB [] [] (CondBr (VArg 0) 1 6));
      (6, mkBB [] [] (CondBr (VArg 1) 2 7));
      (7, mkBB [] [] (CondBr (VArg 2) 3 4));
      (1, mkBB [] [] Unreachable);
      (2, mkBB [] [] (Br 5));
      (3, mkBB [] [] (Br 5));
      (4, mkBB [] [] (Br 5));
      (5, mkBB [mkPHI 10 [ (VConst (UndefValue PointerType), 2);
                           (VArg 3, 3); (VArg 4, 4) ]]
               [mkInst 11 Load [VInst 10]]
               (Ret (Some (VInst 11)))) ]
    12.

(** After the second run: block 2 ends in [unreachable] too. *)
Definition undef_from_none : Function :=
  mkFn
    [ (0, mkBB [] [] (CondBr (VArg 0) 1 6));
      (6, mkBB [] [] (CondBr (VArg 1) 2 7));
      (7, mkBB [] [] (CondBr (VArg 2) 3 4));
      (1, mkBB [] [] Unreachable);
      (2, mkBB [] [] Unreachable);
      (3, mkBB [] [] (Br 5));
      (4, mkBB [] [] (Br 5));
      (5, mkBB [mkPHI 10 [ (VArg 3, 3); (VArg 4, 4) ]]
               [mkInst 11 Load [VInst 10]]
               (Ret (Some (VInst 11)))) ]
    12.

(** C9 fails as stated: a run of the driver that has returned need not have
    reached a fixpoint.  On block 5 of [undef_from_two] the first run
    removes the edge from block 1, the first predecessor that passes an
    undefined pointer to the load, and returns after that one round, since
    [removeUndefIntroducingPredecessor] returns at its first edit and the
    driver does not loop on its result; the second run on the same block
    changes the function again, removing the edge from block 2, and returns
    [true]; only the third run finds nothing to do. *)
Lemma second_run_changes_again :
  let R := removingUndef plain in
  (forall rounds, 0 < rounds ->
     run R rounds 5 (mkState undef_from_two false)
     = Some (true, mkState undef_from_one false)) /\
  (forall rounds, 0 < rounds ->
     run R rounds 5 (mkState undef_from_one false)
     = Some (true, mkState undef_from_none false)) /\
  undef_from_one <> undef_from_two /\
  undef_from_none <> undef_from_one /\
  (forall rounds, 0 < rounds ->
     run R rounds 5 (mkState undef_from_none false)
     = Some (false, mkState undef_from_none false)).
Proof.
  split_and!; try done; intros [|rounds] Hpos; try lia;
    unfold run; by rewrite runLoop_unfold.
Qed.




(** *** The block graph under if-conversion *)

(** The blocks of a function with their terminators, in layout order. *)
Definition skeleton (f : Function) : list (BlockId * Terminator) :=
  (fun p : BlockId * BasicBlock => (p.1, term p.2)) <$> blocks f.

Lemma predecessors_skeleton f f' b :
  skeleton f' = skeleton f -> predecessors f' b = predecessors f b.
Proof.
  assert (forall g, predecessors g b
          = '(a, t) ← skeleton g;
            _ ← filter (fun s => s = b) (successors t); [a]) as Hp.
  { intros g. unfold predecessors, skeleton.
    induction (blocks g) as [|[a bb] bs IH]; [done|].
    csimpl. by rewrite IH. }
  intros H. by rewrite !Hp, H.
Qed.

Lemma getEntryBlock_skeleton f f' :
  skeleton f' = skeleton f -> getEntryBlock f' = getEntryBlock f.
Proof.
  unfold getEntryBlock, skeleton.
  destruct (blocks f') as [|[a bb] ?], (blocks f) as [|[a' bb'] ?];
    simpl; try done.
  by intros [= -> _ _].
Qed.

Lemma termOf_skeleton f f' b :
  skeleton f' = skeleton f -> termOf f' b = termOf f b.
Proof.
  assert (forall g, termOf g b
          = snd <$> list_find (fun p => p.1 = b) (skeleton g) ≫=
                      (fun r => Some r.2)) as Hp.
  { intros g. unfold termOf, getBlock, skeleton.
    induction (blocks g) as [|[a bb] bs IH]; [done|].
    simpl. case_decide; [done|]. rewrite IH.
    destruct (list_find _ _) as [[? [? ?]]|]; done. }
  intros H. by rewrite !Hp, H.
Qed.

Lemma skeleton_updBlock b g f :
  (forall bb, term (g bb) = term bb) ->
  skeleton (updBlock b g f) = skeleton f.
Proof.
  intros Hg. unfold skeleton, updBlock. simpl.
  rewrite <- list_fmap_compose. apply list_fmap_ext.
  intros i [a bb] _. simpl. case_decide; [|done]. simpl. by rewrite Hg.
Qed.

Lemma skeleton_emit BB op ops f :
  skeleton (emit BB op ops f).2 = skeleton f.
Proof.
  unfold emit. simpl.
  change (skeleton (updBlock BB
            (fun bb => setInsts (insts bb ++ [mkInst (next_id f) op ops]) bb)
            f) = skeleton f).
  by apply skeleton_updBlock.
Qed.

Lemma skeleton_rewritePHIs BB ThenBB c inv pns : forall f pns' f',
  Speculate.rewritePHIs BB ThenBB c inv pns f = Some (pns', f') ->
  skeleton f' = skeleton f.
Proof.
  induction pns as [|PN pns IH]; intros f pns' f' H; simpl in H.
  - by inversion H.
  - destruct (getBasicBlockIndex PN BB) as [OrigI|]; [|done].
    destruct (getBasicBlockIndex PN ThenBB) as [ThenI|]; [|done].
    simpl in H.
    destruct (fst <$> incoming PN !! OrigI) as [OrigV|]; [|done].
    destruct (fst <$> incoming PN !! ThenI) as [ThenV|]; [|done].
    simpl in H. case_decide.
    + destruct (Speculate.rewritePHIs _ _ _ _ pns f) as [[rest' f1]|] eqn:Hr;
        [|done].
      simpl in H. inversion H; subst. by eapply IH.
    + set (TrueV := if inv then OrigV else ThenV) in *.
      set (FalseV := if inv then ThenV else OrigV) in *.
      assert ((if inv then (OrigV, ThenV) else (ThenV, OrigV))
              = (TrueV, FalseV)) as HTF by (by destruct inv).
      rewrite HTF in H. clear HTF. simpl in H.
      set (f1 := mkFn _ _) in H.
      assert (f1 = (emit BB Select [c; TrueV; FalseV] f).2) as Hf1 by done.
      clearbody f1.
      destruct (Speculate.rewritePHIs _ _ _ _ pns f1) as [[rest' f2]|]
        eqn:Hr; [|done].
      simpl in H. inversion H; subst pns' f'.
      apply IH in Hr. rewrite Hr, Hf1. apply skeleton_emit.
Qed.


Lemma skeleton_speculateStoreValue f BB ThenBB c inv st :
  skeleton (Speculate.speculateStoreValue f BB ThenBB c inv st) = skeleton f.
Proof.
  unfold Speculate.speculateStoreValue.
  destruct (Speculate.SpeculatedStoreValue st); [|done].
  destruct (Speculate.SpeculatedStore st); [|done].
  cbv zeta. rewrite skeleton_updBlock by done. apply skeleton_emit.
Qed.

Lemma skeleton_moveAndDanglePseudoProbes From BB f :
  skeleton (Speculate.moveAndDanglePseudoProbes From BB f) = skeleton f.
Proof.
  unfold Speculate.moveAndDanglePseudoProbes.
  destruct (getBlock f From); [|done].
  by rewrite !skeleton_updBlock.
Qed.

(** If-conversion leaves the blocks and their terminators as they are. *)
Lemma skeleton_hoistAndConvert f BB ThenBB EndBB c inv st f' :
  Speculate.hoistAndConvert f BB ThenBB EndBB c inv st = Some f' ->
  skeleton f' = skeleton f.
Proof.
  unfold Speculate.hoistAndConvert. cbv zeta.
  destruct (getBlock _ ThenBB) as [thenbb|]; [|done].
  cbn [mbind option_bind].
  destruct (getBlock _ EndBB) as [endbb|]; [|done].
  cbn [mbind option_bind].
  destruct (Speculate.rewritePHIs _ _ _ _ _ _) as [[pns f4]|] eqn:Hr;
    [|done].
  cbn [mbind option_bind]. intros [= <-].
  apply skeleton_rewritePHIs in Hr.
  rewrite !skeleton_updBlock, Hr, !skeleton_updBlock by done.
  by rewrite skeleton_moveAndDanglePseudoProbes,
    skeleton_speculateStoreValue.
Qed.

Lemma skeleton_SpeculativelyExecuteBB TTI f BB ThenBB c f' :
  Speculate.SpeculativelyExecuteBB TTI f BB ThenBB = Some (c, f') ->
  skeleton f' = skeleton f.
Proof.
  unfold Speculate.SpeculativelyExecuteBB.
  destruct (getBlock f BB) as [bb|]; [|done]. cbn [mbind option_bind].
  destruct (term bb); try done.
  destruct (Speculate.isFCmpInst f cond); [by intros [= <- <-]|].
  destruct (getBlock f ThenBB) as [thenbb|]; [|done].
  cbn [mbind option_bind].
  destruct (successors (term thenbb) !! 0) as [EndBB|]; [|done].
  cbn [mbind option_bind].
  destruct (_ && _); [done|]. destruct (bool_decide _); [done|].
  destruct (Speculate.scanThen _ _ _ _ _ _) as [st|]; [|by intros [= <- <-]].
  destruct (Speculate.countUsedOnlyHere _ _ _) as [n|];
    [|by intros [= <- <-]].
  destruct (getBlock f EndBB) as [endbb|]; [|done].
  cbn [mbind option_bind].
  destruct (Speculate.validateAndCostRequiredSelects _ _ _ _ _ _ _)
    as [[[Valid ?] Cost]|]; [|done].
  cbn [mbind option_bind].
  destruct (_ || _); [by intros [= <- <-]|].
  destruct (Speculate.hoistAndConvert _ _ _ _ _ _ _) as [f2|] eqn:Hh;
    [|done].
  cbn [mbind option_bind]. intros [= <- <-].
  by eapply skeleton_hoistAndConvert.
Qed.

End DriverFacts.


(** ** The batches of dominator-tree updates *)

Module DomUpdates.
Import AP Const IR.
Local Open Scope nat_scope.

Definition isInsert (u : DomUpdate) : bool :=
  match u with DomInsert _ _ => true | DomDelete _ _ => false end.

Definition isDelete (u : DomUpdate) : bool :=
  match u with DomInsert _ _ => false | DomDelete _ _ => true end.

(** In the batch no [Insert] is recorded after a [Delete]. *)
Definition InsertsFirst (Updates : list DomUpdate) : Prop :=
  forall i j u v,
    Updates !! i = Some u -> Updates !! j = Some v ->
    isDelete u = true -> isInsert v = true -> j < i.

Fixpoint insertsFirst (Updates : list DomUpdate) : bool :=
  match Updates with
  | [] => true
  | DomInsert _ _ :: rest => insertsFirst rest
  | DomDelete _ _ :: rest => forallb isDelete rest
  end.

Section Recording.

(** Whether a [DomTreeUpdater] was handed to the pass. *)
Variable DTU : bool.

(** [if (DTU) Updates.push_back(u)]. *)
Definition record (u : DomUpdate) (Updates : list DomUpdate)
    : list DomUpdate :=
  if DTU then Updates ++ [u] else Updates.

(** [HoistThenElseCodeToIf], once the terminator is hoisted: one record
    for every successor of [BB1], then one for every successor of the
    branch [BI] of [BIParent]. *)
Definition HoistThenElseCodeToIf_Updates (BIParent : BlockId)
    (successorsBB1 successorsBI : list BlockId) : list DomUpdate :=
  let Updates :=
    foldl (fun Updates Succ => record (DomInsert BIParent Succ) Updates)
      [] successorsBB1 in
  foldl (fun Updates Succ => record (DomDelete BIParent Succ) Updates)
    Updates successorsBI.

(** [PerformValueComparisonIntoPredecessorFolding].  [PredDefault] and
    [BBDefault] are the default destinations of the two comparisons,
    [NewSuccessors] the map of the new successors of [Pred] in insertion
    order, [SuccsOfPred] the successors of [Pred] before the rewrite,
    [NewSISuccessors] those of the new switch, and [InfLoopBlock] the
    block that is created when [BB] is still among them. *)
Definition PerformValueComparisonIntoPredecessorFolding_Updates
    (Pred BB PredDefault BBDefault : BlockId)
    (NewSuccessors : list (BlockId * nat))
    (SuccsOfPred NewSISuccessors : list BlockId) (InfLoopBlock : BlockId)
    : list DomUpdate :=
  let Updates := [] in
  let Updates :=
    if bool_decide (PredDefault = BB) then
      if bool_decide (PredDefault <> BBDefault) then
        if bool_decide (PredDefault <> BB)
        then record (DomDelete Pred PredDefault) Updates
        else Updates
      else Updates
    else Updates in
  let Updates :=
    foldl (fun Updates (NewSuccessor : BlockId * nat) =>
             if bool_decide (NewSuccessor.1 ∈ SuccsOfPred) then Updates
             else record (DomInsert Pred NewSuccessor.1) Updates)
      Updates NewSuccessors in
  let created := bool_decide (BB ∈ NewSISuccessors) in
  let Updates :=
    if created then record (DomInsert InfLoopBlock InfLoopBlock) Updates
    else Updates in
  let Updates :=
    if created then record (DomInsert Pred InfLoopBlock) Updates
    else Updates in
  record (DomDelete Pred BB) Updates.

(** [TryToMergeLandingPad], when the identical block [OtherPred] is
    found: [Preds] are the predecessors of [BB] and [Succs] its
    successors, each once. *)
Definition TryToMergeLandingPad_Updates (BB OtherPred : BlockId)
    (Preds Succs : list BlockId) : list DomUpdate :=
  let Updates :=
    foldl (fun Updates Pred =>
             record (DomDelete Pred BB)
               (record (DomInsert Pred OtherPred) Updates))
      [] Preds in
  foldl (fun Updates Succ => record (DomDelete BB Succ) Updates)
    Updates Succs.

(** The loop of [removeEmptyCleanup] over the predecessors of the cleanup
    pad [BB].  Without an unwind destination every round hands the batch
    over and clears it. *)
Definition removeEmptyCleanup_Updates (BB : BlockId)
    (UnwindDest : option BlockId) (Preds : list BlockId) : list DomUpdate :=
  foldl (fun Updates PredBB =>
           match UnwindDest with
           | None => []
           | Some UnwindDest =>
               record (DomDelete PredBB BB)
                 (record (DomInsert PredBB UnwindDest) Updates)
           end)
    [] Preds.

(** [SwitchToLookupTable], from the creation of [LookupBB] on.  With
    [NeedMask] the first block becomes [MaskBB] and a second [LookupBB] is
    created. *)
Definition SwitchToLookupTable_Updates (BB CommonDest DefaultDest : BlockId)
    (FirstLookupBB SecondLookupBB : BlockId)
    (DefaultIsReachable GeneratingCoveredLookupTable NeedMask
       ReturnedEarly : bool)
    (SIsuccessors : list BlockId) : list DomUpdate :=
  let Updates := record (DomInsert BB FirstLookupBB) [] in
  let LookupBB := if NeedMask then SecondLookupBB else FirstLookupBB in
  let Updates :=
    if NeedMask then
      record (DomInsert FirstLookupBB DefaultDest)
        (record (DomInsert FirstLookupBB LookupBB) Updates)
    else Updates in
  let Updates :=
    if negb DefaultIsReachable || GeneratingCoveredLookupTable
    then record (DomDelete BB DefaultDest) Updates else Updates in
  let Updates :=
    if negb ReturnedEarly then record (DomInsert LookupBB CommonDest) Updates
    else Updates in
  let RemovedSuccessors :=
    remove_dups (filter (fun Succ => Succ <> DefaultDest) SIsuccessors) in
  foldl (fun Updates RemovedSuccessor =>
           record (DomDelete BB RemovedSuccessor) Updates)
    Updates RemovedSuccessors.

End Recording.

End DomUpdates.

(** *** The order of the records in a batch *)

Module DomUpdatesFacts.
Import AP Const IR IRFacts SwitchSelect DomUpdates.
Local Open Scope nat_scope.

Lemma insertsFirst_deletes l : forallb isDelete l = true -> insertsFirst l = true.
Proof.
  destruct l as [|[a b|a b] l]; simpl; [done| |done].
  by intros [=].
Qed.

Lemma insertsFirst_app l l' :
  insertsFirst (l ++ l')
  = if forallb isInsert l then insertsFirst l'
    else insertsFirst l && forallb isDelete l'.
Proof.
  induction l as [|[a b|a b] l IH]; simpl; [done|done|].
  by rewrite forallb_app.
Qed.

Lemma insertsFirst_spec l : insertsFirst l = true <-> InsertsFirst l.
Proof.
  unfold InsertsFirst. induction l as [|[a b|a b] l IH]; simpl.
  - split; [|done]. by intros _ i j u v Hi.
  - rewrite IH. split.
    + intros H [|i] j u v Hi Hj Hu Hv; simpl in *.
      { by inversion Hi; subst. }
      destruct j as [|j]; [lia|]. simpl in Hj.
      specialize (H i j u v Hi Hj Hu Hv). lia.
    + intros H i j u v Hi Hj Hu Hv.
      specialize (H (S i) (S j) u v Hi Hj Hu Hv). lia.
  - rewrite forallb_forall. split.
    + intros H i [|j] u v Hi Hj Hu Hv; simpl in *.
      { by inversion Hj; subst. }
      apply list_elem_of_lookup_2, list_elem_of_In, H in Hj.
      by destruct v.
    + intros H v Hv. apply list_elem_of_In, list_elem_of_lookup_1 in Hv as [j Hj].
      destruct v as [c d|c d]; [|done].
      specialize (H 0 (S j) (DomDelete a b) (DomInsert c d)
                    eq_refl Hj eq_refl eq_refl). lia.
Qed.

Lemma foldl_record {A} (mk : A -> DomUpdate) DTU Updates l :
  foldl (fun Updates x => record DTU (mk x) Updates) Updates l
  = Updates ++ (if DTU then mk <$> l else []).
Proof.
  revert Updates. induction l as [|x l IH]; intros Updates; simpl.
  - destruct DTU; by rewrite app_nil_r.
  - rewrite IH. unfold record. destruct DTU; [|done].
    by rewrite <- app_assoc.
Qed.

Lemma foldl_record_pair {A} (ins del : A -> DomUpdate) DTU Updates l :
  foldl (fun Updates x => record DTU (del x) (record DTU (ins x) Updates))
    Updates l
  = Updates ++ (if DTU then x ← l; [ins x; del x] else []).
Proof.
  revert Updates. induction l as [|x l IH]; intros Updates; simpl.
  - destruct DTU; by rewrite app_nil_r.
  - rewrite IH. unfold record. destruct DTU; [|done].
    by rewrite <- !app_assoc.
Qed.

Lemma foldl_record_unless {A} (skip : A -> bool) (mk : A -> DomUpdate)
    DTU Updates l :
  foldl (fun Updates x => if skip x then Updates
                          else record DTU (mk x) Updates) Updates l
  = Updates
    ++ (if DTU then mk <$> filter (fun x => skip x = false) l else []).
Proof.
  revert Updates. induction l as [|x l IH]; intros Updates; simpl.
  - destruct DTU; by rewrite app_nil_r.
  - rewrite IH. unfold record. destruct (skip x) eqn:Hs.
    + rewrite filter_cons_False by congruence. done.
    + rewrite filter_cons_True by done.
      destruct DTU; [|done]. by rewrite <- app_assoc.
Qed.

Lemma forallb_fmap_const {A} (p : DomUpdate -> bool) (mk : A -> DomUpdate) l :
  (forall x, p (mk x) = true) -> forallb p (mk <$> l) = true.
Proof. intros H. induction l as [|x l IH]; simpl; [done|]. by rewrite H. Qed.

Lemma hoist_insertsFirst DTU BIParent successorsBB1 successorsBI :
  insertsFirst
    (HoistThenElseCodeToIf_Updates DTU BIParent successorsBB1 successorsBI)
  = true.
Proof.
  unfold HoistThenElseCodeToIf_Updates.
  rewrite (foldl_record (DomInsert BIParent)),
    (foldl_record (DomDelete BIParent)). simpl.
  rewrite insertsFirst_app. destruct DTU; simpl; [|done].
  rewrite forallb_fmap_const by done.
  by apply insertsFirst_deletes, forallb_fmap_const.
Qed.

Lemma folding_insertsFirst DTU Pred BB PredDefault BBDefault NewSuccessors
    SuccsOfPred NewSISuccessors InfLoopBlock :
  insertsFirst
    (PerformValueComparisonIntoPredecessorFolding_Updates DTU Pred BB
       PredDefault BBDefault NewSuccessors SuccsOfPred NewSISuccessors
       InfLoopBlock) = true.
Proof.
  unfold PerformValueComparisonIntoPredecessorFolding_Updates.
  assert ((if bool_decide (PredDefault = BB) then
             if bool_decide (PredDefault <> BBDefault) then
               if bool_decide (PredDefault <> BB)
               then record DTU (DomDelete Pred PredDefault) []
               else []
             else []
           else []) = []) as ->.
  { repeat case_bool_decide; done. }
  rewrite (foldl_record_unless
             (fun NS : BlockId * nat => bool_decide (NS.1 ∈ SuccsOfPred))
             (fun NS => DomInsert Pred NS.1)).
  simpl. unfold record. destruct DTU; [|by destruct (bool_decide _)].
  set (ins := _ <$> _).
  assert (forallb isInsert ins = true) as Hins
    by (by apply forallb_fmap_const).
  destruct (bool_decide _); rewrite !insertsFirst_app, ?forallb_app, Hins;
    done.
Qed.

Lemma removeSuccessors_appends DTU SelectBB DestBB succs :
  forall RemovedSuccessors Updates f,
    exists dels,
      (removeSuccessors DTU SelectBB DestBB succs RemovedSuccessors Updates
         f).2 = Updates ++ dels /\
      forallb isDelete dels = true.
Proof.
  induction succs as [|Succ succs IH]; intros Removed Updates f; simpl.
  - exists []. by rewrite app_nil_r.
  - case_decide; [apply IH|].
    destruct (DTU && negb (bool_decide (Succ ∈ Removed))); [|apply IH].
    destruct (IH (Succ :: Removed) (Updates ++ [DomDelete SelectBB Succ])
                (removePredecessor Succ SelectBB f)) as (dels & -> & Hd).
    exists (DomDelete SelectBB Succ :: dels). by rewrite <- app_assoc.
Qed.

Lemma select_insertsFirst DTU SelectBB SIsuccs PHI DestBB SelectValue f :
  insertsFirst
    (RemoveSwitchAfterSelectConversion DTU SelectBB SIsuccs PHI DestBB
       SelectValue f).2 = true.
Proof.
  unfold RemoveSwitchAfterSelectConversion.
  match goal with
  | |- context [removeSuccessors _ _ _ _ _ ?U ?g] =>
      set (Updates := U); set (f1 := g)
  end.
  destruct (removeSuccessors_appends DTU SelectBB DestBB SIsuccs [] Updates f1)
    as (dels & Heq & Hd).
  destruct (removeSuccessors _ _ _ _ _ _ _) as [f2 Updates']. simpl in *.
  subst Updates'. rewrite insertsFirst_app.
  assert (forallb isInsert Updates = true) as ->
    by (unfold Updates; by destruct (_ && _)).
  by apply insertsFirst_deletes.
Qed.

Lemma pairs_lookup {A} (ins del : A -> DomUpdate) (l : list A) k x :
  l !! k = Some x ->
  (x ← l; [ins x; del x]) !! (2 * k) = Some (ins x) /\
  (x ← l; [ins x; del x]) !! (2 * k + 1) = Some (del x).
Proof.
  revert k. induction l as [|y l IH]; intros [|k] Hk; simpl in *; try done.
  - by inversion Hk.
  - replace (k + S (k + 0)) with (S (2 * k)) by lia.
    replace (S (2 * k) + 1) with (S (2 * k + 1)) by lia. simpl.
    by apply IH.
Qed.

Lemma merge_insertsFirst BB OtherPred Preds Succs :
  insertsFirst (TryToMergeLandingPad_Updates true BB OtherPred Preds Succs)
  = bool_decide (length Preds <= 1).
Proof.
  unfold TryToMergeLandingPad_Updates.
  rewrite (foldl_record_pair (fun Pred => DomInsert Pred OtherPred)
             (fun Pred => DomDelete Pred BB)),
    (foldl_record (DomDelete BB)). simpl.
  assert (forallb isDelete (DomDelete BB <$> Succs) = true) as Hd
    by (by apply forallb_fmap_const).
  destruct Preds as [|p [|q Preds]]; simpl.
  - by apply insertsFirst_deletes.
  - done.
  - done.
Qed.

(** C5, as the code has it.  The batches of [HoistThenElseCodeToIf],
    of [PerformValueComparisonIntoPredecessorFolding] and of the conversion
    of a switch to selects record every [Insert] before any [Delete].
    [TryToMergeLandingPad] records, for each predecessor it redirects, the
    [Insert] of the new edge directly followed by the [Delete] of the old
    one, so that in its batch all [Insert]s come first only when at most one
    predecessor is redirected. *)
Theorem update_batches_order :
  (forall DTU BIParent successorsBB1 successorsBI,
     InsertsFirst
       (HoistThenElseCodeToIf_Updates DTU BIParent successorsBB1
          successorsBI)) /\
  (forall DTU Pred BB PredDefault BBDefault NewSuccessors SuccsOfPred
          NewSISuccessors InfLoopBlock,
     InsertsFirst
       (PerformValueComparisonIntoPredecessorFolding_Updates DTU Pred BB
          PredDefault BBDefault NewSuccessors SuccsOfPred NewSISuccessors
          InfLoopBlock)) /\
  (forall DTU SelectBB SIsuccs PHI DestBB SelectValue f,
     InsertsFirst
       (RemoveSwitchAfterSelectConversion DTU SelectBB SIsuccs PHI DestBB
          SelectValue f).2) /\
  (forall BB OtherPred Preds Succs,
     let Updates := TryToMergeLandingPad_Updates true BB OtherPred Preds Succs in
     (forall k Pred, Preds !! k = Some Pred ->
        Updates !! (2 * k) = Some (DomInsert Pred OtherPred) /\
        Updates !! (2 * k + 1) = Some (DomDelete Pred BB)) /\
     (InsertsFirst Updates <-> length Preds <= 1)).
Proof.
  split_and!.
  - intros. apply insertsFirst_spec, hoist_insertsFirst.
  - intros. apply insertsFirst_spec, folding_insertsFirst.
  - intros. apply insertsFirst_spec, select_insertsFirst.
  - intros BB OtherPred Preds Succs Updates. split.
    + intros k Pred Hk. unfold Updates, TryToMergeLandingPad_Updates.
      rewrite (foldl_record_pair (fun Pred => DomInsert Pred OtherPred)
                 (fun Pred => DomDelete Pred BB)),
        (foldl_record (DomDelete BB)). simpl.
      destruct (pairs_lookup (fun Pred => DomInsert Pred OtherPred)
                  (fun Pred => DomDelete Pred BB) Preds k Pred Hk)
        as [Hi Hd].
      split; apply lookup_app_l_Some; [exact Hi|exact Hd].
    + rewrite <- insertsFirst_spec. unfold Updates.
      rewrite merge_insertsFirst. by rewrite bool_decide_eq_true.
Qed.

Lemma update_batches_order_witness :
  let Updates := TryToMergeLandingPad_Updates true 3 4 [1] [5] in
  Updates !! (2 * 0) = Some (DomInsert 1 4) /\
  Updates !! (2 * 0 + 1) = Some (DomDelete 1 3) /\
  InsertsFirst Updates.
Proof.
  destruct (proj2 (proj2 (proj2 update_batches_order)) 3 4 [1] [5])
    as [Hpair Hfirst].
  destruct (Hpair 0 1 eq_refl) as [Hi Hd].
  split; [exact Hi|]. split; [exact Hd|].
  apply Hfirst. simpl. lia.
Defined.

(** C5 fails as stated: when [TryToMergeLandingPad] merges the landing-pad
    block 3, which the invokes of blocks 1 and 2 unwind to and which
    branches to block 5, into the identical block 4, the [Insert] of the
    edge from 2 to 4 is recorded after the [Delete] of the edge from 1
    to 3. *)
Lemma landing_pad_merge_interleaves :
  TryToMergeLandingPad_Updates true 3 4 [1; 2] [5]
  = [DomInsert 1 4; DomDelete 1 3; DomInsert 2 4; DomDelete 2 3;
     DomDelete 3 5] /\
  ~ InsertsFirst (TryToMergeLandingPad_Updates true 3 4 [1; 2] [5]).
Proof.
  split; [reflexivity|]. intros H.
  specialize (H 1 2 (DomDelete 1 3) (DomInsert 2 4)
                eq_refl eq_refl eq_refl eq_refl). lia.
Qed.

End DomUpdatesFacts.


(** ** Branch weights *)

Module Weights.
Import AP.

(** Modelled from the spec: [countLeadingZeros] is not part of the sources
    at hand.  For a 64-bit word it is the number of zero bits above the
    highest bit that is set, and 64 for the word zero. *)
Definition countLeadingZeros (x : Z) : Z :=
  if decide (x = 0) then 64 else 63 - Z.log2 x.

(** [*std::max_element(begin, end)]; nothing for the empty range. *)
Definition max_element (l : list Z) : option Z :=
  match l with
  | [] => None
  | x :: l' => Some (foldl Z.max x l')
  end.

(** [FitWeights] on 64-bit weights. *)
Definition FitWeights (Weights : list Z) : option (list Z) :=
  Max ← max_element Weights;
  if decide (UINT_MAX < Max) then
    let Offset := 32 - countLeadingZeros Max in
    Some ((fun I => Z.shiftr I Offset) <$> Weights)
  else Some Weights.

End Weights.

Module WeightsFacts.
Import AP Weights.

Lemma foldl_max_ge x l : x <= foldl Z.max x l.
Proof.
  revert x. induction l as [|y l IH]; intros x; simpl; [lia|].
  specialize (IH (Z.max x y)). lia.
Qed.

Lemma foldl_max_bound x l w : w ∈ l -> w <= foldl Z.max x l.
Proof.
  revert x. induction l as [|y l IH]; intros x Hw; simpl.
  - by apply elem_of_nil in Hw.
  - apply elem_of_cons in Hw as [->|Hw]; [|by apply IH].
    pose proof (foldl_max_ge (Z.max x y) l). lia.
Qed.

Lemma max_element_bound l Max w :
  max_element l = Some Max -> w ∈ l -> w <= Max.
Proof.
  destruct l as [|x l]; [done|]. intros [= <-] Hw.
  apply elem_of_cons in Hw as [->|Hw];
    [apply foldl_max_ge|by apply foldl_max_bound].
Qed.

Lemma max_element_elem l Max : max_element l = Some Max -> Max ∈ l.
Proof.
  destruct l as [|x l]; [done|]. intros [= <-].
  assert (forall y, foldl Z.max y l = y \/ foldl Z.max y l ∈ l) as H.
  { induction l as [|z l IH]; intros y; simpl; [by left|].
    destruct (IH (Z.max y z)) as [->|Hin].
    - destruct (Z.max_spec y z) as [[_ ->]|[_ ->]];
        [right; by left|by left].
    - right. by right. }
  destruct (H x) as [->|Hin]; [by left|by right].
Qed.

(** X1. [FitWeights] keeps the number and the order of the weights; the
    weights it returns all fit in 32 bits, and they are the weights it was
    given when the largest of those already fits. *)
Theorem FitWeights_fits Weights Fitted :
  Forall (fun w => 0 <= w < 2 ^ 64) Weights ->
  FitWeights Weights = Some Fitted ->
  length Fitted = length Weights /\
  Forall (fun w => 0 <= w <= UINT_MAX) Fitted /\
  (Forall (fun w => w <= UINT_MAX) Weights -> Fitted = Weights) /\
  forall i j a b a' b',
    Weights !! i = Some a -> Weights !! j = Some b ->
    Fitted !! i = Some a' -> Fitted !! j = Some b' ->
    a <= b -> a' <= b'.
Proof.
  intros Hrange. unfold FitWeights.
  destruct (max_element Weights) as [Max|] eqn:HMax; [|done]. simpl.
  pose proof (max_element_elem _ _ HMax) as HMaxIn.
  rewrite Forall_forall in Hrange. pose proof (Hrange _ HMaxIn) as HMaxR.
  case_decide as Hbig; intros [= <-].
  - unfold countLeadingZeros. rewrite decide_False by (unfold UINT_MAX in *; lia).
    set (Offset := 32 - (63 - Z.log2 Max)).
    assert (32 <= Z.log2 Max) as Hlog.
    { apply Z.log2_le_pow2; unfold UINT_MAX in *; lia. }
    assert (Z.log2 Max < 64) as Hlog'.
    { apply Z.log2_lt_pow2; unfold UINT_MAX in *; lia. }
    assert (0 < Offset) by (unfold Offset; lia).
    split; [by rewrite length_fmap|]. split_and!.
    + apply Forall_fmap, Forall_forall. intros w Hw. simpl.
      pose proof (Hrange _ Hw) as Hwr.
      pose proof (max_element_bound _ _ _ HMax Hw) as Hle.
      rewrite Z.shiftr_div_pow2 by lia. split.
      { apply Z.div_pos; lia. }
      assert (w / 2 ^ Offset < 2 ^ 32); [|unfold UINT_MAX; lia].
      apply Z.div_lt_upper_bound; [lia|].
      rewrite <- Z.pow_add_r by lia.
      replace (Offset + 32) with (Z.succ (Z.log2 Max)) by (unfold Offset; lia).
      assert (0 < Max) as Hpos by (unfold UINT_MAX in *; lia).
      pose proof (Z.log2_spec Max Hpos). lia.
    + intros Hfit. rewrite Forall_forall in Hfit.
      specialize (Hfit _ HMaxIn). lia.
    + intros i j a b a' b' Hi Hj Hi' Hj' Hab.
      rewrite list_lookup_fmap, Hi in Hi'. rewrite list_lookup_fmap, Hj in Hj'.
      simpl in *. inversion Hi'; inversion Hj'; subst.
      rewrite !Z.shiftr_div_pow2 by lia.
      apply Z.div_le_mono; lia.
  - split; [done|]. split_and!.
    + apply Forall_forall. intros w Hw.
      pose proof (Hrange _ Hw). pose proof (max_element_bound _ _ _ HMax Hw).
      lia.
    + done.
    + intros i j a b a' b' Hi Hj Hi' Hj' Hab. congruence.
Qed.

Lemma FitWeights_fits_witness :
  length [2 ^ 31; 1] = length [2 ^ 33; 7] /\
  Forall (fun w => 0 <= w <= UINT_MAX) [2 ^ 31; 1].
Proof.
  destruct (FitWeights_fits [2 ^ 33; 7] [2 ^ 31; 1]) as (H1 & H2 & _).
  - repeat constructor; lia.
  - reflexivity.
  - split; [exact H1|exact H2].
Defined.

End WeightsFacts.


(** ** Cases of a comparison of a value for equality *)

Module ValueComparison.
Local Open Scope nat_scope.

(** A constant is uniqued, so that the pointer [Value] stands for it; the
    cases are ordered by that pointer. *)
Record ValueEqualityComparisonCase := mkCase {
  Value : nat;
  Dest : IR.BlockId
}.

#[global] Instance ValueEqualityComparisonCase_eq_dec :
  EqDecision ValueEqualityComparisonCase.
Proof. solve_decision. Defined.

(** [operator<], made reflexive for the sort. *)
Definition case_le (a b : ValueEqualityComparisonCase) : Prop :=
  Value a <= Value b.

#[global] Instance case_le_dec a b : Decision (case_le a b).
Proof. unfold case_le. apply _. Defined.

(** [array_pod_sort(begin, end)]. *)
Definition array_pod_sort (V : list ValueEqualityComparisonCase)
    : list ValueEqualityComparisonCase :=
  merge_sort case_le V.

(** [EliminateBlockCases]. *)
Definition EliminateBlockCases (BB : IR.BlockId)
    (Cases : list ValueEqualityComparisonCase)
    : list ValueEqualityComparisonCase :=
  filter (fun c => Dest c <> BB) Cases.

(** The scan of [V2] for the one value of [V1]. *)
Fixpoint scanFor (TheVal : nat) (V2 : list ValueEqualityComparisonCase)
    : bool :=
  match V2 with
  | [] => false
  | c :: V2' => if decide (TheVal = Value c) then true else scanFor TheVal V2'
  end.

(** The loop over the two sorted vectors. *)
Fixpoint compareSorted (V1 : list ValueEqualityComparisonCase)
    : list ValueEqualityComparisonCase -> bool :=
  fix inner (V2 : list ValueEqualityComparisonCase) : bool :=
    match V1, V2 with
    | [], _ | _, [] => false
    | a :: V1', b :: V2' =>
        if decide (Value a = Value b) then true
        else if decide (Value a < Value b) then compareSorted V1' V2
        else inner V2'
    end.

(** [ValuesOverlap]: the verdict, and the two vectors as the call leaves
    them. *)
Definition ValuesOverlap (C1 C2 : list ValueEqualityComparisonCase)
    : bool * list ValueEqualityComparisonCase
      * list ValueEqualityComparisonCase :=
  let swapped := bool_decide (length C2 < length C1) in
  let V1 := if swapped then C2 else C1 in
  let V2 := if swapped then C1 else C2 in
  let out (r : bool) (V1 V2 : list ValueEqualityComparisonCase) :=
    if swapped then (r, V2, V1) else (r, V1, V2) in
  match V1 with
  | [] => out false V1 V2
  | c :: rest =>
      if bool_decide (rest = []) && scanFor (Value c) V2 then out true V1 V2
      else
        let V1 := array_pod_sort V1 in
        let V2 := array_pod_sort V2 in
        out (compareSorted V1 V2) V1 V2
  end.

End ValueComparison.

Module ValueComparisonFacts.
Import ValueComparison.
Local Open Scope nat_scope.

(** The two vectors have a value in common. *)
Definition Overlap (C1 C2 : list ValueEqualityComparisonCase) : Prop :=
  exists a b, a ∈ C1 /\ b ∈ C2 /\ Value a = Value b.

#[local] Instance case_le_trans : Transitive case_le.
Proof. unfold case_le. intros a b c. lia. Qed.

#[local] Instance case_le_total : Total case_le.
Proof. unfold case_le. intros a b. lia. Qed.

Lemma scanFor_spec TheVal V2 :
  scanFor TheVal V2 = true <-> exists b, b ∈ V2 /\ TheVal = Value b.
Proof.
  induction V2 as [|c V2 IH]; simpl.
  - split; [done|]. intros (b & Hb & _). by apply elem_of_nil in Hb.
  - case_decide as Hc.
    + split; [|done]. intros _. exists c. split; [by left|done].
    + rewrite IH. split.
      * intros (b & Hb & Heq). exists b. split; [by right|done].
      * intros (b & Hb & Heq). apply elem_of_cons in Hb as [->|Hb]; [done|].
        by exists b.
Qed.

Lemma compareSorted_spec V1 : forall V2,
  StronglySorted case_le V1 -> StronglySorted case_le V2 ->
  compareSorted V1 V2 = true <-> Overlap V1 V2.
Proof.
  unfold Overlap.
  induction V1 as [|a V1 IH1]; intros V2 H1 H2.
  { destruct V2; simpl; (split; [done|]);
      intros (x & y & Hx & _); by apply elem_of_nil in Hx. }
  induction V2 as [|b V2 IH2].
  { simpl. split; [done|]. intros (x & y & _ & Hy & _).
    by apply elem_of_nil in Hy. }
  apply StronglySorted_inv in H1 as [H1 Ha].
  apply StronglySorted_inv in H2 as Hinv. destruct Hinv as [H2' Hb].
  rewrite Forall_forall in Ha, Hb. unfold case_le in Ha, Hb.
  cbn [compareSorted]. case_decide as Heq.
  { split; [|done]. intros _. exists a, b. split; [by left|].
    split; [by left|done]. }
  case_decide as Hlt.
  - rewrite (IH1 (b :: V2) H1 H2). split.
    + intros (x & y & Hx & Hy & Hxy). exists x, y. split; [by right|done].
    + intros (x & y & Hx & Hy & Hxy).
      apply elem_of_cons in Hx as [->|Hx]; [|by exists x, y].
      apply elem_of_cons in Hy as [->|Hy]; [done|].
      specialize (Hb _ Hy). lia.
  - change ((fix inner (V2 : list ValueEqualityComparisonCase) : bool :=
               match V2 with
               | [] => false
               | b :: V2' =>
                   if decide (Value a = Value b) then true
                   else if decide (Value a < Value b)
                        then compareSorted V1 V2
                        else inner V2'
               end) V2) with (compareSorted (a :: V1) V2).
    rewrite (IH2 H2'). split.
    + intros (x & y & Hx & Hy & Hxy). exists x, y.
      split; [done|]. split; [by right|done].
    + intros (x & y & Hx & Hy & Hxy).
      apply elem_of_cons in Hy as [->|Hy]; [|by exists x, y].
      apply elem_of_cons in Hx as [->|Hx]; [done|].
      specialize (Ha _ Hx). lia.
Qed.

Lemma Overlap_sym C1 C2 : Overlap C1 C2 -> Overlap C2 C1.
Proof. intros (a & b & Ha & Hb & Heq). by exists b, a. Qed.

Lemma Overlap_perm C1 C2 C1' C2' :
  C1' ≡ₚ C1 -> C2' ≡ₚ C2 -> Overlap C1' C2' <-> Overlap C1 C2.
Proof.
  intros H1 H2. unfold Overlap. split; intros (a & b & Ha & Hb & Heq);
    exists a, b; [rewrite <- H1, <- H2|rewrite H1, H2]; done.
Qed.

Lemma scan_or_sort_spec V1 V2 c rest :
  V1 = c :: rest ->
  let r := if bool_decide (rest = []) && scanFor (Value c) V2 then true
           else compareSorted (array_pod_sort V1) (array_pod_sort V2) in
  r = true <-> Overlap V1 V2.
Proof.
  intros ->. simpl.
  destruct (bool_decide (rest = []) && scanFor (Value c) V2) eqn:Hscan.
  - split; [|done]. intros _.
    apply andb_true_iff in Hscan as [_ Hscan].
    apply scanFor_spec in Hscan as (b & Hb & Heq).
    exists c, b. split; [by left|done].
  - unfold array_pod_sort.
    rewrite compareSorted_spec by (apply StronglySorted_merge_sort; apply _).
    apply Overlap_perm; apply merge_sort_Permutation.
Qed.

(** X2. [ValuesOverlap] answers true exactly when some value is a case of
    both vectors, whatever their order and sizes, and it leaves each vector
    with the cases it had, possibly reordered. *)
Theorem ValuesOverlap_spec C1 C2 :
  ((ValuesOverlap C1 C2).1.1 = true <-> Overlap C1 C2) /\
  (ValuesOverlap C1 C2).1.2 ≡ₚ C1 /\
  (ValuesOverlap C1 C2).2 ≡ₚ C2.
Proof.
  unfold ValuesOverlap.
  destruct (bool_decide (length C2 < length C1)) eqn:Hswap.
  - destruct C2 as [|c rest] eqn:HC2.
    { simpl. split; [|done]. split; [done|].
      intros (a & b & _ & Hb & _). by apply elem_of_nil in Hb. }
    rewrite <- HC2.
    pose proof (scan_or_sort_spec C2 C1 c rest HC2) as Hspec. simpl in Hspec.
    destruct (bool_decide (rest = []) && scanFor (Value c) C1); simpl.
    + split; [|done]. rewrite Hspec. split; apply Overlap_sym.
    + split; [|split; apply merge_sort_Permutation].
      rewrite Hspec. split; apply Overlap_sym.
  - destruct C1 as [|c rest] eqn:HC1.
    { simpl. split; [|done]. split; [done|].
      intros (a & b & Ha & _). by apply elem_of_nil in Ha. }
    rewrite <- HC1.
    pose proof (scan_or_sort_spec C1 C2 c rest HC1) as Hspec. simpl in Hspec.
    destruct (bool_decide (rest = []) && scanFor (Value c) C2); simpl.
    + by split.
    + split; [done|]. split; apply merge_sort_Permutation.
Qed.

End ValueComparisonFacts.


(** ** A switch over a range of values *)

Module SwitchRange.
Import AP Const IR.
Local Open Scope nat_scope.

(** [APInt::ult]. *)
Definition ult (a b : APInt) : bool :=
  bool_decide (getZExtValue a < getZExtValue b)%Z.

(** The constants are uniqued: equal pointers are equal values. *)
Definition ConstantIntSortPredicate (LHS RHS : APInt) : Z :=
  if decide (LHS = RHS) then 0%Z
  else if ult LHS RHS then 1%Z else (-1)%Z.

(** [LHS] may stand before [RHS] in a vector sorted with the predicate. *)
Definition sortsBefore (LHS RHS : APInt) : Prop :=
  (ConstantIntSortPredicate LHS RHS <= 0)%Z.

#[global] Instance sortsBefore_dec a b : Decision (sortsBefore a b).
Proof. unfold sortsBefore. apply _. Defined.

(** [array_pod_sort(begin, end, ConstantIntSortPredicate)]. *)
Definition array_pod_sort (Cases : list APInt) : list APInt :=
  merge_sort sortsBefore Cases.

(** [getValue() + 1]. *)
Definition succAP (c : APInt) : APInt :=
  get (BitWidth c) (getZExtValue c + 1).

(** The loop of [CasesAreContiguous] over the sorted vector. *)
Fixpoint adjacentCases (Cases : list APInt) : bool :=
  match Cases with
  | prev :: (c :: _) as rest =>
      if decide (prev <> succAP c) then false else adjacentCases rest
  | _ => true
  end.

(** [CasesAreContiguous]: the verdict and the vector, which the call
    sorts; nothing when the vector is empty. *)
Definition CasesAreContiguous (Cases : list APInt)
    : option (bool * list APInt) :=
  match Cases with
  | [] => None
  | _ =>
      let Cases := array_pod_sort Cases in
      Some (adjacentCases Cases, Cases)
  end.

(** The loop that partitions the cases by destination; nothing when there
    are more than two destinations. *)
Fixpoint partitionCases (cases : list (APInt * BlockId))
    (DestA DestB : option BlockId) (CasesA CasesB : list APInt)
    : option (option BlockId * option BlockId * list APInt * list APInt) :=
  match cases with
  | [] => Some (DestA, DestB, CasesA, CasesB)
  | (CaseValue, Dest) :: cases' =>
      let DestA := match DestA with None => Some Dest | _ => DestA end in
      if decide (Some Dest = DestA)
      then partitionCases cases' DestA DestB (CasesA ++ [CaseValue]) CasesB
      else
        let DestB := match DestB with None => Some Dest | _ => DestB end in
        if decide (Some Dest = DestB)
        then partitionCases cases' DestA DestB CasesA (CasesB ++ [CaseValue])
        else None
  end.

(** [removeIncomingValue(BB)], [n] times over.  The call asserts that [BB]
    is an incoming block, and it erases a PHI node left without incoming
    values, which the loop over the PHI nodes does not survive. *)
Fixpoint removeIncomingValues (n : nat) (BB : BlockId) (pn : PHINode)
    : option PHINode :=
  match n with
  | 0 => Some pn
  | S n' =>
      _ ← getBasicBlockIndex pn BB;
      let pn' := removeIncomingValue BB pn in
      match incoming pn' with
      | [] => None
      | _ => removeIncomingValues n' BB pn'
      end
  end.

(** One of the two loops that prune the PHI nodes of a destination.
    [PreviousEdges - 1] is computed on unsigned numbers. *)
Definition prunePHIs (Dest BB : BlockId) (PreviousEdges : nat)
    (f : Function) : option Function :=
  match PreviousEdges with
  | 0 => None
  | S E =>
      bb ← getBlock f Dest;
      ps ← mapM (removeIncomingValues E BB) (phis bb);
      Some (updBlock Dest (setPhis ps) f)
  end.

(** The compare that is built for the contiguous cases, sorted. *)
Definition buildRangeCompare (BB : BlockId) (Cond : Value)
    (ContiguousCases : list APInt) (f : Function)
    : option (Value * Function) :=
  back ← last ContiguousCases;
  let Offset := get (BitWidth back) (- getZExtValue back) in
  let NumCases :=
    get (BitWidth back) (Z.of_nat (length ContiguousCases)) in
  let '(Sub, f1) :=
    if decide (getZExtValue Offset = 0%Z) then (Cond, f)
    else emit BB Add [Cond; VConst (ConstantInt Offset)] f in
  if decide (getZExtValue NumCases = 0%Z)
  then Some (VConst (ConstantInt (mk 1 1)), f1)
  else Some (emit BB ICmpULT [Sub; VConst (ConstantInt NumCases)] f1).

Section WithHelpers.

(** [createUnreachableSwitchDefault] rests on [SplitBlockPredecessors] and
    [SplitBlock], which are not part of the sources at hand. *)
Variable createUnreachableSwitchDefault : BlockId -> Function -> Function.

Variable DTU : bool.

(** [TurnSwitchRangeIntoICmp] on the switch that ends [BB]: the verdict,
    the function and the batch handed to the updater at the end; nothing
    when an assertion fails. *)
Definition TurnSwitchRangeIntoICmp (f : Function) (BB : BlockId)
    : option (bool * Function * list DomUpdate) :=
  bb ← getBlock f BB;
  match term bb with
  | Switch Cond DefaultDest cases =>
      if decide (length cases <= 1) then None else
      dbb ← getBlock f DefaultDest;
      let HasDefault := negb (SwitchSelect.startsWithUnreachable dbb) in
      match partitionCases cases
              (if HasDefault then Some DefaultDest else None) None [] [] with
      | None => Some (false, f, [])
      | Some (Some DestA, Some DestB, CasesA, CasesB) =>
          if decide (DestA = DestB) then None else
          if decide (DestB = DefaultDest) then None else
          if decide (CasesB = []) then None else
          if bool_decide (CasesA = []) && negb HasDefault then None else
          '(okA, sortedA) ←
            match CasesA with
            | [] => Some (false, CasesA)
            | _ => CasesAreContiguous CasesA
            end;
          chosen ←
            (if okA : bool then Some (Some (sortedA, DestA, DestB))
             else
               '(okB, sortedB) ← CasesAreContiguous CasesB;
               Some (if okB : bool then Some (sortedB, DestB, DestA)
                     else None));
          match chosen with
          | None => Some (false, f, [])
          | Some (ContiguousCases, ContiguousDest, OtherDest) =>
              '(Cmp, f1) ← buildRangeCompare BB Cond ContiguousCases f;
              f2 ← prunePHIs ContiguousDest BB
                     (length ContiguousCases
                      + (if decide (ContiguousDest = DefaultDest)
                         then 1 else 0)) f1;
              f3 ← prunePHIs OtherDest BB
                     (length cases - length ContiguousCases
                      + (if decide (OtherDest = DefaultDest)
                         then 1 else 0)) f2;
              let f4 :=
                if HasDefault then f3
                else createUnreachableSwitchDefault BB f3 in
              bb4 ← getBlock f4 BB;
              match term bb4 with
              | Switch _ UnreachableDefault _ =>
                  Some (true,
                        updBlock BB
                          (setTerm (CondBr Cmp ContiguousDest OtherDest)) f4,
                        if negb HasDefault && DTU
                        then [DomDelete BB UnreachableDefault] else [])
              | _ => None
              end
          end
      | Some _ => None
      end
  | _ => None
  end.

End WithHelpers.

End SwitchRange.

Module SwitchRangeFacts.
Import AP Const IR IRFacts Eval SwitchRange.
Local Open Scope Z_scope.

Lemma sortsBefore_iff a b :
  sortsBefore a b <-> a = b \/ getZExtValue b <= getZExtValue a.
Proof.
  unfold sortsBefore, ConstantIntSortPredicate, ult.
  case_decide as Heq; [by split; [left|]|].
  case_bool_decide; split; try lia; intros [?|?]; done || lia.
Qed.

#[local] Instance sortsBefore_trans : Transitive sortsBefore.
Proof.
  intros a b c. rewrite !sortsBefore_iff.
  intros [->|Hab] [->|Hbc]; auto. right. lia.
Qed.

#[local] Instance sortsBefore_total : Total sortsBefore.
Proof.
  intros a b. rewrite !sortsBefore_iff.
  destruct (decide (getZExtValue b <= getZExtValue a)); [left|right];
    right; lia.
Qed.

(** The cases have the width [w] and their values fit in it. *)
Definition CasesOfWidth (w : nat) (Cases : list APInt) : Prop :=
  Forall (fun c => BitWidth c = w /\ wf c) Cases.

(** The values go down by one from each case to the next. *)
Fixpoint Descending (Cases : list APInt) : Prop :=
  match Cases with
  | prev :: (c :: _) as rest =>
      getZExtValue prev = getZExtValue c + 1 /\ Descending rest
  | _ => True
  end.

Lemma pow2_gt_1 (w : nat) : (0 < w)%nat -> 1 < 2 ^ Z.of_nat w.
Proof.
  intros Hw. replace (Z.of_nat w) with (Z.succ (Z.of_nat (w - 1))) by lia.
  rewrite Z.pow_succ_r by lia.
  assert (0 < 2 ^ Z.of_nat (w - 1)) by (apply Z.pow_pos_nonneg; lia). lia.
Qed.

Lemma succAP_step w prev c :
  (0 < w)%nat -> BitWidth prev = w -> wf prev -> BitWidth c = w -> wf c ->
  sortsBefore prev c ->
  prev = succAP c <-> getZExtValue prev = getZExtValue c + 1.
Proof.
  intros Hw Hwp Hp Hwc Hc Hs. pose proof (pow2_gt_1 w Hw) as Hpow.
  unfold wf in *. rewrite Hwp in Hp. rewrite Hwc in Hc.
  unfold succAP, get, wrap. rewrite Hwc. split.
  - intros Heq. apply sortsBefore_iff in Hs.
    assert (getZExtValue prev
            = (getZExtValue c + 1) mod 2 ^ Z.of_nat w) as Hv
      by (by rewrite Heq at 1).
    destruct (decide (getZExtValue c + 1 < 2 ^ Z.of_nat w)) as [Hlt|Hge].
    + by rewrite Z.mod_small in Hv by lia.
    + assert (getZExtValue c + 1 = 2 ^ Z.of_nat w) as Htop by lia.
      rewrite Htop, Z.mod_same in Hv by lia.
      destruct Hs as [->|Hs]; lia.
  - intros Hv. destruct prev as [wp vp]. simpl in *. subst wp.
    f_equal. rewrite Z.mod_small; lia.
Qed.

Lemma adjacentCases_spec w Cases :
  (0 < w)%nat -> CasesOfWidth w Cases -> StronglySorted sortsBefore Cases ->
  adjacentCases Cases = true <-> Descending Cases.
Proof.
  intros Hw. induction Cases as [|prev [|c rest] IH]; intros Hwd Hs;
    [done|done|].
  apply Forall_cons in Hwd as [[Hwp Hp] Hwd].
  pose proof Hwd as Hwd'. apply Forall_cons in Hwd' as [[Hwc Hc] _].
  apply StronglySorted_inv in Hs as [Hs Hall].
  apply Forall_cons in Hall as [Hpc _].
  cbn [adjacentCases Descending].
  rewrite <- (succAP_step w prev c) by done.
  case_decide as Hne.
  - split; [done|]. by intros [? _].
  - rewrite (IH Hwd Hs). by split; [|intros [_ ?]].
Qed.

Lemma Descending_lookup Cases hi :
  head Cases = Some hi ->
  Descending Cases <->
  forall i c, Cases !! i = Some c ->
    getZExtValue c = getZExtValue hi - Z.of_nat i.
Proof.
  revert hi. induction Cases as [|prev [|c rest] IH]; intros hi Hhi;
    [done| |]; simpl in Hhi; inversion Hhi; subst prev; clear Hhi.
  - split; [|done]. intros _ [|i] c Hc; [|done].
    inversion Hc; subst. lia.
  - cbn [Descending]. rewrite (IH c eq_refl). split.
    + intros [Hstep Hrest] [|i] c' Hc'.
      { inversion Hc'; subst. lia. }
      specialize (Hrest i c' Hc'). lia.
    + intros H. split.
      { specialize (H 1%nat c eq_refl). lia. }
      intros i c' Hc'. pose proof (H 1%nat c eq_refl) as H1.
      specialize (H (S i) c' Hc'). lia.
Qed.

Lemma APInt_eq (a b : APInt) :
  BitWidth a = BitWidth b -> getZExtValue a = getZExtValue b -> a = b.
Proof. destruct a, b. simpl. by intros -> ->. Qed.

(** In a descending vector the last case holds the least value, and the
    cases are the values from there up. *)
Lemma Descending_range w sorted hi :
  CasesOfWidth w sorted -> head sorted = Some hi -> Descending sorted ->
  exists lo,
    last sorted = Some lo /\
    getZExtValue lo = getZExtValue hi - (Z.of_nat (length sorted) - 1) /\
    forall x, BitWidth x = w ->
      x ∈ sorted <->
      getZExtValue lo <= getZExtValue x
        < getZExtValue lo + Z.of_nat (length sorted).
Proof.
  intros Hwd Hhi Hdesc.
  rewrite (Descending_lookup sorted hi Hhi) in Hdesc.
  destruct (last sorted) as [lo|] eqn:Hlast.
  2: { apply last_None in Hlast. by subst. }
  exists lo. split; [done|].
  rewrite last_lookup in Hlast.
  pose proof (Hdesc _ _ Hlast) as Hlo.
  assert (0 < length sorted)%nat as Hlen.
  { apply lookup_lt_Some in Hlast. lia. }
  split; [lia|]. intros x Hx. split.
  - intros Hin. apply list_elem_of_lookup_1 in Hin as [i Hi].
    pose proof (lookup_lt_Some _ _ _ Hi). specialize (Hdesc _ _ Hi). lia.
  - intros Hr.
    set (i := Z.to_nat (getZExtValue hi - getZExtValue x)).
    assert (i < length sorted)%nat as Hi by lia.
    apply lookup_lt_is_Some_2 in Hi as [c Hc].
    pose proof (Hdesc _ _ Hc) as Hv.
    unfold CasesOfWidth in Hwd. rewrite Forall_forall in Hwd.
    destruct (Hwd c) as [Hwc _]; [by eapply list_elem_of_lookup_2|].
    assert (x = c) as -> by (apply APInt_eq; [congruence|lia]).
    by eapply list_elem_of_lookup_2.
Qed.

(** X3. [CasesAreContiguous] sorts the cases by descending value and
    answers true exactly when each value is one more than the next, so
    that the cases are then the values of a range that does not wrap
    around, the least one in the last place. *)
Theorem CasesAreContiguous_spec w Cases r sorted :
  (0 < w)%nat -> CasesOfWidth w Cases ->
  CasesAreContiguous Cases = Some (r, sorted) ->
  sorted ≡ₚ Cases /\ StronglySorted sortsBefore sorted /\
  exists hi lo,
    head sorted = Some hi /\ last sorted = Some lo /\
    (r = true <->
     forall i c, sorted !! i = Some c ->
       getZExtValue c = getZExtValue hi - Z.of_nat i) /\
    (r = true ->
     getZExtValue lo + Z.of_nat (length Cases) <= 2 ^ Z.of_nat w /\
     forall x, BitWidth x = w ->
       x ∈ Cases <->
       getZExtValue lo <= getZExtValue x
         < getZExtValue lo + Z.of_nat (length Cases)).
Proof.
  intros Hw Hwd. unfold CasesAreContiguous.
  destruct Cases as [|c0 Cases0] eqn:HC; [done|]. rewrite <- HC in *.
  intros [= <- <-]. unfold array_pod_sort.
  pose proof (merge_sort_Permutation sortsBefore Cases) as Hperm.
  pose proof (StronglySorted_merge_sort sortsBefore Cases) as Hsorted.
  set (sorted := merge_sort sortsBefore Cases) in *.
  assert (CasesOfWidth w sorted) as Hwd'.
  { unfold CasesOfWidth. by rewrite Hperm. }
  split; [done|]. split; [done|].
  destruct sorted as [|hi rest] eqn:Hs.
  { apply Permutation_nil_l in Hperm. congruence. }
  rewrite <- Hs in *.
  assert (head sorted = Some hi) as Hhi by (by rewrite Hs).
  destruct (last sorted) as [lo|] eqn:Hlast.
  2: { apply last_None in Hlast. congruence. }
  exists hi, lo. split; [done|]. split; [done|].
  rewrite (adjacentCases_spec w sorted Hw Hwd' Hsorted). split.
  - apply Descending_lookup. done.
  - intros Hdesc.
    destruct (Descending_range w sorted hi Hwd' Hhi Hdesc)
      as (lo' & Hlast' & Hlo & Hmem).
    assert (lo' = lo) as -> by congruence.
    rewrite <- (Permutation_length Hperm). split.
    + unfold CasesOfWidth in Hwd'. rewrite Forall_forall in Hwd'.
      destruct (Hwd' hi) as [Hwhi Hhiwf];
        [rewrite Hs; by left|]. unfold wf in Hhiwf. rewrite Hwhi in Hhiwf.
      lia.
    + intros x Hx. rewrite <- Hperm. by apply Hmem.
Qed.

Lemma CasesAreContiguous_spec_witness :
  exists hi lo,
    head [get 8 7; get 8 6; get 8 5] = Some hi /\
    last [get 8 7; get 8 6; get 8 5] = Some lo /\
    getZExtValue lo + 3 <= 2 ^ 8.
Proof.
  destruct (CasesAreContiguous_spec 8 [get 8 6; get 8 5; get 8 7] true
              [get 8 7; get 8 6; get 8 5])
    as (_ & _ & hi & lo & Hhi & Hlo & _ & Hrange).
  - lia.
  - repeat constructor; vm_compute; done.
  - reflexivity.
  - exists hi, lo. split; [exact Hhi|]. split; [exact Hlo|].
    by destruct (Hrange eq_refl) as [Hb _].
Defined.

(** *** The compare that replaces the switch *)

(** What the instructions that are built compute: the addition at the
    width of its operands and the unsigned comparison. *)
Definition runInst (args : list Constant) (regs : Regs) (i : Instruction)
    : option Constant :=
  match opcode i, operands i with
  | Add, [a; b] =>
      match evalValue args regs a, evalValue args regs b with
      | Some (ConstantInt x), Some (ConstantInt y) =>
          Some (ConstantInt
                  (get (BitWidth x) (getZExtValue x + getZExtValue y)))
      | _, _ => None
      end
  | ICmpULT, [a; b] =>
      match evalValue args regs a, evalValue args regs b with
      | Some (ConstantInt x), Some (ConstantInt y) => Some (i1 (ult x y))
      | _, _ => None
      end
  | _, _ => evalInst args regs i
  end.

Fixpoint runInsts (args : list Constant) (regs : Regs)
    (il : list Instruction) : option Regs :=
  match il with
  | [] => Some regs
  | i :: il' =>
      c ← runInst args regs i;
      runInsts args ((inst_id i, c) :: regs) il'
  end.

Lemma sub_mod_range M lo n x :
  0 <= lo -> 0 < n -> lo + n <= M -> 0 <= x < M ->
  (n mod M = 0 -> lo <= x < lo + n) /\
  (n mod M <> 0 ->
   n mod M = n /\ ((x - lo) mod M < n <-> lo <= x < lo + n)).
Proof.
  intros Hlo Hn Hsum Hx. split.
  - intros Hz. destruct (decide (n < M)) as [Hlt|Hge].
    + rewrite Z.mod_small in Hz; lia.
    + lia.
  - intros Hnz. destruct (decide (n < M)) as [Hlt|Hge].
    2: { assert (n = M) as -> by lia. rewrite Z.mod_same in Hnz; lia. }
    split; [apply Z.mod_small; lia|].
    destruct (decide (lo <= x)) as [Hle|Hgt].
    + rewrite Z.mod_small by lia. lia.
    + replace (x - lo) with (x - lo + M + (-1) * M) by lia.
      rewrite Z.mod_add, Z.mod_small by lia. lia.
Qed.

Lemma neg_mod_zero M lo : 0 <= lo < M -> (- lo) mod M = 0 -> lo = 0.
Proof.
  intros Hlo Hz. destruct (decide (lo = 0)) as [|Hne]; [done|].
  replace (- lo) with (M - lo + (-1) * M) in Hz by lia.
  rewrite Z.mod_add, Z.mod_small in Hz; lia.
Qed.

Lemma evalValue_fresh args regs id c :
  evalValue args ((id, c) :: regs) (VInst id) = Some c.
Proof. simpl. by rewrite decide_True. Qed.

Lemma ult_get w x n :
  0 <= n < 2 ^ Z.of_nat w ->
  ult x (get w n) = bool_decide (getZExtValue x < n).
Proof. intros Hn. unfold ult, get. simpl. by rewrite wrap_small. Qed.

(** X4. The compare that [TurnSwitchRangeIntoICmp] builds for the
    contiguous cases is true exactly on the values of those cases: run on a
    value of the condition, the instructions appended to the block (at most
    an addition and an unsigned comparison) leave in the compare whether the
    value is one of the cases. *)
Theorem range_compare_decides w Cases sorted BB Cond f Cmp f' bb args regs x :
  (0 < w)%nat -> CasesOfWidth w Cases ->
  CasesAreContiguous Cases = Some (true, sorted) ->
  getBlock f BB = Some bb ->
  buildRangeCompare BB Cond sorted f = Some (Cmp, f') ->
  evalValue args regs Cond = Some (ConstantInt x) ->
  BitWidth x = w -> wf x ->
  exists new regs',
    getBlock f' BB = Some (setInsts (insts bb ++ new) bb) /\
    (length new <= 2)%nat /\
    runInsts args regs new = Some regs' /\
    evalValue args regs' Cmp = Some (i1 (bool_decide (x ∈ Cases))).
Proof.
  intros Hw Hwd Hcont Hbb Hbuild Hcond Hwx Hx.
  destruct (CasesAreContiguous_spec w Cases true sorted Hw Hwd Hcont)
    as (Hperm & _ & hi & lo & _ & Hlast & _ & Hrange).
  destruct (Hrange eq_refl) as [Hbound Hmem]. clear Hrange.
  specialize (Hmem x Hwx).
  assert (lo ∈ Cases) as Hlo.
  { rewrite <- Hperm. rewrite last_lookup in Hlast.
    by eapply list_elem_of_lookup_2. }
  unfold CasesOfWidth in Hwd. rewrite Forall_forall in Hwd.
  destruct (Hwd lo Hlo) as [Hwlo Hlowf].
  unfold wf in Hx, Hlowf. rewrite Hwx in Hx. rewrite Hwlo in Hlowf.
  assert (0 < length Cases)%nat as Hlen.
  { destruct Cases; [by apply elem_of_nil in Hlo|simpl; lia]. }
  unfold buildRangeCompare in Hbuild. rewrite Hlast in Hbuild.
  cbn [mbind option_bind] in Hbuild.
  rewrite (Permutation_length Hperm), Hwlo in Hbuild.
  set (M := 2 ^ Z.of_nat w) in *. set (n := Z.of_nat (length Cases)) in *.
  destruct (sub_mod_range M (getZExtValue lo) n (getZExtValue x))
    as [Hall Hsome]; [lia|lia|lia|lia|].
  unfold get, wrap in Hbuild. cbn [getZExtValue] in Hbuild. fold M in Hbuild.
  destruct (decide ((- getZExtValue lo) mod M = 0)) as [Hoff|Hoff].
  - apply neg_mod_zero in Hoff as Hlo0; [|lia].
    destruct (decide (n mod M = 0)) as [Hnum|Hnum].
    + inversion Hbuild; subst Cmp f'. exists [], regs.
      rewrite app_nil_r. split; [by destruct bb|]. split; [simpl; lia|].
      split; [done|]. simpl. unfold i1.
      rewrite bool_decide_eq_true_2; [done|]. apply Hmem. by apply Hall.
    + inversion Hbuild; subst Cmp f'. clear Hbuild.
      destruct (Hsome Hnum) as [Hn Htest].
      eexists [_], _. split.
      { change (mkFn ?bs ?i) with (emit BB ICmpULT
          [Cond; VConst (ConstantInt (mk w (n mod M)))] f).2.
        by rewrite getBlock_emit, decide_True, Hbb. }
      split; [simpl; lia|]. split.
      { simpl. unfold runInst. simpl. rewrite Hcond. simpl. done. }
      rewrite evalValue_fresh. do 2 f_equal.
      unfold ult. simpl. rewrite Hn. apply bool_decide_ext.
      rewrite Hmem, Hlo0. lia.
  - destruct (decide (n mod M = 0)) as [Hnum|Hnum].
    + inversion Hbuild; subst Cmp f'. clear Hbuild.
      eexists [_], _. split.
      { change (mkFn ?bs ?i) with (emit BB Add
          [Cond; VConst (ConstantInt (mk w ((- getZExtValue lo) mod M)))]
          f).2.
        by rewrite getBlock_emit, decide_True, Hbb. }
      split; [simpl; lia|]. split.
      { simpl. unfold runInst. simpl. rewrite Hcond. simpl. done. }
      simpl. unfold i1. rewrite bool_decide_eq_true_2; [done|].
      apply Hmem. by apply Hall.
    + inversion Hbuild; subst Cmp f'. clear Hbuild.
      destruct (Hsome Hnum) as [Hn Htest].
      set (add := mkInst (next_id f) Add
                    [Cond; VConst (ConstantInt
                                     (mk w ((- getZExtValue lo) mod M)))]).
      set (f1 := (emit BB Add (operands add) f).2).
      set (cmp := mkInst (next_id f1) ICmpULT
                    [VInst (next_id f);
                     VConst (ConstantInt (mk w (n mod M)))]).
      exists [add; cmp]. eexists. split.
      { change (mkFn ?bs ?i) with (emit BB ICmpULT (operands cmp) f1).2.
        rewrite getBlock_emit, decide_True by done. unfold f1.
        rewrite getBlock_emit, decide_True, Hbb by done. simpl.
        unfold setInsts. simpl. by rewrite <- app_assoc. }
      split; [simpl; lia|]. split.
      { simpl. unfold runInst. simpl. rewrite Hcond. simpl.
        rewrite decide_True by done. simpl. done. }
      rewrite evalValue_fresh. do 2 f_equal.
      unfold ult, get, wrap. simpl. rewrite Hwx. fold M. rewrite Hn.
      apply bool_decide_ext. rewrite Hmem, <- Htest.
      by rewrite Zplus_mod_idemp_r.
Qed.

Lemma range_compare_decides_witness :
  exists Cmp f' new regs',
    buildRangeCompare 0%nat (VArg 0) [get 8 7; get 8 6; get 8 5]
      (mkFn [(0%nat, mkBB [] [] (Ret None))] 1%nat) = Some (Cmp, f') /\
    runInsts [ConstantInt (get 8 6)] [] new = Some regs' /\
    evalValue [ConstantInt (get 8 6)] regs' Cmp
    = Some (i1 (bool_decide (get 8 6 ∈ [get 8 6; get 8 5; get 8 7]))).
Proof.
  assert (CasesOfWidth 8 [get 8 6; get 8 5; get 8 7]) as Hwd
    by (repeat constructor; vm_compute; done).
  assert (wf (get 8 6)) as Hx by (vm_compute; done).
  destruct (range_compare_decides 8 [get 8 6; get 8 5; get 8 7]
              [get 8 7; get 8 6; get 8 5] 0%nat (VArg 0)
              (mkFn [(0%nat, mkBB [] [] (Ret None))] 1%nat) _ _
              (mkBB [] [] (Ret None)) [ConstantInt (get 8 6)] [] (get 8 6)
              ltac:(lia) Hwd eq_refl eq_refl eq_refl eq_refl eq_refl Hx)
    as (new & regs' & _ & _ & Hrun & Hcmp).
  eexists _, _, new, regs'. split; [reflexivity|]. split; [exact Hrun|].
  exact Hcmp.
Defined.

(** *** The PHI nodes of the two destinations *)

Local Open Scope nat_scope.

(** The entries of a PHI node for the incoming block [BB]. *)
Definition incomingCount (pn : PHINode) (BB : BlockId) : nat :=
  length (filter (fun e : Value * BlockId => e.2 = BB) (incoming pn)).

(** The edges from [BB] to [Succ]. *)
Definition edgesFrom (f : Function) (BB Succ : BlockId) : nat :=
  match getBlock f BB with
  | Some bb => length (filter (fun s => s = Succ) (successors (term bb)))
  | None => 0
  end.

(** Every PHI node has one entry for [BB] per edge from [BB] to its
    block. *)
Definition PHIsMatchEdges (f : Function) (BB : BlockId) : Prop :=
  forall Succ sbb pn,
    getBlock f Succ = Some sbb -> pn ∈ phis sbb ->
    incomingCount pn BB = edgesFrom f BB Succ.

Lemma removeFirst_other BB b l :
  b <> BB ->
  filter (fun e : Value * BlockId => e.2 = b) (removeFirst BB l)
  = filter (fun e : Value * BlockId => e.2 = b) l.
Proof.
  intros Hb. induction l as [|e l IH]; simpl; [done|].
  case_decide as He.
  - rewrite filter_cons_False by congruence. done.
  - rewrite !filter_cons. by rewrite IH.
Qed.

Lemma removeFirst_count BB l i x :
  list_find (fun e : Value * BlockId => e.2 = BB) l = Some (i, x) ->
  S (length (filter (fun e : Value * BlockId => e.2 = BB) (removeFirst BB l)))
  = length (filter (fun e : Value * BlockId => e.2 = BB) l).
Proof.
  revert i. induction l as [|e l IH]; intros i; simpl; [done|].
  case_decide as He.
  - intros _. by rewrite filter_cons_True.
  - destruct (list_find _ l) as [[j y]|] eqn:E; simpl; [|done].
    intros [= <- <-]. rewrite !filter_cons_False by done. by apply (IH j).
Qed.

Lemma removeIncomingValues_spec n BB : forall pn pn',
  removeIncomingValues n BB pn = Some pn' ->
  phi_id pn' = phi_id pn /\
  incomingCount pn' BB + n = incomingCount pn BB /\
  forall b, b <> BB ->
    filter (fun e : Value * BlockId => e.2 = b) (incoming pn')
    = filter (fun e : Value * BlockId => e.2 = b) (incoming pn).
Proof.
  induction n as [|n IH]; intros pn pn'; simpl.
  { intros [= <-]. split; [done|]. split; [lia|done]. }
  unfold getBasicBlockIndex.
  destruct (list_find _ (incoming pn)) as [[i x]|] eqn:E; simpl; [|done].
  destruct (removeFirst BB (incoming pn)) eqn:Hinc; [done|]. clear Hinc.
  intros H. apply IH in H as (Hid & Hcount & Hother).
  split; [done|]. unfold incomingCount in *. simpl in *.
  pose proof (removeFirst_count BB (incoming pn) i x E). split; [lia|].
  intros b Hb. rewrite Hother by done. by apply removeFirst_other.
Qed.

Lemma mapM_removeIncomingValues n BB ps ps' :
  mapM (removeIncomingValues n BB) ps = Some ps' ->
  forall pn', pn' ∈ ps' ->
    exists pn, pn ∈ ps /\ removeIncomingValues n BB pn = Some pn'.
Proof.
  intros H pn' Hin. apply mapM_Some in H.
  apply list_elem_of_lookup_1 in Hin as [i Hi].
  destruct (Forall2_lookup_r _ _ _ _ _ H Hi) as (pn & Hpn & Hrm).
  exists pn. split; [by eapply list_elem_of_lookup_2|done].
Qed.

(** The cases that lead to [D]. *)
Definition casesTo (D : BlockId) (cases : list (APInt * BlockId)) : nat :=
  length (filter (fun c : APInt * BlockId => c.2 = D) cases).

Lemma partitionCases_spec cases : forall DA DB CA CB DA' DB' CA' CB',
  (DB <> None -> DA <> None /\ DA <> DB) ->
  partitionCases cases DA DB CA CB = Some (DA', DB', CA', CB') ->
  (forall a, DA = Some a -> DA' = Some a) /\
  (forall b, DB = Some b -> DB' = Some b) /\
  (DB' <> None -> DA' <> None /\ DA' <> DB') /\
  (forall a, DA' = Some a -> length CA' = length CA + casesTo a cases) /\
  (forall b, DB' = Some b -> length CB' = length CB + casesTo b cases) /\
  (forall c, c ∈ cases -> Some c.2 = DA' \/ Some c.2 = DB').
Proof.
  unfold casesTo.
  induction cases as [|[v D] cases IH]; intros DA DB CA CB DA' DB' CA' CB' Hinv;
    simpl.
  { intros [= <- <- <- <-]. split_and!; try done; try (intros; simpl; lia).
    intros c Hc. by apply elem_of_nil in Hc. }
  set (DA1 := match DA with None => Some D | _ => DA end).
  assert (forall a, DA = Some a -> DA1 = Some a) as HDA1
    by (intros a ->; done).
  assert (DA1 <> None) as HDA1' by (unfold DA1; by destruct DA).
  case_decide as HA.
  - intros H. apply IH in H as (H1 & H1' & H2 & H3 & H4 & H5).
    2: { intros HDB. destruct (Hinv HDB) as [Hn Hne]. split; [done|].
         unfold DA1. destruct DA; [done|]. done. }
    assert (DA1 = DA') as HDa.
    { destruct DA1 as [a1|] eqn:E; [|done]. by rewrite (H1 a1 eq_refl). }
    split_and!.
    + intros a Ha. apply H1. by apply HDA1.
    + done.
    + done.
    + intros a Ha. rewrite (H3 a Ha), length_app. simpl.
      rewrite filter_cons_True by (simpl; congruence). simpl. lia.
    + intros b Hb. rewrite (H4 b Hb).
      destruct (H2 ltac:(congruence)) as [_ Hne].
      rewrite filter_cons_False by (simpl; congruence). done.
    + intros c Hc. apply elem_of_cons in Hc as [->|Hc]; [|by apply H5].
      left. simpl. congruence.
  - set (DB1 := match DB with None => Some D | _ => DB end).
    assert (forall b, DB = Some b -> DB1 = Some b) as HDB1
      by (intros b ->; done).
    case_decide as HB; [|done].
    intros H. apply IH in H as (H1 & H1' & H2 & H3 & H4 & H5).
    2: { intros _. split; [done|]. congruence. }
    assert (DA1 = DA') as HDa.
    { destruct DA1 as [a1|] eqn:E; [|done]. by rewrite (H1 a1 eq_refl). }
    assert (DB1 = DB') as HDb.
    { rewrite <- HB. symmetry. by apply H1'. }
    split_and!.
    + intros a Ha. apply H1. by apply HDA1.
    + intros b Hb. apply H1'. by apply HDB1.
    + done.
    + intros a Ha. rewrite (H3 a Ha).
      rewrite filter_cons_False by (simpl; congruence). done.
    + intros b Hb. rewrite (H4 b Hb), length_app. simpl.
      rewrite filter_cons_True by (simpl; congruence). simpl. lia.
    + intros c Hc. apply elem_of_cons in Hc as [->|Hc]; [|by apply H5].
      right. simpl. congruence.
Qed.

Lemma edges_of_switch Cond D cases Succ :
  length (filter (fun s => s = Succ) (successors (Switch Cond D cases)))
  = (if decide (D = Succ) then 1 else 0) + casesTo Succ cases.
Proof.
  simpl. unfold casesTo. rewrite filter_cons.
  assert (length (filter (fun s => s = Succ) (cases.*2))
          = length (filter (fun c : APInt * BlockId => c.2 = Succ) cases))
    as Hcount.
  { induction cases as [|c cases IH]; [done|]. rewrite fmap_cons.
    rewrite !filter_cons. repeat case_decide; simpl; try done; by rewrite IH. }
  case_decide; simpl; by rewrite Hcount.
Qed.

Lemma casesTo_split A B cases :
  A <> B -> (forall c, c ∈ cases -> c.2 = A \/ c.2 = B) ->
  length cases = casesTo A cases + casesTo B cases.
Proof.
  intros Hne. unfold casesTo. induction cases as [|c cases IH]; intros H;
    [done|].
  rewrite !filter_cons. simpl. rewrite IH.
  2: { intros c' Hc'. apply H. by right. }
  destruct (H c) as [Hc|Hc]; [by left| |];
    repeat case_decide; simpl; try lia; congruence.
Qed.

Lemma casesTo_none A B D cases :
  D <> A -> D <> B -> (forall c, c ∈ cases -> c.2 = A \/ c.2 = B) ->
  casesTo D cases = 0.
Proof.
  intros HA HB. unfold casesTo. induction cases as [|c cases IH]; intros H;
    [done|].
  rewrite filter_cons_False.
  - apply IH. intros c' Hc'. apply H. by right.
  - destruct (H c) as [Hc|Hc]; [by left| |]; congruence.
Qed.

Lemma CasesAreContiguous_length Cases r sorted :
  CasesAreContiguous Cases = Some (r, sorted) -> length sorted = length Cases.
Proof.
  unfold CasesAreContiguous. destruct Cases as [|c Cases]; [done|].
  intros [= _ <-]. unfold array_pod_sort.
  by rewrite (merge_sort_Permutation sortsBefore (c :: Cases)).
Qed.

Lemma buildRangeCompare_keeps BB Cond CC f Cmp f1 b :
  buildRangeCompare BB Cond CC f = Some (Cmp, f1) ->
  phisOf f1 b = phisOf f b /\ termOf f1 b = termOf f b.
Proof.
  unfold buildRangeCompare. destruct (last CC) as [back|]; [|done].
  cbn [mbind option_bind].
  destruct (decide (getZExtValue (get (BitWidth back) (- getZExtValue back))
                    = 0%Z)) as [Hoff|Hoff];
    destruct (decide (getZExtValue
                        (get (BitWidth back) (Z.of_nat (length CC))) = 0%Z))
      as [Hnum|Hnum]; intros [= <- <-].
  - done.
  - change (mkFn ?bs ?i) with
      (emit BB ICmpULT
         [Cond; VConst (ConstantInt
                          (get (BitWidth back) (Z.of_nat (length CC))))] f).2.
    by rewrite phisOf_emit, termOf_emit.
  - change (mkFn ?bs ?i) with
      (emit BB Add
         [Cond; VConst (ConstantInt
                          (get (BitWidth back) (- getZExtValue back)))] f).2.
    by rewrite phisOf_emit, termOf_emit.
  - set (f0 := (emit BB Add
         [Cond; VConst (ConstantInt
                          (get (BitWidth back) (- getZExtValue back)))] f).2).
    change (mkFn ?bs ?i) with
      (emit BB ICmpULT
         [VInst (next_id f);
          VConst (ConstantInt
                    (get (BitWidth back) (Z.of_nat (length CC))))] f0).2.
    rewrite phisOf_emit, termOf_emit. unfold f0.
    by rewrite phisOf_emit, termOf_emit.
Qed.

Lemma prunePHIs_spec Dest BB PreviousEdges f f' :
  prunePHIs Dest BB PreviousEdges f = Some f' ->
  0 < PreviousEdges /\
  (forall b, termOf f' b = termOf f b) /\
  (forall b, b <> Dest -> phisOf f' b = phisOf f b) /\
  exists ps ps',
    phisOf f Dest = Some ps /\ phisOf f' Dest = Some ps' /\
    mapM (removeIncomingValues (PreviousEdges - 1) BB) ps = Some ps'.
Proof.
  unfold prunePHIs. destruct PreviousEdges as [|E]; [done|].
  destruct (getBlock f Dest) as [bb|] eqn:Hbb; [|done]. simpl.
  destruct (mapM _ (phis bb)) as [ps'|] eqn:Hps; [|done]. simpl.
  intros [= <-]. split; [lia|]. split_and!.
  - intros b. by apply termOf_updBlock_keep.
  - intros b Hb. unfold phisOf. by rewrite getBlock_updBlock_ne.
  - exists (phis bb), ps'. unfold phisOf.
    rewrite (getBlock_updBlock_eq _ _ _ _ Hbb), Hbb. simpl.
    split; [done|]. split; [done|]. by rewrite Nat.sub_0_r.
Qed.

(** A PHI node after the pruning: the same node, with the entries it had
    for the blocks other than [BB]. *)
Definition Pruned (BB : BlockId) (pn pn' : PHINode) : Prop :=
  phi_id pn' = phi_id pn /\
  forall b, b <> BB ->
    filter (fun e : Value * BlockId => e.2 = b) (incoming pn')
    = filter (fun e : Value * BlockId => e.2 = b) (incoming pn).

Lemma Pruned_refl BB pn : Pruned BB pn pn.
Proof. by split. Qed.

Lemma Pruned_trans BB pn1 pn2 pn3 :
  Pruned BB pn1 pn2 -> Pruned BB pn2 pn3 -> Pruned BB pn1 pn3.
Proof.
  intros [H1 H2] [H3 H4]. split; [congruence|].
  intros b Hb. rewrite H4, H2; done.
Qed.

Lemma prunePHIs_Pruned Dest BB PreviousEdges f f' Succ ps' :
  prunePHIs Dest BB PreviousEdges f = Some f' ->
  phisOf f' Succ = Some ps' ->
  exists ps,
    phisOf f Succ = Some ps /\ Forall2 (Pruned BB) ps ps' /\
    (Succ = Dest ->
     Forall2 (fun pn pn' =>
                incomingCount pn' BB + (PreviousEdges - 1)
                = incomingCount pn BB) ps ps').
Proof.
  intros Hp Hps'.
  apply prunePHIs_spec in Hp as (_ & _ & Hother & ps0 & ps0' & H0 & H0' & Hm).
  destruct (decide (Succ = Dest)) as [->|Hne].
  - assert (ps0' = ps') as -> by congruence. exists ps0. split; [done|].
    apply mapM_Some in Hm. split; [|intros _].
    + eapply Forall2_impl; [exact Hm|]. intros pn pn' H.
      apply removeIncomingValues_spec in H as (? & ? & ?). by split.
    + eapply Forall2_impl; [exact Hm|]. intros pn pn' H.
      by apply removeIncomingValues_spec in H as (? & ? & ?).
  - exists ps'. rewrite <- Hother by done. split; [done|].
    split; [|done]. apply Forall_Forall2_diag, Forall_forall.
    intros pn _. apply Pruned_refl.
Qed.

(** X5. When [TurnSwitchRangeIntoICmp] replaces a switch whose default is
    reachable, and every PHI node had one entry for the block per edge from
    it, the block ends in a conditional branch to two different blocks, the
    other terminators are as they were, every PHI node again has one entry
    for the block per edge from it, its entries for the other blocks are
    untouched, and no update is recorded. *)
Theorem TurnSwitchRangeIntoICmp_phis usd DTU f BB f' Updates bb Cond
    DefaultDest cases dbb :
  getBlock f BB = Some bb -> term bb = Switch Cond DefaultDest cases ->
  getBlock f DefaultDest = Some dbb ->
  SwitchSelect.startsWithUnreachable dbb = false ->
  PHIsMatchEdges f BB ->
  TurnSwitchRangeIntoICmp usd DTU f BB = Some (true, f', Updates) ->
  Updates = [] /\
  (exists Cmp ContiguousDest OtherDest,
     termOf f' BB = Some (CondBr Cmp ContiguousDest OtherDest) /\
     ContiguousDest <> OtherDest) /\
  (forall b, b <> BB -> termOf f' b = termOf f b) /\
  PHIsMatchEdges f' BB /\
  forall Succ ps', phisOf f' Succ = Some ps' ->
    exists ps, phisOf f Succ = Some ps /\ Forall2 (Pruned BB) ps ps'.
Proof.
  intros Hbb Hterm Hdbb Hreach Hinv. unfold TurnSwitchRangeIntoICmp.
  rewrite Hbb. cbn [mbind option_bind]. rewrite Hterm.
  case_decide as Hnum; [done|]. rewrite Hdbb. cbn [mbind option_bind].
  rewrite Hreach. cbn [negb andb].
  destruct (partitionCases _ _ _ _ _) as [[[[DA DB] CasesA] CasesB]|] eqn:Hpart;
    [|done].
  destruct DA as [DestA|]; [|done]. destruct DB as [DestB|]; [|done].
  case_decide as HAB; [done|]. case_decide as HBD; [done|].
  case_decide as HCB; [done|]. rewrite andb_false_r.
  apply partitionCases_spec in Hpart as (HA & _ & _ & HlenA & HlenB & Hdest);
    [|done].
  specialize (HA _ eq_refl). inversion HA; subst DestA. clear HA.
  specialize (HlenA _ eq_refl). specialize (HlenB _ eq_refl).
  simpl in HlenA, HlenB.
  assert (forall c, c ∈ cases -> c.2 = DefaultDest \/ c.2 = DestB) as Hdest'.
  { intros c Hc. destruct (Hdest c Hc) as [H|H]; inversion H; auto. }
  clear Hdest.
  pose proof (casesTo_split _ _ _ HAB Hdest') as Hsplit.
  intros H.
  destruct (match CasesA with
            | [] => Some (false, CasesA)
            | _ :: _ => CasesAreContiguous CasesA
            end) as [[okA sortedA]|] eqn:HcA; [|done].
  cbn [mbind option_bind] in H.
  match type of H with
  | mbind ?k _ = _ => set (tail := k) in H
  end.
  assert (exists CC CD OD,
            tail (Some (CC, CD, OD)) = Some (true, f', Updates) /\
            CD <> OD /\
            (CD = DefaultDest /\ OD = DestB \/
             CD = DestB /\ OD = DefaultDest) /\
            length CC = casesTo CD cases)
    as (CC & CD & OD & Htail & Hne & Hwhich & HlenCC).
  { destruct okA.
    - exists sortedA, DefaultDest, DestB. split; [exact H|].
      split; [done|]. split; [by left|].
      destruct CasesA as [|c CasesA']; [done|].
      by rewrite (CasesAreContiguous_length _ _ _ HcA).
    - destruct (CasesAreContiguous CasesB) as [[okB sortedB]|] eqn:HcB;
        [|done].
      cbn [mbind option_bind] in H. destruct okB; [|done].
      exists sortedB, DestB, DefaultDest. split; [exact H|].
      split; [done|]. split; [by right|].
      by rewrite (CasesAreContiguous_length _ _ _ HcB). }
  clear H HcA. unfold tail in Htail. clear tail.
  destruct (buildRangeCompare BB Cond CC f) as [[Cmp f1]|] eqn:Hbuild; [|done].
  cbn [mbind option_bind] in Htail.
  destruct (prunePHIs CD BB _ f1) as [f2|] eqn:Hp1; [|done].
  cbn [mbind option_bind] in Htail.
  destruct (prunePHIs OD BB _ f2) as [f3|] eqn:Hp2; [|done].
  cbn [mbind option_bind] in Htail.
  destruct (getBlock f3 BB) as [bb4|] eqn:Hbb4; [|done].
  cbn [mbind option_bind] in Htail.
  destruct (term bb4) as [| |c4 d4 cs4| | | | |] eqn:Hterm4; try done.
  inversion Htail; subst f' Updates. clear Htail.
  pose proof (fun b => buildRangeCompare_keeps _ _ _ _ _ _ b Hbuild) as Hk.
  pose proof (prunePHIs_spec _ _ _ _ _ Hp1)
    as (Hpos1 & Ht1 & Ho1 & ps1 & ps1' & Hps1 & Hps1' & Hm1).
  pose proof (prunePHIs_spec _ _ _ _ _ Hp2)
    as (Hpos2 & Ht2 & Ho2 & ps2 & ps2' & Hps2 & Hps2' & Hm2).
  set (f' := updBlock BB (setTerm (CondBr Cmp CD OD)) f3).
  assert (forall b, phisOf f' b = phisOf f3 b) as Hphis'
    by (intros b; by apply phisOf_updBlock_keep).
  assert (getBlock f' BB = Some (setTerm (CondBr Cmp CD OD) bb4)) as Hbb'
    by (by apply getBlock_updBlock_eq).
  assert (forall Succ, edgesFrom f BB Succ
            = (if decide (DefaultDest = Succ) then 1 else 0)
              + casesTo Succ cases) as Hedges.
  { intros Succ. unfold edgesFrom. rewrite Hbb, Hterm.
    apply edges_of_switch. }
  assert (forall Succ, edgesFrom f' BB Succ
            = (if decide (CD = Succ) then 1 else 0)
              + (if decide (OD = Succ) then 1 else 0)) as Hedges'.
  { intros Succ. unfold edgesFrom. rewrite Hbb'. simpl.
    rewrite !filter_cons, filter_nil. by repeat case_decide. }
  split; [done|]. split.
  { exists Cmp, CD, OD. split; [|done]. unfold termOf. by rewrite Hbb'. }
  split.
  { intros b Hb. unfold termOf at 1. unfold f'.
    rewrite getBlock_updBlock_ne by done. fold (termOf f3 b).
    rewrite Ht2, Ht1. apply Hk. }
  split.
  - intros Succ sbb' pn' Hsbb' Hpn'.
    assert (phisOf f3 Succ = Some (phis sbb')) as Hf3.
    { rewrite <- Hphis'. unfold phisOf. by rewrite Hsbb'. }
    rewrite Hedges'.
    destruct (decide (Succ = CD)) as [->|HnCD].
    + rewrite Ho2 in Hf3 by done. rewrite Hps1' in Hf3.
      inversion Hf3; subst ps1'. clear Hf3.
      destruct (mapM_removeIncomingValues _ _ _ _ Hm1 pn' Hpn')
        as (pn & Hpn & Hrm).
      apply removeIncomingValues_spec in Hrm as (_ & Hcount & _).
      destruct (Hk CD) as [Hkp _]. rewrite Hkp in Hps1.
      unfold phisOf in Hps1.
      destruct (getBlock f CD) as [cbb|] eqn:Hcbb; [|done].
      inversion Hps1; subst ps1.
      pose proof (Hinv CD cbb pn Hcbb Hpn) as Hold. rewrite Hedges in Hold.
      rewrite decide_True by done. rewrite decide_False by done.
      repeat case_decide; try congruence; lia.
    + destruct (decide (Succ = OD)) as [->|HnOD].
      * rewrite Hps2' in Hf3. inversion Hf3; subst ps2'. clear Hf3.
        destruct (mapM_removeIncomingValues _ _ _ _ Hm2 pn' Hpn')
          as (pn & Hpn & Hrm).
        apply removeIncomingValues_spec in Hrm as (_ & Hcount & _).
        rewrite Ho1 in Hps2 by done.
        destruct (Hk OD) as [Hkp _]. rewrite Hkp in Hps2.
        unfold phisOf in Hps2.
        destruct (getBlock f OD) as [obb|] eqn:Hobb; [|done].
        inversion Hps2; subst ps2.
        pose proof (Hinv OD obb pn Hobb Hpn) as Hold. rewrite Hedges in Hold.
        rewrite decide_False by done. rewrite decide_True by done.
        destruct Hwhich as [[-> ->]|[-> ->]];
          repeat case_decide; try congruence; lia.
      * rewrite Ho2, Ho1 in Hf3 by done.
        destruct (Hk Succ) as [Hkp _]. rewrite Hkp in Hf3.
        unfold phisOf in Hf3.
        destruct (getBlock f Succ) as [sbb|] eqn:Hsbb; [|done].
        inversion Hf3 as [Heq].
        assert (pn' ∈ phis sbb) as Hin by (by rewrite Heq).
        rewrite (Hinv Succ sbb pn' Hsbb Hin), Hedges.
        rewrite (casesTo_none DefaultDest DestB Succ cases); [| | |done].
        -- destruct Hwhich as [[-> ->]|[-> ->]];
             repeat case_decide; try congruence; lia.
        -- destruct Hwhich as [[-> ->]|[-> ->]]; congruence.
        -- destruct Hwhich as [[-> ->]|[-> ->]]; congruence.
  - intros Succ ps' Hps'. rewrite Hphis' in Hps'.
    destruct (prunePHIs_Pruned _ _ _ _ _ _ _ Hp2 Hps') as (psb & Hpsb & HF2 & _).
    destruct (prunePHIs_Pruned _ _ _ _ _ _ _ Hp1 Hpsb) as (psa & Hpsa & HF1 & _).
    exists psa. split; [by rewrite <- (proj1 (Hk Succ))|].
    clear -HF1 HF2. revert ps' HF2.
    induction HF1 as [|pn pn2 psa psb Hp HF1 IH]; intros ps' HF2;
      inversion HF2; subst; constructor.
    + by eapply Pruned_trans.
    + by apply IH.
Qed.

(** A switch on a byte with the cases 5, 6 and 7, all to block 2, and a
    default that returns. *)
Definition byte_switch : Function :=
  mkFn
    [ (0, mkBB [] []
            (Switch (VArg 0) 1
               [(get 8 5, 2); (get 8 6, 2); (get 8 7, 2)]));
      (1, mkBB [] [] (Ret None));
      (2, mkBB [mkPHI 10 [(VArg 1, 0); (VArg 1, 0); (VArg 1, 0)]] []
            (Ret (Some (VInst 10)))) ]
    11.

Lemma byte_switch_phis : PHIsMatchEdges byte_switch 0.
Proof.
  intros Succ sbb pn Hs Hp.
  destruct Succ as [|[|[|Succ]]]; vm_compute in Hs; inversion Hs; subst sbb;
    simpl in Hp.
  - by apply elem_of_nil in Hp.
  - by apply elem_of_nil in Hp.
  - apply list_elem_of_singleton in Hp as ->. reflexivity.
Qed.

Lemma TurnSwitchRangeIntoICmp_phis_witness :
  exists f',
    TurnSwitchRangeIntoICmp (fun _ g => g) false byte_switch 0
    = Some (true, f', []) /\
    PHIsMatchEdges f' 0 /\
    phisOf f' 2 = Some [mkPHI 10 [(VArg 1, 0)]].
Proof.
  eexists. split; [reflexivity|].
  split; [|reflexivity].
  eapply (TurnSwitchRangeIntoICmp_phis (fun _ g => g) false byte_switch 0 _ _
            _ _ _ _ _ eq_refl eq_refl eq_refl eq_refl byte_switch_phis
            eq_refl).
Defined.

End SwitchRangeFacts.


(** ** Reducing the range of a switch *)

Module SwitchReduce.
Import AP.

(** [(uint64_t)v] and [(int64_t)v]. *)
Definition toU64 (v : Z) : Z := v mod 2 ^ 64.
Definition toI64 (v : Z) : Z :=
  let u := toU64 v in if decide (u < 2 ^ 63) then u else u - 2 ^ 64.

(** [getSExtValue()]. *)
Definition getSExtValue (a : APInt) : Z :=
  if decide (getZExtValue a < 2 ^ (Z.of_nat (BitWidth a) - 1))
  then getZExtValue a
  else getZExtValue a - 2 ^ Z.of_nat (BitWidth a).

Fixpoint trailingZeros (bits : nat) (x : Z) : Z :=
  match bits with
  | O => 0
  | S bits' => if Z.even x then 1 + trailingZeros bits' (x / 2) else 0
  end.

(** Modelled from the spec: [countTrailingZeros] is not part of the
    sources at hand.  For a 64-bit word it is the number of zero bits
    below the lowest bit that is set, and 64 for the word zero. *)
Definition countTrailingZeros (x : Z) : Z :=
  if decide (x = 0) then 64 else trailingZeros 64 x.

(** [isSwitchDense] on sorted signed values; nothing on no values. *)
Definition isSwitchDense (Values : list Z) : option bool :=
  front ← head Values;
  back ← last Values;
  let Diff := toU64 (toU64 back - toU64 front) in
  let Range := toU64 (Diff + 1) in
  let NumCases := Z.of_nat (length Values) in
  let MinDensity := 40 in
  Some (bool_decide (toU64 (Range * MinDensity) <= toU64 (NumCases * 100))).

(** What [ReduceSwitchRange] decides: the value subtracted from the
    condition, the amount of the rotation, and the new values of the
    cases, in the order of the cases. *)
Record Reduced := mkReduced {
  Base : Z;
  Shift : Z;
  NewCases : list APInt
}.

Section WithDataLayout.

Variable fitsInLegalInteger : nat -> bool.

(** [ReduceSwitchRange] for a condition of [w] bits: nothing when an
    assertion fails, no reduction when the function returns false. *)
Definition ReduceSwitchRange (w : nat) (cases : list APInt)
    : option (option Reduced) :=
  if bool_decide (64 < w)%nat || negb (fitsInLegalInteger w) then Some None
  else if bool_decide (length cases < 4)%nat then Some None
  else
    let Values := merge_sort Z.le (getSExtValue <$> cases) in
    dense ← isSwitchDense Values;
    if dense : bool then Some None
    else
      Base ← head Values;
      let Values := (fun V => toI64 (toU64 V - toU64 Base)) <$> Values in
      let Shift :=
        foldl (fun Shift V => Z.min Shift (countTrailingZeros (toU64 V)))
          64 Values in
      if decide (64 <= Shift) then None
      else
        let Values :=
          if decide (0 < Shift)
          then (fun V => toI64 (Z.shiftr (toU64 V) Shift)) <$> Values
          else Values in
        dense ← isSwitchDense Values;
        if negb dense then Some None
        else
          let ShiftC := get w Shift in
          Some (Some
                  {| Base := Base;
                     Shift := Shift;
                     NewCases :=
                       (fun Orig =>
                          let Sub := sub Orig (get w Base) in
                          get w (if decide (getZExtValue ShiftC < Z.of_nat w)
                                 then Z.shiftr (getZExtValue Sub)
                                        (getZExtValue ShiftC)
                                 else 0)) <$> cases |}).

End WithDataLayout.

(** The value of the rotation that is built for the condition [x]:
    [Sub = x - Base], [LShr = Sub >> Shift],
    [Shl = Sub << (BitWidth - Shift)], [Rot = LShr | Shl].  The amounts
    are constants of the type of the condition, the second one computed on
    unsigned numbers; a shift by the bit width or more has no value. *)
Definition rotated (w : nat) (Base Shift : Z) (x : APInt) : option APInt :=
  let Sub := sub x (get w Base) in
  let ShiftC := get w Shift in
  let amount := get w (wrap 32 (Z.of_nat w - Shift)) in
  if decide (Z.of_nat w <= getZExtValue ShiftC) then None
  else if decide (Z.of_nat w <= getZExtValue amount) then None
  else
    let LShr := Z.shiftr (getZExtValue Sub) (getZExtValue ShiftC) in
    let Shl :=
      wrap w (Z.shiftl (getZExtValue Sub) (getZExtValue amount)) in
    Some (mk w (Z.lor LShr Shl)).

End SwitchReduce.

Module SwitchReduceFacts.
Import AP SwitchReduce.

Lemma trailingZeros_range bits x : 0 <= trailingZeros bits x <= Z.of_nat bits.
Proof.
  revert x. induction bits as [|bits IH]; intros x; simpl; [lia|].
  destruct (Z.even x); [|lia]. specialize (IH (x / 2)). lia.
Qed.

Lemma trailingZeros_divides bits x : x mod 2 ^ trailingZeros bits x = 0.
Proof.
  revert x. induction bits as [|bits IH]; intros x; simpl.
  { apply Z.mod_1_r. }
  destruct (Z.even x) eqn:He; [|apply Z.mod_1_r].
  pose proof (trailingZeros_range bits (x / 2)) as Hr.
  rewrite Z.pow_add_r by lia. change (2 ^ 1) with 2.
  apply Zeven_bool_iff, Zeven_div2 in He. rewrite Z.div2_div in He.
  rewrite He at 1. rewrite Z.mul_mod_distr_l by (try apply Z.pow_nonzero; lia).
  by rewrite IH.
Qed.

Lemma trailingZeros_lt bits x m :
  0 < x < 2 ^ m -> 0 <= m -> trailingZeros bits x < m.
Proof.
  intros Hx Hm. pose proof (trailingZeros_divides bits x) as Hd.
  pose proof (trailingZeros_range bits x) as Hr.
  destruct (decide (trailingZeros bits x < m)) as [|Hge]; [done|].
  assert (2 ^ m <= 2 ^ trailingZeros bits x)
    by (apply Z.pow_le_mono_r; lia).
  rewrite Z.mod_small in Hd; lia.
Qed.

Lemma countTrailingZeros_range x : 0 <= countTrailingZeros x <= 64.
Proof.
  unfold countTrailingZeros. case_decide; [lia|].
  apply (trailingZeros_range 64).
Qed.

Lemma countTrailingZeros_divides x : x mod 2 ^ countTrailingZeros x = 0.
Proof.
  unfold countTrailingZeros. case_decide as Hx; [by subst|].
  apply trailingZeros_divides.
Qed.

Lemma countTrailingZeros_lt x m :
  0 < x < 2 ^ m -> 0 <= m -> countTrailingZeros x < m.
Proof.
  intros Hx Hm. unfold countTrailingZeros. rewrite decide_False by lia.
  by apply trailingZeros_lt.
Qed.

(** The fold that takes the least count of trailing zeros. *)
Lemma foldl_min_spec (g : Z -> Z) s Values :
  let Shift := foldl (fun Shift V => Z.min Shift (g V)) s Values in
  Shift <= s /\ (forall V, V ∈ Values -> Shift <= g V) /\
  (Shift = s \/ exists V, V ∈ Values /\ Shift = g V).
Proof.
  revert s. induction Values as [|V Values IH]; intros s; simpl.
  { split; [lia|]. split; [|by left]. intros V HV. by apply elem_of_nil in HV. }
  destruct (IH (Z.min s (g V))) as (H1 & H2 & H3).
  set (R := foldl _ (Z.min s (g V)) Values) in *. clearbody R.
  split; [lia|]. split.
  - intros V' HV'. apply elem_of_cons in HV' as [->|HV']; [lia|by apply H2].
  - destruct H3 as [H3|(V' & HV' & H3)].
    + destruct (Z.min_spec s (g V)) as [[_ Hm]|[_ Hm]].
      * left. lia.
      * right. exists V. split; [by left|lia].
    + right. exists V'. split; [by right|done].
Qed.

(** *** The rotation *)

Definition rot (w k S : Z) : Z :=
  Z.lor (Z.shiftr S k) (Z.shiftl S (w - k) mod 2 ^ w).

Lemma high_bits w S j : 0 <= S < 2 ^ w -> 0 <= w <= j -> Z.testbit S j = false.
Proof.
  intros HS Hj. rewrite <- (Z.mod_small S (2 ^ w)) by done.
  by apply Z.mod_pow2_bits_high.
Qed.

Lemma low_bits k S j : S mod 2 ^ k = 0 -> j < k -> Z.testbit S j = false.
Proof.
  intros HS Hj. destruct (decide (0 <= j)) as [Hpos|Hneg].
  - rewrite <- Z.mod_pow2_bits_low with (n := k) by lia. rewrite HS.
    apply Z.bits_0.
  - apply Z.testbit_neg_r. lia.
Qed.

Lemma rot_bit w k S i :
  0 < k < w -> 0 <= S < 2 ^ w -> 0 <= i ->
  Z.testbit (rot w k S) i
  = if decide (i < w - k) then Z.testbit S (i + k)
    else if decide (i < w) then Z.testbit S (i - (w - k)) else false.
Proof.
  intros Hk HS Hi. unfold rot. rewrite Z.lor_spec, Z.shiftr_spec by done.
  destruct (decide (i < w)) as [Hlt|Hge].
  - rewrite Z.mod_pow2_bits_low, Z.shiftl_spec by lia.
    case_decide as Hlow.
    + rewrite (Z.testbit_neg_r S (i - (w - k))) by lia. apply orb_false_r.
    + by rewrite (high_bits w S (i + k)) by lia.
  - rewrite Z.mod_pow2_bits_high by lia.
    rewrite (high_bits w S (i + k)) by lia.
    rewrite decide_False by lia. done.
Qed.

Lemma rot_inj w k S S' :
  0 < k < w -> 0 <= S < 2 ^ w -> 0 <= S' < 2 ^ w ->
  rot w k S = rot w k S' -> S = S'.
Proof.
  intros Hk HS HS' Heq. apply Z.bits_inj'. intros j Hj.
  destruct (decide (j < w)) as [Hlt|Hge].
  2: { by rewrite (high_bits w S j), (high_bits w S' j) by lia. }
  destruct (decide (k <= j)) as [Hkj|Hjk].
  - assert (Z.testbit (rot w k S) (j - k) = Z.testbit (rot w k S') (j - k))
      as Hb by (by rewrite Heq).
    rewrite !rot_bit in Hb by lia. repeat case_decide; try lia.
    by replace (j - k + k) with j in Hb by lia.
  - assert (Z.testbit (rot w k S) (j + (w - k))
            = Z.testbit (rot w k S') (j + (w - k))) as Hb by (by rewrite Heq).
    rewrite !rot_bit in Hb by lia. repeat case_decide; try lia.
    by replace (j + (w - k) - (w - k)) with j in Hb by lia.
Qed.

Lemma rot_aligned w k S :
  0 < k < w -> 0 <= S < 2 ^ w -> S mod 2 ^ k = 0 ->
  rot w k S = Z.shiftr S k.
Proof.
  intros Hk HS Hal. apply Z.bits_inj'. intros i Hi.
  rewrite rot_bit, Z.shiftr_spec by lia.
  case_decide as H1; [done|]. case_decide as H2.
  - rewrite (low_bits k S (i - (w - k))) by (done || lia).
    by rewrite (high_bits w S (i + k)) by lia.
  - by rewrite (high_bits w S (i + k)) by lia.
Qed.

(** *** The values of the cases *)

Lemma pow2_half (w : nat) :
  (0 < w)%nat -> 2 ^ Z.of_nat w = 2 * 2 ^ (Z.of_nat w - 1).
Proof.
  intros Hw. rewrite <- Z.pow_succ_r by lia. f_equal. lia.
Qed.

Lemma getSExtValue_spec (w : nat) c :
  (0 < w)%nat -> BitWidth c = w -> wf c ->
  - 2 ^ (Z.of_nat w - 1) <= getSExtValue c < 2 ^ (Z.of_nat w - 1) /\
  getSExtValue c mod 2 ^ Z.of_nat w = getZExtValue c.
Proof.
  intros Hw Hwc Hc. unfold wf in Hc. unfold getSExtValue. rewrite Hwc in *.
  pose proof (pow2_half w Hw) as Hhalf.
  case_decide as Hlt.
  - split; [lia|]. apply Z.mod_small. lia.
  - split; [lia|].
    replace (getZExtValue c - 2 ^ Z.of_nat w)
      with (getZExtValue c + (-1) * 2 ^ Z.of_nat w) by lia.
    rewrite Z.mod_add by lia. apply Z.mod_small. lia.
Qed.

Lemma toU64_toI64 v : toU64 (toI64 v) = toU64 v.
Proof.
  unfold toI64, toU64.
  assert (2 ^ 64 <> 0) as HM by (by apply Z.pow_nonzero).
  case_decide; [by rewrite Z.mod_mod|].
  replace (v mod 2 ^ 64 - 2 ^ 64) with (v mod 2 ^ 64 + (-1) * 2 ^ 64) by lia.
  rewrite Z.mod_add by done. by rewrite Z.mod_mod.
Qed.

Lemma toU64_sub a b : toU64 (toU64 a - toU64 b) = toU64 (a - b).
Proof. unfold toU64. by rewrite <- Zminus_mod. Qed.

(** Subtracting the base from every value. *)
Definition rebase (Base V : Z) : Z := toI64 (toU64 V - toU64 Base).

Lemma toU64_rebase Base V : toU64 (rebase Base V) = toU64 (V - Base).
Proof. unfold rebase. by rewrite toU64_toI64, toU64_sub. Qed.

Lemma isSwitchDense_rebase Base Values :
  isSwitchDense (rebase Base <$> Values) = isSwitchDense Values.
Proof.
  unfold isSwitchDense. rewrite length_fmap, fmap_last.
  destruct Values as [|front Values]; [done|]. cbn [fmap list_fmap head].
  cbn [mbind option_bind].
  destruct (last (front :: Values)) as [back|]; [|done]. simpl.
  assert (toU64 (toU64 (rebase Base back) - toU64 (rebase Base front))
          = toU64 (toU64 back - toU64 front)) as ->; [|done].
  rewrite !toU64_rebase, !toU64_sub. f_equal. lia.
Qed.

Lemma mod_pow2_le a n m : 0 <= m <= n -> a mod 2 ^ n = 0 -> a mod 2 ^ m = 0.
Proof.
  intros Hm Hn. apply Z.mod_divide in Hn; [|apply Z.pow_nonzero; lia].
  apply Z.mod_divide; [apply Z.pow_nonzero; lia|].
  etrans; [|exact Hn]. exists (2 ^ (n - m)).
  rewrite <- Z.pow_add_r by lia. f_equal. lia.
Qed.

Lemma sub_mod_inj M B x c :
  0 <= x < M -> 0 <= c < M -> (x - B) mod M = (c - B) mod M -> x = c.
Proof.
  intros Hx Hc Heq.
  assert (((x - B) mod M + B) mod M = ((c - B) mod M + B) mod M) as H
    by (by rewrite Heq).
  rewrite !Zplus_mod_idemp_l in H.
  replace (x - B + B) with x in H by lia.
  replace (c - B + B) with c in H by lia.
  by rewrite !Z.mod_small in H by lia.
Qed.

(** What [ReduceSwitchRange] has found when it reduces the switch. *)
Lemma ReduceSwitchRange_inv fits (w : nat) cases r :
  (0 < w)%nat -> Forall (fun c => BitWidth c = w /\ wf c) cases ->
  ReduceSwitchRange fits w cases = Some (Some r) ->
  (w <= 64)%nat /\ 0 < Shift r < Z.of_nat w /\
  (forall c, c ∈ cases ->
     0 <= getSExtValue c - Base r < 2 ^ Z.of_nat w /\
     (getSExtValue c - Base r) mod 2 ^ Shift r = 0) /\
  NewCases r
  = (fun Orig =>
       get w (Z.shiftr (getZExtValue (sub Orig (get w (Base r)))) (Shift r)))
      <$> cases.
Proof.
  intros Hw Hwd. unfold ReduceSwitchRange.
  destruct (bool_decide (64 < w)%nat || negb (fits w)) eqn:Hfit; [done|].
  apply orb_false_elim in Hfit as [Hw64 _].
  apply bool_decide_eq_false in Hw64.
  case_bool_decide as Hnum; [done|].
  set (Values := merge_sort Z.le (getSExtValue <$> cases)).
  destruct (isSwitchDense Values) as [dense0|] eqn:Hd0; [|done].
  cbn [mbind option_bind]. destruct dense0; [done|].
  destruct (head Values) as [B|] eqn:HB; [|done]. cbn [mbind option_bind].
  change (fun V => toI64 (toU64 V - toU64 B)) with (rebase B).
  pose proof (foldl_min_spec (fun V => countTrailingZeros (toU64 V)) 64
                (rebase B <$> Values)) as Hmin.
  cbv beta zeta in Hmin.
  set (Sh := foldl _ 64 (rebase B <$> Values)) in *.
  destruct Hmin as (_ & Hle & Hattained). clearbody Sh.
  case_decide as Hsh64; [done|].
  (* the values are the sign-extended cases, the base is the least *)
  pose proof (merge_sort_Permutation Z.le (getSExtValue <$> cases)) as Hperm.
  fold Values in Hperm.
  pose proof (StronglySorted_merge_sort Z.le (getSExtValue <$> cases))
    as Hsorted. fold Values in Hsorted.
  assert (forall V, V ∈ Values -> B <= V) as Hleast.
  { destruct Values as [|V0 Vs]; [done|]. simpl in HB. inversion HB; subst V0.
    apply StronglySorted_inv in Hsorted as [_ Hall].
    rewrite Forall_forall in Hall. intros V HV.
    apply elem_of_cons in HV as [->|HV]; [lia|by apply Hall]. }
  assert (forall V, V ∈ Values ->
            - 2 ^ (Z.of_nat w - 1) <= V < 2 ^ (Z.of_nat w - 1)) as Hrange.
  { intros V HV. rewrite Hperm in HV.
    apply list_elem_of_fmap in HV as (c & -> & Hc).
    rewrite Forall_forall in Hwd. destruct (Hwd c Hc) as [Hwc Hcwf].
    by apply getSExtValue_spec. }
  assert (B ∈ Values) as HBin.
  { destruct Values as [|V0 Vs]; [done|]. simpl in HB. inversion HB. by left. }
  pose proof (Hrange B HBin) as HBr.
  pose proof (pow2_half w Hw) as Hhalf.
  assert (2 ^ Z.of_nat w <= 2 ^ 64) as Hw64'
    by (apply Z.pow_le_mono_r; lia).
  assert (forall V, V ∈ Values ->
            0 <= V - B < 2 ^ Z.of_nat w /\
            toU64 (rebase B V) = V - B) as Hdiff.
  { intros V HV. pose proof (Hleast V HV). pose proof (Hrange V HV).
    split; [lia|]. rewrite toU64_rebase. unfold toU64.
    apply Z.mod_small. lia. }
  assert (0 <= Sh) as Hsh0.
  { destruct Hattained as [Heq|(V & _ & Heq)]; rewrite Heq; [lia|].
    apply countTrailingZeros_range. }
  destruct (decide (0 < Sh)) as [Hpos|Hzero].
  2: { rewrite isSwitchDense_rebase, Hd0. done. }
  assert (Sh < Z.of_nat w) as Hshw.
  { destruct Hattained as [Heq|(V1 & HV1 & Heq)]; [lia|].
    apply list_elem_of_fmap in HV1 as (V & -> & HV).
    destruct (Hdiff V HV) as [Hd Hu]. rewrite Hu in Heq.
    destruct (decide (V - B = 0)) as [Hz|Hnz].
    - rewrite Hz in Heq. unfold countTrailingZeros in Heq.
      rewrite decide_True in Heq by done. lia.
    - rewrite Heq. apply countTrailingZeros_lt; lia. }
  match goal with
  | |- mbind _ (isSwitchDense ?l) = _ -> _ =>
      destruct (isSwitchDense l) as [dense|]; [|done]
  end.
  cbn [mbind option_bind]. destruct dense; cbn [negb]; [|done].
  intros [= <-]. cbn [Base Shift NewCases].
  assert (Z.of_nat w < 2 ^ Z.of_nat w) as Hwpow
    by (apply Z.pow_gt_lin_r; lia).
  assert (getZExtValue (get w Sh) = Sh) as HshC
    by (unfold get; simpl; apply wrap_small; lia).
  split; [lia|]. split; [lia|]. split.
  - intros c Hc.
    assert (getSExtValue c ∈ Values) as HV.
    { rewrite Hperm. apply list_elem_of_fmap. by exists c. }
    destruct (Hdiff _ HV) as [Hd Hu]. split; [done|].
    apply (mod_pow2_le _ (countTrailingZeros (getSExtValue c - B)));
      [|apply countTrailingZeros_divides].
    split; [done|]. rewrite <- Hu. apply Hle.
    apply list_elem_of_fmap. by eexists.
  - apply list_fmap_ext. intros i c _. unfold get in HshC. simpl in HshC.
    simpl. rewrite HshC. by rewrite decide_True by lia.
Qed.

Lemma rebased_value (w : nat) B c :
  (0 < w)%nat -> BitWidth c = w -> wf c ->
  0 <= getSExtValue c - B < 2 ^ Z.of_nat w ->
  getZExtValue (sub c (get w B)) = getSExtValue c - B.
Proof.
  intros Hw Hwc Hc Hd.
  destruct (getSExtValue_spec w c Hw Hwc Hc) as [_ Hmod].
  unfold sub, get, wrap. simpl. rewrite Hwc.
  rewrite Zminus_mod_idemp_r, <- Hmod, Zminus_mod_idemp_l.
  by apply Z.mod_small.
Qed.

Lemma rotated_value (w : nat) B Sh x :
  0 < Sh < Z.of_nat w -> (w <= 64)%nat -> BitWidth x = w ->
  rotated w B Sh x
  = Some (mk w (rot (Z.of_nat w) Sh (getZExtValue (sub x (get w B))))).
Proof.
  intros HSh Hw Hwx. unfold rotated.
  assert (Z.of_nat w < 2 ^ Z.of_nat w) as Hwpow
    by (apply Z.pow_gt_lin_r; lia).
  assert (getZExtValue (get w Sh) = Sh) as ->
    by (unfold get; simpl; apply wrap_small; lia).
  assert (getZExtValue (get w (wrap 32 (Z.of_nat w - Sh)))
          = Z.of_nat w - Sh) as ->.
  { unfold get. simpl. rewrite (wrap_small 32).
    - apply wrap_small. lia.
    - change (Z.of_nat 32) with 32. split; [lia|].
      assert (2 ^ 6 <= 2 ^ 32) by (by apply Z.pow_le_mono_r).
      change (2 ^ 6) with 64 in *. lia. }
  rewrite decide_False by lia. rewrite decide_False by lia. done.
Qed.

Lemma APInt_eq' (a b : APInt) :
  BitWidth a = BitWidth b -> getZExtValue a = getZExtValue b -> a = b.
Proof. destruct a, b. simpl. by intros -> ->. Qed.

(** X6. When [ReduceSwitchRange] reduces a switch on [w] bits, the
    rotation it builds shifts by more than zero and less than [w] bits, so
    that both shifts have a value, and it sends a value of the condition
    to the new value of a case exactly when the value is the old value of
    that case: the switch on the rotated condition takes the same case as
    the switch it replaces. *)
Theorem ReduceSwitchRange_sound fits (w : nat) cases r :
  (0 < w)%nat -> Forall (fun c => BitWidth c = w /\ wf c) cases ->
  ReduceSwitchRange fits w cases = Some (Some r) ->
  0 < Shift r < Z.of_nat w /\
  length (NewCases r) = length cases /\
  forall x, BitWidth x = w -> wf x ->
    exists Rot,
      rotated w (Base r) (Shift r) x = Some Rot /\
      forall i c c',
        cases !! i = Some c -> NewCases r !! i = Some c' ->
        Rot = c' <-> x = c.
Proof.
  intros Hw Hwd Hred.
  destruct (ReduceSwitchRange_inv fits w cases r Hw Hwd Hred)
    as (Hw64 & HSh & Hcases & Hnew).
  split; [done|]. split; [by rewrite Hnew, length_fmap|].
  intros x Hwx Hx. eexists. split; [by apply rotated_value|].
  intros i c c' Hc Hc'. rewrite Hnew, list_lookup_fmap, Hc in Hc'.
  cbn [fmap option_fmap option_map] in Hc'. inversion Hc'; subst c'.
  clear Hc'.
  apply list_elem_of_lookup_2 in Hc as Hin.
  rewrite Forall_forall in Hwd. destruct (Hwd c Hin) as [Hwc Hcwf].
  destruct (Hcases c Hin) as [Hd Hal].
  change (wrap (BitWidth c) (getZExtValue c - wrap w (Base r)))
    with (getZExtValue (sub c (get w (Base r)))).
  rewrite (rebased_value w (Base r) c Hw Hwc Hcwf Hd).
  set (D := getSExtValue c - Base r) in *.
  set (Sx := getZExtValue (sub x (get w (Base r)))).
  assert (0 <= Sx < 2 ^ Z.of_nat w) as HSx.
  { unfold Sx, sub, get. simpl. rewrite Hwx. apply wrap_range. }
  assert (0 <= Z.shiftr D (Shift r) < 2 ^ Z.of_nat w) as Hshr.
  { rewrite Z.shiftr_div_pow2 by lia.
    assert (0 < 2 ^ Shift r) as Hp by (apply Z.pow_pos_nonneg; lia).
    split; [apply Z.div_pos; lia|].
    apply Z.div_lt_upper_bound; [lia|]. nia. }
  unfold get. rewrite (wrap_small w _ Hshr).
  rewrite <- (rot_aligned (Z.of_nat w) (Shift r) D) by (done || lia).
  split.
  - intros [= Hrot]. apply rot_inj in Hrot; [|lia|done|done].
    apply APInt_eq'; [congruence|].
    unfold Sx in Hrot.
    assert (D = getZExtValue (sub c (get w (Base r)))) as HD
      by (symmetry; by apply rebased_value).
    rewrite HD in Hrot. unfold sub, get, wrap in Hrot. simpl in Hrot.
    rewrite Hwx, Hwc in Hrot. unfold wf in Hx, Hcwf.
    rewrite Hwx in Hx. rewrite Hwc in Hcwf.
    by eapply sub_mod_inj.
  - intros ->. f_equal. f_equal. unfold Sx.
    by apply rebased_value.
Qed.

Lemma ReduceSwitchRange_sound_witness :
  0 < 2 < Z.of_nat 8 /\
  exists Rot,
    rotated 8 5 2 (get 8 13) = Some Rot /\
    (Rot = get 8 2 <-> get 8 13 = get 8 13).
Proof.
  assert (Forall (fun c => BitWidth c = 8%nat /\ wf c)
            [get 8 5; get 8 9; get 8 13; get 8 17]) as Hwd
    by (repeat constructor; vm_compute; done).
  assert (wf (get 8 13)) as Hx by (vm_compute; done).
  destruct (ReduceSwitchRange_sound (fun _ => true) 8
              [get 8 5; get 8 9; get 8 13; get 8 17]
              (mkReduced 5 2 [get 8 0; get 8 1; get 8 2; get 8 3])
              ltac:(lia) Hwd eq_refl)
    as (HSh & _ & Hrot).
  split; [exact HSh|].
  destruct (Hrot (get 8 13) eq_refl Hx) as (Rot & HRot & Hiff).
  exists Rot. split; [exact HRot|].
  exact (Hiff 2%nat (get 8 13) (get 8 2) eq_refl eq_refl).
Defined.

End SwitchReduceFacts.


(** ** Reading a lookup table *)

Module TableLookup.
Import AP Const LookupTable.

(** [CreateIntCast(Index, Ty, false)] and [CreateZExtOrTrunc(Index, Ty)]
    on a value. *)
Definition zextOrTrunc (w : nat) (Index : APInt) : APInt :=
  get w (getZExtValue Index).

(** What the instructions that [BuildLookup] builds compute for the value
    [Index] of the table index: nothing where the table lacks the field of
    its kind, where the shift has no value, or where the load is out of
    bounds. *)
Definition BuildLookup (t : SwitchLookupTable) (Index : APInt)
    : option Constant :=
  match Kind t with
  | SingleValueKind => SingleValue t
  | LinearMapKind =>
      Multiplier ← LinearMultiplier t;
      Offset ← LinearOffset t;
      let Result := zextOrTrunc (BitWidth Multiplier) Index in
      let Result :=
        if decide (getZExtValue Multiplier = 1) then Result
        else get (BitWidth Result)
               (getZExtValue Result * getZExtValue Multiplier) in
      let Result :=
        if decide (getZExtValue Offset = 0) then Result
        else get (BitWidth Result)
               (getZExtValue Result + getZExtValue Offset) in
      Some (ConstantInt Result)
  | BitMapKind =>
      Map ← BitMap t;
      ElementWidth ← BitMapElementTy t;
      let ShiftAmt := zextOrTrunc (BitWidth Map) Index in
      let ShiftAmt :=
        get (BitWidth Map)
          (getZExtValue ShiftAmt
           * getZExtValue (get (BitWidth Map) (Z.of_nat ElementWidth))) in
      if decide (Z.of_nat (BitWidth Map) <= getZExtValue ShiftAmt) then None
      else
        Some (ConstantInt
                (get ElementWidth
                   (Z.shiftr (getZExtValue Map) (getZExtValue ShiftAmt))))
  | ArrayKind =>
      Initializer ← Array t;
      Initializer !! Z.to_nat (getZExtValue Index)
  end.

End TableLookup.

Module TableLookupFacts.
Import AP Const LookupTable LookupTableFacts TableLookup.

(** The integers among the constants fit in their width. *)
Definition wfConstant (c : Constant) : Prop :=
  match c with
  | ConstantInt v => wf v
  | _ => True
  end.

(** Every slot that is written holds a constant for which [P] holds. *)
Definition Slots (P : Constant -> Prop) (tc : Table) : Prop :=
  Forall (fun slot => match slot with Some c => P c | None => True end) tc.

Lemma fillCases_Slots P ty Offset Values : forall tc0 sv0 tc sv,
  (forall p : APInt * Constant, p ∈ Values -> getType p.2 = ty -> P p.2) ->
  Slots P tc0 ->
  fillCases ty Offset Values tc0 sv0 = Some (tc, sv) ->
  Slots P tc.
Proof.
  induction Values as [|[CaseVal CaseRes] Values IH]; intros tc0 sv0 tc sv HP H0;
    simpl.
  { by intros [= <- <-]. }
  case_decide as Hty; [|done]. case_decide as Hidx; [|done].
  apply IH.
  - intros p Hp. apply HP. by right.
  - apply Forall_insert; [done|]. apply (HP (CaseVal, CaseRes)); [by left|done].
Qed.

Lemma fillHoles_Slots P Default tc :
  Slots P tc -> P Default ->
  Forall (fun slot => exists c, slot = Some c /\ P c) (fillHoles Default tc).
Proof.
  unfold Slots, fillHoles. intros H HD. apply Forall_fmap.
  eapply Forall_impl; [exact H|]. intros [c|] Hc; simpl; eauto.
Qed.

Lemma replicate_Slots P n : Slots P (replicate n None).
Proof. apply Forall_replicate. done. Qed.

(** What holds for all results, and for the default when it fills holes,
    holds for every slot of the table that is written. *)
Lemma tableContents_Slots P TableSize Offset Values DefaultValue tc sv :
  Forall (fun p : APInt * Constant => P p.2) Values ->
  ((length Values < TableSize)%nat ->
   forall d, DefaultValue = Some d -> P d) ->
  tableContents TableSize Offset Values DefaultValue = Some (tc, sv) ->
  length tc = TableSize /\
  exists ValueType,
    ValueTypeOf Values = Some ValueType /\
    Slots (fun c => P c /\ getType c = ValueType) tc.
Proof.
  intros HV HD. unfold tableContents.
  destruct Values as [|[cv0 First] Values']; [done|].
  set (Values := (cv0, First) :: Values') in *.
  case_decide as Hsize; [done|].
  destruct (fillCases _ _ _ _ _) as [[tc1 sv1]|] eqn:Hfill; [|done].
  cbn [mbind option_bind].
  assert (Slots (fun c => P c /\ getType c = getType First) tc1) as H1.
  { eapply fillCases_Slots; [|apply replicate_Slots|exact Hfill].
    intros p Hp Hty. split; [|done]. rewrite Forall_forall in HV.
    by apply HV. }
  pose proof (fillCases_length _ _ _ _ _ _ _ Hfill) as Hlen.
  rewrite length_replicate in Hlen.
  case_decide as Hholes.
  - destruct DefaultValue as [Default|]; [|done]. case_decide as Hty; [|done].
    intros [= <- <-]. split; [unfold fillHoles; by rewrite length_fmap|].
    exists (getType First). split; [done|].
    eapply Forall_impl.
    + apply (fillHoles_Slots _ Default tc1 H1). split; [by apply HD|done].
    + intros slot (c & -> & Hc). done.
  - intros [= <- <-]. split; [done|]. by exists (getType First).
Qed.

Lemma tableContents_sv TableSize Offset Values DefaultValue tc v :
  tableContents TableSize Offset Values DefaultValue = Some (tc, Some v) ->
  Forall (fun p : APInt * Constant => p.2 = v) Values /\
  ((length Values < TableSize)%nat -> DefaultValue = Some v).
Proof.
  unfold tableContents.
  destruct Values as [|[cv0 First] Values']; [done|].
  set (Values := (cv0, First) :: Values').
  case_decide; [done|].
  destruct (fillCases _ _ _ _ _) as [[tc1 sv1]|] eqn:Hfill; [|done].
  cbn [mbind option_bind].
  pose proof (fillCases_single _ _ _ _ _ _ _ v Hfill) as Hs.
  case_decide as Hholes.
  - destruct DefaultValue as [Default|]; [|done].
    case_decide; [|done]. case_decide as Hd; [|done].
    intros [= <- Hsv]. apply Hs in Hsv as Hv. destruct Hv as [_ HF].
    split; [done|]. intros _. congruence.
  - intros [= <- Hsv]. apply Hs in Hsv as [_ HF]. split; [done|lia].
Qed.

(** A table with a single value holds it in every slot. *)
Lemma single_slots TableSize Offset Values DefaultValue tc v :
  tableContents TableSize Offset Values DefaultValue = Some (tc, Some v) ->
  Slots (fun c => c = v) tc.
Proof.
  intros H. destruct (tableContents_sv _ _ _ _ _ _ H) as [HF HD].
  assert ((length Values < TableSize)%nat ->
          forall d, DefaultValue = Some d -> d = v) as HD'.
  { intros Hholes d Hd. specialize (HD Hholes). congruence. }
  destruct (tableContents_Slots (fun c => c = v) TableSize Offset Values
              DefaultValue tc (Some v) HF HD' H) as (_ & ty & _ & Hs).
  eapply Forall_impl; [exact Hs|]. intros [c|]; [|done]. by intros [-> _].
Qed.

(** Without a single value the table has two slots at least. *)
Lemma no_single_value_size TableSize Offset Values DefaultValue tc :
  tableContents TableSize Offset Values DefaultValue = Some (tc, None) ->
  (2 <= TableSize)%nat.
Proof.
  intros H. destruct (decide (2 <= TableSize)%nat) as [|Hsmall]; [done|].
  exfalso.
  assert (is_Some (@None Constant)) as [? [=]].
  apply (tableContents_single _ _ _ _ _ _ H).
  unfold tableContents in H.
  destruct Values as [|[cv0 First] Values']; [done|].
  case_decide as Hsize; [done|]. simpl in Hsize.
  destruct Values' as [|p Values'']; [|simpl in Hsize; lia].
  exists First. split; [by repeat constructor|]. simpl. lia.
Qed.

Lemma array_lookup (tc : Table) Initializer I c :
  mapM id tc = Some Initializer -> tc !! I = Some (Some c) ->
  Initializer !! I = Some c.
Proof.
  intros Hm Hc. apply mapM_Some in Hm.
  destruct (Forall2_lookup_l _ _ _ _ _ Hm Hc) as (y & Hy & Heq).
  simpl in Heq. congruence.
Qed.

(** *** The bitmap *)

(** The integer a slot contributes to the bitmap: undef counts as zero. *)
Definition slotVal (slot : option Constant) : Z :=
  match slot with
  | Some (ConstantInt v) => getZExtValue v
  | _ => 0
  end.

(** A slot that can be packed: an integer of [w] bits, or undef. *)
Definition IntSlot (w : nat) (slot : option Constant) : Prop :=
  match slot with
  | Some (ConstantInt v) => BitWidth v = w /\ wf v
  | Some (UndefValue _) => True
  | _ => False
  end.

(** The slots, the first one in the lowest bits. *)
Fixpoint pack (w : nat) (tc : Table) : Z :=
  match tc with
  | [] => 0
  | slot :: rest => slotVal slot + 2 ^ Z.of_nat w * pack w rest
  end.

Lemma slotVal_range w slot : IntSlot w slot -> 0 <= slotVal slot < 2 ^ Z.of_nat w.
Proof.
  destruct slot as [[v|?|?|? ?|? ?]|]; simpl; try done.
  - intros [<- Hv]. exact Hv.
  - intros _. split; [lia|]. apply Z.pow_pos_nonneg; lia.
Qed.

Lemma pack_range w tc :
  Forall (IntSlot w) tc ->
  0 <= pack w tc < 2 ^ (Z.of_nat (length tc) * Z.of_nat w).
Proof.
  induction 1 as [|slot tc Hs _ IH]; simpl pack.
  { change (Z.of_nat (length [])) with 0. rewrite Z.mul_0_l, Z.pow_0_r. lia. }
  pose proof (slotVal_range w slot Hs) as Hv.
  replace (Z.of_nat (length (slot :: tc)) * Z.of_nat w)
    with (Z.of_nat w + Z.of_nat (length tc) * Z.of_nat w) by (simpl; lia).
  rewrite Z.pow_add_r by lia.
  set (W := 2 ^ Z.of_nat w) in *.
  set (R := 2 ^ (Z.of_nat (length tc) * Z.of_nat w)) in *. nia.
Qed.

Lemma pack_app w tc slot :
  pack w (tc ++ [slot])
  = pack w tc + 2 ^ (Z.of_nat (length tc) * Z.of_nat w) * slotVal slot.
Proof.
  induction tc as [|s tc IH]; simpl pack.
  { change (Z.of_nat (length [])) with 0. rewrite Z.mul_0_l, Z.pow_0_r. lia. }
  rewrite IH.
  replace (Z.of_nat (length (s :: tc)) * Z.of_nat w)
    with (Z.of_nat w + Z.of_nat (length tc) * Z.of_nat w) by (simpl; lia).
  rewrite Z.pow_add_r by lia. lia.
Qed.

Lemma lor_shifted a b w :
  0 <= w -> 0 <= b < 2 ^ w -> Z.lor (a * 2 ^ w) b = a * 2 ^ w + b.
Proof.
  intros Hw Hb. rewrite <- Z.lxor_lor, <- Z.add_nocarry_lxor; try done;
    apply Z.bits_inj'; intros i Hi; rewrite Z.land_spec, Z.bits_0;
    destruct (decide (i < w)) as [Hlt|Hge].
  all: try (by rewrite Z.mul_pow2_bits_low by lia).
  all: rewrite <- (Z.mod_small b (2 ^ w)) by done;
    rewrite Z.mod_pow2_bits_high by lia; apply andb_false_r.
Qed.

Lemma packBitMap_spec total w : forall tc acc,
  Forall (IntSlot w) tc ->
  Z.of_nat (length tc) * Z.of_nat w <= Z.of_nat total ->
  0 <= acc < 2 ^ (Z.of_nat total - Z.of_nat (length tc) * Z.of_nat w) ->
  packBitMap total w (reverse tc) acc
  = Some (pack w tc + 2 ^ (Z.of_nat (length tc) * Z.of_nat w) * acc).
Proof.
  induction tc as [|slot tc IH] using rev_ind; intros acc Hs Hlen Hacc.
  { simpl. f_equal. change (Z.of_nat 0) with 0.
    rewrite Z.mul_0_l, Z.pow_0_r. lia. }
  apply Forall_app in Hs as [Hs Hslot]. apply Forall_inv in Hslot.
  rewrite length_app in *. simpl length in *.
  rewrite reverse_app. simpl reverse. simpl app.
  pose proof (slotVal_range w slot Hslot) as Hv.
  set (n := Z.of_nat (length tc)) in *. set (W := Z.of_nat w) in *.
  replace (Z.of_nat (length tc + 1)) with (n + 1) in * by lia.
  assert (0 <= n) by lia. assert (0 <= W) by lia.
  assert (0 < 2 ^ W) as HW by (apply Z.pow_pos_nonneg; lia).
  assert (2 ^ (Z.of_nat total - n * W)
          = 2 ^ W * 2 ^ (Z.of_nat total - (n + 1) * W)) as Hsplit.
  { rewrite <- Z.pow_add_r by lia. f_equal. lia. }
  assert (wrap total (Z.shiftl acc W) = acc * 2 ^ W) as Hshift.
  { rewrite Z.shiftl_mul_pow2 by lia. apply wrap_small. split; [lia|].
    assert (2 ^ (Z.of_nat total - n * W) <= 2 ^ Z.of_nat total)
      by (apply Z.pow_le_mono_r; lia).
    nia. }
  assert (forall acc', acc' = acc * 2 ^ W + slotVal slot ->
            packBitMap total w (reverse tc) acc'
            = Some (pack w (tc ++ [slot]) + 2 ^ ((n + 1) * W) * acc)) as Hnext.
  { intros acc' ->. rewrite IH; [|done|lia|nia]. f_equal.
    rewrite pack_app. fold n W.
    replace ((n + 1) * W) with (n * W + W) by lia.
    rewrite Z.pow_add_r by lia. lia. }
  simpl packBitMap. fold W. rewrite Hshift.
  destruct slot as [[v|ty|?|? ?|? ?]|]; simpl in Hslot; try done.
  - apply Hnext. simpl slotVal. apply lor_shifted; [lia|exact Hv].
  - apply Hnext. simpl. lia.
Qed.

Lemma pack_lookup w : forall tc I slot,
  Forall (IntSlot w) tc -> tc !! I = Some slot ->
  Z.shiftr (pack w tc) (Z.of_nat I * Z.of_nat w) mod 2 ^ Z.of_nat w
  = slotVal slot.
Proof.
  induction tc as [|s tc IH]; intros I slot Hs HI; [done|].
  apply Forall_cons in Hs as [Hs0 Hs]. simpl pack.
  pose proof (slotVal_range w s Hs0) as Hv.
  assert (0 < 2 ^ Z.of_nat w) as HW by (apply Z.pow_pos_nonneg; lia).
  destruct I as [|I]; simpl in HI.
  - inversion HI; subst slot. simpl. rewrite Z.shiftr_0_r.
    rewrite Z.mul_comm, Z.mod_add by lia. by apply Z.mod_small.
  - rewrite <- (IH I slot Hs HI). f_equal.
    replace (Z.of_nat (S I) * Z.of_nat w)
      with (Z.of_nat w + Z.of_nat I * Z.of_nat w) by lia.
    rewrite <- Z.shiftr_shiftr by lia. f_equal.
    rewrite Z.shiftr_div_pow2 by lia.
    rewrite Z.mul_comm, Z.div_add by lia.
    rewrite Z.div_small by done. lia.
Qed.

(** *** The linear map *)

(** The written slots hold well-formed constants of the type [ty]. *)
Definition TypedSlots (ty : Ty) (tc : Table) : Prop :=
  Slots (fun c => wfConstant c /\ getType c = ty) tc.

Lemma Chain_lookup (w : nat) D : forall rest prev I c,
  Chain D prev rest -> BitWidth prev = w -> wf prev ->
  TypedSlots (IntegerType w) rest ->
  rest !! I = Some (Some c) ->
  c = ConstantInt
        (get w (getZExtValue prev + Z.of_nat (S I) * getZExtValue D)).
Proof.
  induction rest as [|slot rest IH]; intros prev I c Hchain Hwp Hp Hs HI;
    [done|].
  destruct slot as [[v|?|?|? ?|? ?]|]; try done. destruct Hchain as [Hd Hchain].
  apply Forall_cons in Hs as [[Hv Hty] Hs]. simpl in Hv, Hty.
  injection Hty as Hwv. pose proof Hv as Hvwf.
  unfold wf in Hv, Hp. rewrite Hwv in Hv. rewrite Hwp in Hp.
  assert (getZExtValue v
          = (getZExtValue prev + getZExtValue D) mod 2 ^ Z.of_nat w) as Hstep.
  { rewrite <- Hd. unfold sub, get, wrap. simpl. rewrite Hwv.
    rewrite Zplus_mod_idemp_r.
    replace (getZExtValue prev + (getZExtValue v - getZExtValue prev))
      with (getZExtValue v) by lia.
    symmetry. by apply Z.mod_small. }
  destruct I as [|I]; simpl in HI.
  - inversion HI; subst c. f_equal. destruct v as [wv vv]. simpl in *.
    subst wv. unfold get, wrap. f_equal. rewrite Hstep. f_equal. lia.
  - rewrite (IH v I c Hchain Hwv Hvwf Hs HI). f_equal. unfold get, wrap.
    f_equal. rewrite Hstep, Zplus_mod_idemp_l. f_equal. lia.
Qed.

Lemma stride_width (w : nat) D tc :
  ConstantStride D tc -> TypedSlots (IntegerType w) tc ->
  (2 <= length tc)%nat -> BitWidth D = w.
Proof.
  intros [Hint Hstride] Hs Hlen.
  destruct tc as [|s0 [|s1 tc]]; simpl in Hlen; try lia.
  apply Forall_cons in Hint as [[a ->] Hint].
  apply Forall_cons in Hint as [[b ->] _].
  apply Forall_cons in Hs as [_ Hs]. apply Forall_cons in Hs as [[_ Hty] _].
  simpl in Hty. injection Hty as Hwb.
  rewrite <- (Hstride 0%nat a b eq_refl eq_refl). done.
Qed.

(** The entry of a table with the stride [D]: the first entry, and [D]
    added once per slot. *)
Lemma stride_lookup (w : nat) D tc v0 I c :
  ConstantStride D tc -> TypedSlots (IntegerType w) tc ->
  firstInt tc = Some v0 -> tc !! I = Some (Some c) ->
  c = ConstantInt (get w (getZExtValue v0 + Z.of_nat I * getZExtValue D)).
Proof.
  intros Hstride Hs Hfirst HI.
  destruct tc as [|[[v|?|?|? ?|? ?]|] rest]; try done.
  simpl in Hfirst. inversion Hfirst; subst v0.
  pose proof Hs as Hs'. apply Forall_cons in Hs' as [[Hv Hty] Hrest].
  simpl in Hv, Hty. injection Hty as Hwv.
  destruct I as [|I]; simpl in HI.
  - inversion HI; subst c. f_equal. destruct v as [wv vv]. simpl in *.
    subst wv. unfold get. f_equal. rewrite Z.add_0_r. symmetry.
    by apply wrap_small.
  - apply stride_cons in Hstride.
    by apply (Chain_lookup w D rest v I c).
Qed.

(** *** Reading the table back *)

(** What a lookup yields for the constant [c] of a slot: the constant, but
    for undef in a bitmap, which is packed as zero. *)
Definition readAs (t : SwitchLookupTable) (c : Constant) : Constant :=
  match Kind t, c, BitMapElementTy t with
  | BitMapKind, UndefValue _, Some w => ConstantInt (get w 0)
  | _, _, _ => c
  end.

Lemma packBitMap_slots total w : forall l acc r,
  packBitMap total w l acc = Some r ->
  Forall (fun slot => match slot with
                      | Some (ConstantInt _) | Some (UndefValue _) => True
                      | _ => False
                      end) l.
Proof.
  induction l as [|slot l IH]; intros acc r H; [done|]. simpl in H.
  destruct slot as [[v|ty|?|? ?|? ?]|]; try done;
    constructor; try done; by eapply IH.
Qed.

Lemma typed_int_slots (w : nat) tc r acc total :
  TypedSlots (IntegerType w) tc ->
  packBitMap total w (reverse tc) acc = Some r ->
  Forall (IntSlot w) tc.
Proof.
  intros Hs Hp. apply packBitMap_slots in Hp. apply Forall_reverse in Hp.
  rewrite reverse_involutive in Hp.
  unfold TypedSlots, Slots in Hs. rewrite Forall_forall in Hs, Hp.
  apply Forall_forall. intros slot Hin.
  specialize (Hs slot Hin). specialize (Hp slot Hin).
  destruct slot as [[v|ty|?|? ?|? ?]|]; try done. simpl.
  destruct Hs as [Hv Hty]. simpl in Hty. by injection Hty as ->.
Qed.

Lemma bitmap_or_array_reads fits TableSize ty tc t I Index c :
  encodeBitMapOrArray fits TableSize ty tc = Some t ->
  length tc = TableSize -> TypedSlots ty tc ->
  tc !! I = Some (Some c) -> getZExtValue Index = Z.of_nat I ->
  BuildLookup t Index = Some (readAs t c).
Proof.
  intros Henc Hlen Hs HI HIdx. unfold encodeBitMapOrArray in Henc.
  destruct (WouldFitInRegister fits TableSize ty) eqn:Hfit.
  - destruct ty as [w| |]; try done.
    destruct (packBitMap _ _ _ _) as [TableInt|] eqn:Hpack; [|done].
    cbn [mbind option_bind] in Henc. inversion Henc; subst t. clear Henc.
    pose proof (typed_int_slots _ _ _ _ _ Hs Hpack) as Hint.
    assert (0 < w)%nat as Hw.
    { destruct w; [|lia]. simpl in Hfit. rewrite decide_True in Hfit; [done|].
      change (Z.of_nat 0) with 0. rewrite Z.div_0_r. lia. }
    pose proof (lookup_lt_Some _ _ _ HI) as HIlt. rewrite Hlen in HIlt.
    set (total := (TableSize * w)%nat) in *.
    assert (Z.of_nat total = Z.of_nat (length tc) * Z.of_nat w) as Htotal
      by (unfold total; rewrite Hlen; lia).
    rewrite packBitMap_spec in Hpack; [|done|lia|].
    2: { rewrite Htotal, Z.sub_diag. simpl. lia. }
    rewrite Z.mul_0_r, Z.add_0_r in Hpack. inversion Hpack; subst TableInt.
    clear Hpack.
    assert (Z.of_nat total < 2 ^ Z.of_nat total) as Hpow
      by (apply Z.pow_gt_lin_r; lia).
    assert (Z.of_nat I * Z.of_nat w < Z.of_nat total) as Hshift.
    { rewrite Htotal, Hlen. apply Z.mul_lt_mono_pos_r; lia. }
    assert (Z.of_nat I <= Z.of_nat I * Z.of_nat w) as HIw by nia.
    assert (Z.of_nat w <= Z.of_nat total) as Hwt by (unfold total; nia).
    unfold BuildLookup. cbn [Kind BitMap BitMapElementTy mbind option_bind].
    unfold zextOrTrunc. cbn [BitWidth]. rewrite HIdx.
    assert (getZExtValue
              (get total
                 (getZExtValue (get total (Z.of_nat I))
                  * getZExtValue (get total (Z.of_nat w))))
            = Z.of_nat I * Z.of_nat w) as ->.
    { unfold get. cbn [getZExtValue].
      rewrite (wrap_small total (Z.of_nat I)) by lia.
      rewrite (wrap_small total (Z.of_nat w)) by lia.
      apply wrap_small. lia. }
    rewrite decide_False by lia. cbn [getZExtValue]. f_equal.
    pose proof (pack_lookup w tc I (Some c) Hint HI) as Hread.
    rewrite Forall_forall in Hint.
    assert (IntSlot w (Some c)) as Hc
      by (apply Hint; by eapply list_elem_of_lookup_2).
    unfold readAs. cbn [Kind BitMapElementTy].
    destruct c as [v|ty|?|? ?|? ?]; try done.
    + simpl in Hc, Hread. destruct Hc as [Hwv _]. f_equal.
      destruct v as [wv vv]. simpl in *. subst wv. unfold get, wrap.
      by rewrite Hread.
    + simpl in Hread. f_equal. unfold get, wrap. by rewrite Hread.
  - destruct (mapM id tc) as [Initializer|] eqn:Hm; [|done].
    cbn [mbind option_bind] in Henc. inversion Henc; subst t. clear Henc.
    unfold BuildLookup, readAs. cbn [Kind Array mbind option_bind].
    rewrite HIdx, Nat2Z.id.
    rewrite (array_lookup tc Initializer I c Hm HI). by destruct c.
Qed.

End TableLookupFacts.
